(** * Schema-resolution pipeline of oapi-codegen-dd: filtering, pruning, unions

    A shallow embedding of [pkg/codegen/prune.go], [pkg/codegen/filter.go]
    and the union synthesizer ([generateUnion]), with the properties of the
    design document stated and settled against the embedded code.

    The libopenapi document model is an external library.  Its types are
    modelled by what the embedded functions read and write:
    - an ordered map ([orderedmap.Map]) is an association list in insertion
      order; a nil map is [None];
    - a [*base.SchemaProxy] is nil, an inline schema, or a [$ref];
      [Schema()] of a [$ref] looks the reference up in the document index;
    - a Go [map[string]bool] used as a set is a [gset string]. *)

From stdpp Require Import gmap strings list sorting.
From Stdlib Require Import DecimalString.

Local Open Scope string_scope.

(** ** Go runtime and ordered maps *)
Module Go.

(** Go's [error] values are identified by their message. *)
Definition error := string.

(** [slices.Contains]. *)
Fixpoint Contains (s : list string) (v : string) : bool :=
  match s with
  | [] => false
  | x :: s' => if String.eqb x v then true else Contains s' v
  end.

(** The [%d] verb of [fmt] on a non-negative integer. *)
Definition fmt_d (n : nat) : string := NilZero.string_of_uint (Nat.to_uint n).

(** The order [slices.Sort] uses on strings. *)
Definition string_le (a b : string) : Prop := String.leb a b = true.

#[export] Instance string_le_dec a b : Decision (string_le a b).
Proof. unfold string_le. apply _. Defined.

(** [slices.Sort] on a slice of strings. *)
Definition Sort (l : list string) : list string := merge_sort string_le l.

(** [orderedmap.Map[string, V]]: entries from oldest to newest. *)
Abbreviation OrderedMap V := (list (string * V)).

Definition KeysFromOldest {V} (m : OrderedMap V) : list string := m.*1.

Definition Delete {V} (key : string) (m : OrderedMap V) : OrderedMap V :=
  List.filter (fun kv => negb (String.eqb (fst kv) key)) m.

Fixpoint Get {V} (key : string) (m : OrderedMap V) : option V :=
  match m with
  | [] => None
  | (k, v) :: m' => if String.eqb k key then Some v else Get key m'
  end.

End Go.

(** ** The component pruner ([pkg/codegen/prune.go]) *)
Module Prune.
Import Go.

(** *** Document model, as the collector reads it *)

Inductive Proxy (S : Type) : Type :=
| ProxyNil                (* a nil pointer *)
| ProxyInline (s : S)     (* an inline schema: [GetReference()] is empty *)
| ProxyRef (r : string).  (* [$ref: r] *)
Arguments ProxyNil {S}.
Arguments ProxyInline {S} s.
Arguments ProxyRef {S} r.

(** [*base.DynamicValue[A, B]]: [IsA()] holds of [DynA]. *)
Inductive DynamicValue (A B : Type) : Type :=
| DynA (a : A)
| DynB (b : B).
Arguments DynA {A B} a.
Arguments DynB {A B} b.

(** [*base.Schema], with [sReference] the value of
    [schema.GoLow().GetReference()]. *)
#[warnings="-register-all"]
Inductive Schema : Type := mkSchema {
  sReference : string;
  sProperties : option (OrderedMap (Proxy Schema));
  sItems : option (DynamicValue (Proxy Schema) bool);
  sAdditionalProperties : option (DynamicValue (Proxy Schema) bool);
  sAllOf : list (Proxy Schema);
  sOneOf : list (Proxy Schema);
  sAnyOf : list (Proxy Schema);
  sNot : Proxy Schema
}.

Abbreviation SchemaProxy := (Proxy Schema).

(** The document index: what each reference resolves to.  It is built
    when the document is parsed and is not touched by pruning. *)
Abbreviation Index := (gmap string Schema).

(** [proxy.GoLow().GetReference()]. *)
Definition GetReference (p : SchemaProxy) : string :=
  match p with
  | ProxyRef r => r
  | _ => ""
  end.

(** [proxy.Schema()]: an inline schema is itself; a reference is resolved
    through the index, and the empty string is not a reference. *)
Definition SchemaOf (idx : Index) (p : SchemaProxy) : option Schema :=
  match p with
  | ProxyNil => None
  | ProxyInline s => Some s
  | ProxyRef r => if decide (r = "") then None else idx !! r
  end.

Record MediaType := { mtSchema : SchemaProxy }.

(** [Content]: an ordered map of media types, possibly nil. *)
Definition Content := option (OrderedMap MediaType).

(** [v3high.Header], [v3high.RequestBody] and [v3high.Response], with their
    own reference ([GoLow().GetReference()]) and what the collector walks. *)
Record Header := {
  hReference : string;
  hSchema : SchemaProxy;
  hContent : Content
}.

(** [v3high.Parameter]; [Parameter] is a reserved word. *)
Record Param := {
  pReference : string;
  pSchema : SchemaProxy;
  pContent : Content
}.

Record RequestBody := {
  rbReference : string;
  rbContent : Content
}.

Record Response := {
  rReference : string;
  rContent : Content;
  rHeaders : option (OrderedMap Header)
}.

Record Responses := {
  Default : option Response;
  Codes : OrderedMap Response
}.

Record Operation := {
  opRequestBody : option RequestBody;
  opParameters : list Param;
  opResponses : option Responses
}.

(** [piOperations] is [pathItem.GetOperations()], method name first. *)
Record PathItem := {
  piParameters : list Param;
  piOperations : OrderedMap Operation
}.

Record Paths := { PathItems : option (OrderedMap PathItem) }.

(** Component categories the generator has no use for are kept by their
    names only. *)
Record Components := {
  Schemas : option (OrderedMap SchemaProxy);
  Parameters : option (OrderedMap Param);
  RequestBodies : option (OrderedMap RequestBody);
  CResponses : option (OrderedMap Response);
  Headers : option (OrderedMap Header);
  SecuritySchemes : option (list string);
  Callbacks : option (list string);
  Examples : option (list string);
  Links : option (list string)
}.

(** [v3high.Document]. *)
Record Document := {
  Webhooks : option (list string);
  DPaths : option Paths;
  DComponents : option Components
}.

(** [libopenapi.Document]: the index and the cached result of
    [BuildV3Model], which the pipeline mutates in place. *)
Record LibDocument := {
  docIndex : Index;
  BuildV3Model : error + Document
}.

(** *** The reference collector *)

(** [addParentSchemaRef]: for [#/components/schemas/Foo/properties/bar]
    also record [#/components/schemas/Foo], the text before the first
    [/properties/]. *)
Definition addParentSchemaRef (ref : string) (refSet : gset string) : gset string :=
  match String.index 0 "/properties/" ref with
  | Some n =>
      let parentRef := String.substring 0 n ref in
      if decide (parentRef ∈ refSet) then refSet else {[parentRef]} ∪ refSet
  | None => refSet
  end.

(** Outcome of looking at one child proxy. *)
Inductive Visit : Type :=
| Seen                          (* its reference was already recorded *)
| Walked (refSet : gset string).  (* recorded if a reference, then walked *)

(** The test every child site of [collectSchemaRefs] makes: a reference
    not yet in the set is recorded (with its parent schema at the
    property site, [withParent]) and its schema walked; an inline child is
    walked; a recorded reference is reported as [Seen] and the site decides
    between [continue] and [return]. *)
Definition visitProxy (rec : option Schema -> gset string -> option (gset string))
    (idx : Index) (withParent : bool) (p : SchemaProxy) (refSet : gset string)
    : option Visit :=
  let ref := GetReference p in
  if decide (ref = "") then Walked <$> rec (SchemaOf idx p) refSet
  else if decide (ref ∈ refSet) then Some Seen
  else
    let refSet := {[ref]} ∪ refSet in
    let refSet := if withParent then addParentSchemaRef ref refSet else refSet in
    Walked <$> rec (SchemaOf idx p) refSet.

(** A [for] loop over proxies whose body does [continue] on nil and on a
    recorded reference. *)
Fixpoint walkList (visit : SchemaProxy -> gset string -> option Visit)
    (l : list SchemaProxy) (refSet : gset string) : option (gset string) :=
  match l with
  | [] => Some refSet
  | ProxyNil :: l' => walkList visit l' refSet
  | p :: l' =>
      match visit p refSet with
      | None => None
      | Some Seen => walkList visit l' refSet
      | Some (Walked refSet') => walkList visit l' refSet'
      end
  end.

(** The items and additionalProperties sites: on a recorded reference the
    whole function returns; otherwise the rest [k] of the body runs. *)
Definition walkBranch (visit : SchemaProxy -> gset string -> option Visit)
    (d : option (DynamicValue SchemaProxy bool)) (refSet : gset string)
    (k : gset string -> option (gset string)) : option (gset string) :=
  match d with
  | Some (DynA ProxyNil) => k refSet
  | Some (DynA p) =>
      match visit p refSet with
      | None => None
      | Some Seen => Some refSet
      | Some (Walked refSet') => k refSet'
      end
  | _ => k refSet
  end.

(** The body of [collectSchemaRefs] on a schema that is not nil, [rec]
    standing for the recursive call. *)
Definition collectBody (rec : option Schema -> gset string -> option (gset string))
    (idx : Index) (schema : Schema) (refSet : gset string) : option (gset string) :=
  let ref := sReference schema in
  if decide (ref ≠ "" ∧ ref ∈ refSet) then Some refSet
  else
    let refSet :=
      if decide (ref = "") then refSet
      else addParentSchemaRef ref ({[ref]} ∪ refSet) in
    match
      match sProperties schema with
      | Some props => walkList (visitProxy rec idx true) props.*2 refSet
      | None => Some refSet
      end
    with
    | None => None
    | Some refSet =>
        walkBranch (visitProxy rec idx false) (sItems schema) refSet
          (fun refSet =>
        walkBranch (visitProxy rec idx false) (sAdditionalProperties schema) refSet
          (fun refSet =>
        walkList (visitProxy rec idx false)
          (sAllOf schema ++ sOneOf schema ++ sAnyOf schema ++ [sNot schema])
          refSet))
    end.

(** [collectSchemaRefs], with [fuel] bounding the depth of recursion;
    [None] means the fuel ran out. *)
Fixpoint collectSchemaRefs_fuel (idx : Index) (fuel : nat)
    (schema : option Schema) (refSet : gset string) : option (gset string) :=
  match schema with
  | None => Some refSet
  | Some schema =>
      match fuel with
      | 0 => None
      | S fuel' => collectBody (collectSchemaRefs_fuel idx fuel') idx schema refSet
      end
  end.

(** Nesting depth of the inline part of a schema: one more than the
    deepest inline child, references counting for nothing. *)
Section Heights.
Variable h : Schema -> nat.

Definition proxyHeight (p : SchemaProxy) : nat :=
  match p with
  | ProxyInline c => h c
  | _ => 0
  end.

Fixpoint listHeight (l : list SchemaProxy) : nat :=
  match l with
  | [] => 0
  | p :: l' => Nat.max (proxyHeight p) (listHeight l')
  end.

Fixpoint mapHeight (l : OrderedMap SchemaProxy) : nat :=
  match l with
  | [] => 0
  | (_, p) :: l' => Nat.max (proxyHeight p) (mapHeight l')
  end.

Definition dynHeight (d : option (DynamicValue SchemaProxy bool)) : nat :=
  match d with
  | Some (DynA p) => proxyHeight p
  | _ => 0
  end.
End Heights.

Fixpoint height (s : Schema) : nat :=
  S (Nat.max (match sProperties s with Some m => mapHeight height m | None => 0 end)
    (Nat.max (dynHeight height (sItems s))
    (Nat.max (dynHeight height (sAdditionalProperties s))
    (Nat.max (listHeight height (sAllOf s))
    (Nat.max (listHeight height (sOneOf s))
    (Nat.max (listHeight height (sAnyOf s)) (proxyHeight height (sNot s)))))))).

Definition optHeight (s : option Schema) : nat :=
  match s with Some s => height s | None => 0 end.

(** The tallest schema of the index. *)
Definition maxHeight (idx : Index) : nat :=
  max_list (height <$> (map_to_list idx).*2).

(** A recursion depth that is enough for every call on [schema]. *)
Definition fuelBound (idx : Index) (schema : option Schema) : nat :=
  optHeight schema + size idx * maxHeight idx.

(** [collectSchemaRefs] as the rest of the pruner calls it. *)
Definition collectSchemaRefs (idx : Index) (schema : option Schema)
    (refSet : gset string) : gset string :=
  default refSet (collectSchemaRefs_fuel idx (fuelBound idx schema) schema refSet).

(** [collectSchemaProxy]: the proxy's own reference, then its schema. *)
Definition collectSchemaProxy (idx : Index) (schemaProxy : SchemaProxy)
    (refSet : gset string) : gset string :=
  match schemaProxy with
  | ProxyNil => refSet
  | _ =>
      let ref := GetReference schemaProxy in
      let refSet := if decide (ref = "") then refSet else {[ref]} ∪ refSet in
      collectSchemaRefs idx (SchemaOf idx schemaProxy) refSet
  end.

(** The loop over [Content.FromOldest()], a nil map having no entries. *)
Definition collectContent (idx : Index) (content : Content)
    (refSet : gset string) : gset string :=
  match content with
  | Some m => foldl (fun rs kv => collectSchemaProxy idx (mtSchema (snd kv)) rs) refSet m
  | None => refSet
  end.

(** [refSet[ref] = true] when [ref] is not empty. *)
Definition recordRef (ref : string) (refSet : gset string) : gset string :=
  if decide (ref = "") then refSet else {[ref]} ∪ refSet.

(** The [interface{}] argument of [collectRefFromProxy], by dynamic type. *)
Inductive AnyProxy : Type :=
| AParameter (p : Param)
| ARequestBody (b : RequestBody)
| AResponse (r : Response)
| AHeader (h : Header).

Definition collectHeader (idx : Index) (v : Header) (refSet : gset string)
    : gset string :=
  let refSet := recordRef (hReference v) refSet in
  let refSet := collectSchemaProxy idx (hSchema v) refSet in
  collectContent idx (hContent v) refSet.

(** [collectRefFromProxy]: the first type switch records the proxy's own
    reference, the second walks its content. *)
Definition collectRefFromProxy (idx : Index) (proxy : AnyProxy)
    (refSet : gset string) : gset string :=
  match proxy with
  | AParameter v =>
      let refSet := recordRef (pReference v) refSet in
      let refSet := collectSchemaProxy idx (pSchema v) refSet in
      collectContent idx (pContent v) refSet
  | ARequestBody v =>
      let refSet := recordRef (rbReference v) refSet in
      collectContent idx (rbContent v) refSet
  | AResponse v =>
      let refSet := recordRef (rReference v) refSet in
      let refSet := collectContent idx (rContent v) refSet in
      match rHeaders v with
      | Some hs => foldl (fun rs kv => collectHeader idx (snd kv) rs) refSet hs
      | None => refSet
      end
  | AHeader v => collectHeader idx v refSet
  end.

(** The body of the loop over the operations of a path item. *)
Definition collectOperation (idx : Index) (op : Operation) (refSet : gset string)
    : gset string :=
  let refSet :=
    match opRequestBody op with
    | Some b => collectRefFromProxy idx (ARequestBody b) refSet
    | None => refSet
    end in
  let refSet :=
    foldl (fun rs param => collectRefFromProxy idx (AParameter param) rs)
      refSet (opParameters op) in
  match opResponses op with
  | Some rs =>
      let refSet :=
        match Default rs with
        | Some d => collectRefFromProxy idx (AResponse d) refSet
        | None => refSet
        end in
      foldl (fun acc kv => collectRefFromProxy idx (AResponse (snd kv)) acc)
        refSet (Codes rs)
  | None => refSet
  end.

Definition collectPathItem (idx : Index) (pathItem : PathItem)
    (refSet : gset string) : gset string :=
  let refSet :=
    foldl (fun rs param => collectRefFromProxy idx (AParameter param) rs)
      refSet (piParameters pathItem) in
  foldl (fun rs kv => collectOperation idx (snd kv) rs) refSet (piOperations pathItem).

(** The loop over an optional component map. *)
Definition collectMap {V} (f : V -> gset string -> gset string)
    (m : option (OrderedMap V)) (refSet : gset string) : gset string :=
  match m with
  | Some m => foldl (fun rs kv => f (snd kv) rs) refSet m
  | None => refSet
  end.

(** The body of the loop over [Components.Schemas]. *)
Definition collectComponentSchema (idx : Index) (schemaProxy : SchemaProxy)
    (refSet : gset string) : gset string :=
  match schemaProxy with
  | ProxyNil => refSet
  | _ =>
      let refSet := recordRef (GetReference schemaProxy) refSet in
      collectSchemaRefs idx (SchemaOf idx schemaProxy) refSet
  end.

Definition collectComponents (idx : Index) (c : Components) (refSet : gset string)
    : gset string :=
  let refSet := collectMap (fun v => collectRefFromProxy idx (AParameter v)) (Parameters c) refSet in
  let refSet := collectMap (fun v => collectRefFromProxy idx (ARequestBody v)) (RequestBodies c) refSet in
  let refSet := collectMap (fun v => collectRefFromProxy idx (AResponse v)) (CResponses c) refSet in
  let refSet := collectMap (fun v => collectRefFromProxy idx (AHeader v)) (Headers c) refSet in
  collectMap (collectComponentSchema idx) (Schemas c) refSet.

(** The set [findOperationRefs] has built when it sorts it; [None] is the
    early return on a document without paths. *)
Definition operationRefSet (idx : Index) (model : Document) : option (gset string) :=
  match DPaths model with
  | Some {| PathItems := Some items |} =>
      let refSet := foldl (fun rs kv => collectPathItem idx (snd kv) rs) ∅ items in
      Some
        match DComponents model with
        | Some c => collectComponents idx c refSet
        | None => refSet
        end
  | _ => None
  end.

(** [findOperationRefs]. *)
Definition findOperationRefs (idx : Index) (model : Document) : list string :=
  match operationRefSet idx model with
  | Some refSet => Sort (elements refSet)
  | None => []
  end.

(** *** Deleting orphans *)

(** The body of the loop over the keys of a component map: delete the
    entry and count it when its reference is not in [refs]. *)
Definition orphanStep {V} (prefix : string) (refs : list string)
    : nat * OrderedMap V -> string -> nat * OrderedMap V :=
  fun '(countRemoved, om) key =>
    let ref := prefix +:+ key in
    if Contains refs ref then (countRemoved, om)
    else (S countRemoved, Delete key om).

(** One of the five blocks of [removeOrphanedComponents]: a snapshot of
    the keys ([getComponentKeys]), then the loop over it. *)
Definition removeOrphans {V} (prefix : string) (refs : list string)
    (m : option (OrderedMap V)) (countRemoved : nat)
    : nat * option (OrderedMap V) :=
  match m with
  | None => (countRemoved, None)
  | Some om =>
      let '(n, om') :=
        foldl (orphanStep prefix refs) (countRemoved, om) (KeysFromOldest om) in
      (n, Some om')
  end.

Definition removeOrphanedComponents (model : Document) (refs : list string)
    : nat * Document :=
  match DComponents model with
  | None => (0, model)
  | Some c =>
      let countRemoved := 0 in
      let '(countRemoved, schemas) :=
        removeOrphans "#/components/schemas/" refs (Schemas c) countRemoved in
      let '(countRemoved, parameters) :=
        removeOrphans "#/components/parameters/" refs (Parameters c) countRemoved in
      let '(countRemoved, requestBodies) :=
        removeOrphans "#/components/requestBodies/" refs (RequestBodies c) countRemoved in
      let '(countRemoved, responses) :=
        removeOrphans "#/components/responses/" refs (CResponses c) countRemoved in
      let '(countRemoved, headers) :=
        removeOrphans "#/components/headers/" refs (Headers c) countRemoved in
      (countRemoved,
       {| Webhooks := Webhooks model;
          DPaths := DPaths model;
          DComponents := Some
            {| Schemas := schemas;
               Parameters := parameters;
               RequestBodies := requestBodies;
               CResponses := responses;
               Headers := headers;
               SecuritySchemes := SecuritySchemes c;
               Callbacks := Callbacks c;
               Examples := Examples c;
               Links := Links c |} |})
  end.

(** *** The pruning loop *)

Definition maxIterations : nat := 1000.

Definition errMaxIterations : error :=
  "pruning exceeded maximum iterations (" +:+ fmt_d maxIterations
    +:+ "), possible infinite loop".

(** The statements of [pruneSchema] before its loop. *)
Definition dropUngenerated (model : Document) : Document :=
  {| Webhooks := None;
     DPaths := DPaths model;
     DComponents :=
       match DComponents model with
       | Some c =>
           Some {| Schemas := Schemas c;
                   Parameters := Parameters c;
                   RequestBodies := RequestBodies c;
                   CResponses := CResponses c;
                   Headers := Headers c;
                   SecuritySchemes := None;
                   Callbacks := None;
                   Examples := None;
                   Links := None |}
       | None => None
       end |}.

(** The [for] loop of [pruneSchema], from the value [iteration] has when
    the body is entered.  The result is the model as the loop left it and
    the error returned; [None] means [fuel] loop entries were not enough. *)
Fixpoint pruneLoop (idx : Index) (fuel : nat) (iteration : nat) (model : Document)
    : option (Document * option error) :=
  match fuel with
  | 0 => None
  | S fuel' =>
      let iteration := iteration + 1 in
      if (maxIterations <? iteration)%nat then Some (model, Some errMaxIterations)
      else
        let refs := findOperationRefs idx model in
        let '(countRemoved, model) := removeOrphanedComponents model refs in
        if (countRemoved <? 1)%nat then Some (model, None)
        else pruneLoop idx fuel' iteration model
  end.

(** [pruneSchema]: the document with its cached model as pruning left it,
    and the error returned. *)
Definition pruneSchema (doc : LibDocument) : option (LibDocument * option error) :=
  match BuildV3Model doc with
  | inl err => Some (doc, Some ("error building model: " +:+ err))
  | inr model =>
      match pruneLoop (docIndex doc) (S maxIterations) 0 (dropUngenerated model) with
      | Some (model', err) =>
          Some ({| docIndex := docIndex doc; BuildV3Model := inr model' |}, err)
      | None => None
      end
  end.

(** *** One iteration of the loop, and what it is measured against *)

(** What one iteration deletes, and the model it leaves. *)
Definition removedCount (idx : Index) (model : Document) : nat :=
  fst (removeOrphanedComponents model (findOperationRefs idx model)).

Definition pruneStep (idx : Index) (model : Document) : Document :=
  snd (removeOrphanedComponents model (findOperationRefs idx model)).

(** The model after [n] iterations. *)
Definition pruneIter (idx : Index) (n : nat) (model : Document) : Document :=
  Nat.iter n (pruneStep idx) model.

(** The five kinds of named component the pruner deletes. *)
Inductive Kind : Type := KSchema | KParameter | KRequestBody | KResponse | KHeader.

Definition kindPrefix (k : Kind) : string :=
  match k with
  | KSchema => "#/components/schemas/"
  | KParameter => "#/components/parameters/"
  | KRequestBody => "#/components/requestBodies/"
  | KResponse => "#/components/responses/"
  | KHeader => "#/components/headers/"
  end.

(** A component's own reference. *)
Definition componentRef (k : Kind) (key : string) : string := kindPrefix k +:+ key.

Definition optKeys {V} (m : option (OrderedMap V)) : list string :=
  match m with Some om => KeysFromOldest om | None => [] end.

(** The names of the components of a kind that are in the model. *)
Definition componentKeys (k : Kind) (model : Document) : list string :=
  match DComponents model with
  | None => []
  | Some c =>
      match k with
      | KSchema => optKeys (Schemas c)
      | KParameter => optKeys (Parameters c)
      | KRequestBody => optKeys (RequestBodies c)
      | KResponse => optKeys (CResponses c)
      | KHeader => optKeys (Headers c)
      end
  end.

(** An entry survives the loop over its map when its reference is in [refs]. *)
Definition kept {V} (prefix : string) (refs : list string) (kv : string * V) : bool :=
  Contains refs (prefix +:+ fst kv).

(** The entries a map loses and keeps in one iteration. *)
Definition orphanCount {V} (prefix : string) (refs : list string)
    (m : option (OrderedMap V)) : nat :=
  match m with
  | Some om => length (List.filter (fun kv => negb (kept prefix refs kv)) om)
  | None => 0
  end.

Definition keepMap {V} (prefix : string) (refs : list string)
    (m : option (OrderedMap V)) : option (OrderedMap V) :=
  List.filter (kept prefix refs) <$> m.

(** *** Measures of the termination argument *)

(** The child proxies of a schema, in the order the collector meets them. *)
Definition children (s : Schema) : list SchemaProxy :=
  match sProperties s with Some m => m.*2 | None => [] end
  ++ match sItems s with Some (DynA p) => [p] | _ => [] end
  ++ match sAdditionalProperties s with Some (DynA p) => [p] | _ => [] end
  ++ sAllOf s ++ sOneOf s ++ sAnyOf s ++ [sNot s].

(** References of the index that are not recorded yet. *)
Definition unrecorded (idx : Index) (refSet : gset string) : nat :=
  size (dom idx ∖ refSet).

(** The recursion depth a call can still need: the inline part of the
    schema in hand, and a whole schema of the index for every reference
    that is not recorded yet. *)
Definition need (idx : Index) (s : option Schema) (refSet : gset string) : nat :=
  optHeight s + unrecorded idx refSet * maxHeight idx.

(** A recursive call only adds to the set. *)
Definition extensive (rec : option Schema -> gset string -> option (gset string)) : Prop :=
  forall s rs rs', rec s rs = Some rs' -> rs ⊆ rs'.

(** [rec'] returns whatever [rec] returns. *)
Definition refines (rec rec' : option Schema -> gset string -> option (gset string)) : Prop :=
  forall s rs r, rec s rs = Some r -> rec' s rs = Some r.

(** *** Reachability, in the words of the design document

    "Transitively reachable from a surviving operation": a reference is
    reachable when an operation mentions it (in its path-level parameters,
    request body, parameters or responses), or when what a reachable
    reference names mentions it; a reference into a property of a named
    schema makes the owning schema reachable.  This is the specification
    the collector is compared with; it is not read off the collector. *)

Definition refOf (r : string) : list string :=
  if decide (r = "") then [] else [r].

Section Mentions.
Variable m : Schema -> list string.

Definition proxyMentions (p : SchemaProxy) : list string :=
  match p with
  | ProxyNil => []
  | ProxyInline c => m c
  | ProxyRef r => refOf r
  end.

Fixpoint listMentions (l : list SchemaProxy) : list string :=
  match l with
  | [] => []
  | p :: l' => proxyMentions p ++ listMentions l'
  end.

Fixpoint mapMentions (l : OrderedMap SchemaProxy) : list string :=
  match l with
  | [] => []
  | (_, p) :: l' => proxyMentions p ++ mapMentions l'
  end.

Definition dynMentions (d : option (DynamicValue SchemaProxy bool)) : list string :=
  match d with
  | Some (DynA p) => proxyMentions p
  | _ => []
  end.
End Mentions.

(** Every reference written in a schema, at any inline depth. *)
Fixpoint mentions (s : Schema) : list string :=
  refOf (sReference s)
  ++ match sProperties s with Some m => mapMentions mentions m | None => [] end
  ++ dynMentions mentions (sItems s)
  ++ dynMentions mentions (sAdditionalProperties s)
  ++ listMentions mentions (sAllOf s)
  ++ listMentions mentions (sOneOf s)
  ++ listMentions mentions (sAnyOf s)
  ++ proxyMentions mentions (sNot s).

Definition contentMentions (c : Content) : list string :=
  match c with
  | Some m => flat_map (fun kv => proxyMentions mentions (mtSchema (snd kv))) m
  | None => []
  end.

Definition headerMentions (v : Header) : list string :=
  refOf (hReference v) ++ proxyMentions mentions (hSchema v) ++ contentMentions (hContent v).

Definition paramMentions (v : Param) : list string :=
  refOf (pReference v) ++ proxyMentions mentions (pSchema v) ++ contentMentions (pContent v).

Definition bodyMentions (v : RequestBody) : list string :=
  refOf (rbReference v) ++ contentMentions (rbContent v).

Definition responseMentions (v : Response) : list string :=
  refOf (rReference v) ++ contentMentions (rContent v)
  ++ match rHeaders v with
     | Some hs => flat_map (fun kv => headerMentions (snd kv)) hs
     | None => []
     end.

Definition operationMentions (op : Operation) : list string :=
  match opRequestBody op with Some b => bodyMentions b | None => [] end
  ++ flat_map paramMentions (opParameters op)
  ++ match opResponses op with
     | Some rs =>
         match Default rs with Some d => responseMentions d | None => [] end
         ++ flat_map (fun kv => responseMentions (snd kv)) (Codes rs)
     | None => []
     end.

Definition pathItemMentions (item : PathItem) : list string :=
  flat_map paramMentions (piParameters item)
  ++ flat_map (fun kv => operationMentions (snd kv)) (piOperations item).

(** What the operations of the model mention. *)
Definition operationsMention (model : Document) : list string :=
  match DPaths model with
  | Some {| PathItems := Some items |} => flat_map (fun kv => pathItemMentions (snd kv)) items
  | _ => []
  end.

(** What the component of the table that [r] names mentions. *)
Definition namedMentions {V} (prefix : string) (f : V -> list string)
    (table : option (OrderedMap V)) (r : string) : list string :=
  match table with
  | Some om => flat_map (fun kv => if String.eqb (prefix +:+ fst kv) r then f (snd kv) else []) om
  | None => []
  end.

(** What the thing [r] names mentions: the schema it resolves to, and
    the component of that name in the model. *)
Definition targetMentions (idx : Index) (model : Document) (r : string) : list string :=
  match SchemaOf idx (ProxyRef r) with Some t => mentions t | None => [] end
  ++ match DComponents model with
     | Some c =>
         namedMentions (kindPrefix KSchema) (proxyMentions mentions) (Schemas c) r
         ++ namedMentions (kindPrefix KParameter) paramMentions (Parameters c) r
         ++ namedMentions (kindPrefix KRequestBody) bodyMentions (RequestBodies c) r
         ++ namedMentions (kindPrefix KResponse) responseMentions (CResponses c) r
         ++ namedMentions (kindPrefix KHeader) headerMentions (Headers c) r
     | None => []
     end.

Inductive Reachable (idx : Index) (model : Document) : string -> Prop :=
| reach_operation r :
    r ∈ operationsMention model -> Reachable idx model r
| reach_target r r' :
    Reachable idx model r -> r' ∈ targetMentions idx model r -> Reachable idx model r'
| reach_parent r n :
    Reachable idx model r -> String.index 0 "/properties/" r = Some n ->
    Reachable idx model (String.substring 0 n r).

(** The invariant as the design document words it: once pruning has
    returned without error, every component left is reachable from a
    surviving operation, and no component reachable from one is gone. *)
Definition prunedExactly (doc : LibDocument) : Prop :=
  forall doc' m0 m',
    pruneSchema doc = Some (doc', None) ->
    BuildV3Model doc = inr m0 -> BuildV3Model doc' = inr m' ->
    (forall k key, key ∈ componentKeys k m' ->
       Reachable (docIndex doc) m' (componentRef k key))
    /\ (forall k key, key ∈ componentKeys k m0 ->
       Reachable (docIndex doc) m0 (componentRef k key) ->
       key ∈ componentKeys k m').

(** *** References written directly on an operation

    The references the collector records without walking a schema: the own
    reference of a parameter, request body, response or header, and the
    reference of the schema proxy of one of them. *)

Definition proxyDirect (p : SchemaProxy) : list string := refOf (GetReference p).

Definition contentDirect (c : Content) : list string :=
  match c with
  | Some m => flat_map (fun kv => proxyDirect (mtSchema (snd kv))) m
  | None => []
  end.

Definition headerDirect (v : Header) : list string :=
  refOf (hReference v) ++ proxyDirect (hSchema v) ++ contentDirect (hContent v).

Definition anyDirect (proxy : AnyProxy) : list string :=
  match proxy with
  | AParameter v => refOf (pReference v) ++ proxyDirect (pSchema v) ++ contentDirect (pContent v)
  | ARequestBody v => refOf (rbReference v) ++ contentDirect (rbContent v)
  | AResponse v =>
      refOf (rReference v) ++ contentDirect (rContent v)
      ++ match rHeaders v with
         | Some hs => flat_map (fun kv => headerDirect (snd kv)) hs
         | None => []
         end
  | AHeader v => headerDirect v
  end.

Definition operationDirect (op : Operation) : list string :=
  match opRequestBody op with Some b => anyDirect (ARequestBody b) | None => [] end
  ++ flat_map (fun param => anyDirect (AParameter param)) (opParameters op)
  ++ match opResponses op with
     | Some rs =>
         match Default rs with Some d => anyDirect (AResponse d) | None => [] end
         ++ flat_map (fun kv => anyDirect (AResponse (snd kv))) (Codes rs)
     | None => []
     end.

Definition pathItemDirect (item : PathItem) : list string :=
  flat_map (fun param => anyDirect (AParameter param)) (piParameters item)
  ++ flat_map (fun kv => operationDirect (snd kv)) (piOperations item).

Definition operationsDirect (model : Document) : list string :=
  match DPaths model with
  | Some {| PathItems := Some items |} => flat_map (fun kv => pathItemDirect (snd kv)) items
  | _ => []
  end.

(** A step of the collector that only adds to the set and records [D]. *)
Definition records (f : gset string -> gset string) (D : list string) : Prop :=
  forall rs, rs ⊆ f rs /\ forall r, r ∈ D -> r ∈ f rs.

(** *** The schema a call is left with when a branch returns early *)

(** The schema without what [collectSchemaRefs] reads after the items
    branch: additionalProperties and the composition keywords. *)
Definition eraseAfterItems (s : Schema) : Schema :=
  {| sReference := sReference s; sProperties := sProperties s; sItems := sItems s;
     sAdditionalProperties := None; sAllOf := []; sOneOf := []; sAnyOf := [];
     sNot := ProxyNil |}.

(** The schema without what is read after the additionalProperties
    branch: the composition keywords. *)
Definition eraseAfterAdditional (s : Schema) : Schema :=
  {| sReference := sReference s; sProperties := sProperties s; sItems := sItems s;
     sAdditionalProperties := sAdditionalProperties s;
     sAllOf := []; sOneOf := []; sAnyOf := []; sNot := ProxyNil |}.

(** *** Example documents *)

Definition leaf : Schema := mkSchema "" None None None [] [] [] ProxyNil.

(** A schema with a property that refers to the schema itself. *)
Definition selfA : Schema :=
  mkSchema "" (Some [("next", ProxyRef "#/components/schemas/A")]) None None [] [] []
    ProxyNil.

Definition onlySchemas (l : OrderedMap SchemaProxy) : Components :=
  {| Schemas := Some l; Parameters := None; RequestBodies := None; CResponses := None;
     Headers := None; SecuritySchemes := None; Callbacks := None; Examples := None;
     Links := None |}.

Definition ping : Operation :=
  {| opRequestBody := None; opParameters := []; opResponses := None |}.

(** One operation that uses no component, and a schema [A] that only
    refers to itself. *)
Definition cycleModel : Document :=
  {| Webhooks := None;
     DPaths := Some {| PathItems := Some
       [("/ping", {| piParameters := []; piOperations := [("get", ping)] |})] |};
     DComponents := Some (onlySchemas [("A", ProxyInline selfA)]) |}.

Definition cycleDoc : LibDocument :=
  {| docIndex := {[ "#/components/schemas/A" := selfA ]}; BuildV3Model := inr cycleModel |}.

(** An inline array schema: its items are [A], and it is composed with
    [B] through allOf. *)
Definition itemsA : Schema :=
  mkSchema "" None (Some (DynA (ProxyRef "#/components/schemas/A"))) None
    [ProxyRef "#/components/schemas/B"] [] [] ProxyNil.

(** An operation with two parameters: the first of schema [A], the second
    of the inline schema [itemsA]. *)
Definition listOp : Operation :=
  {| opRequestBody := None;
     opParameters :=
       [ {| pReference := ""; pSchema := ProxyRef "#/components/schemas/A";
            pContent := None |};
         {| pReference := ""; pSchema := ProxyInline itemsA; pContent := None |} ];
     opResponses := None |}.

Definition skipModel : Document :=
  {| Webhooks := None;
     DPaths := Some {| PathItems := Some
       [("/list", {| piParameters := []; piOperations := [("get", listOp)] |})] |};
     DComponents := Some (onlySchemas [("A", ProxyInline leaf); ("B", ProxyInline leaf)]) |}.

Definition skipIndex : Index :=
  {[ "#/components/schemas/A" := leaf; "#/components/schemas/B" := leaf ]}.

Definition skipDoc : LibDocument :=
  {| docIndex := skipIndex; BuildV3Model := inr skipModel |}.

(** [skipModel] as pruning leaves it. *)
Definition skipPruned : Document :=
  {| Webhooks := None; DPaths := DPaths skipModel;
     DComponents := Some (onlySchemas [("A", ProxyInline leaf)]) |}.

(** A chain of header components: header [i], named by [i] letters, is a
    reference to header [i + 1]. *)
Fixpoint unary (n : nat) : string :=
  match n with
  | 0 => ""
  | S n' => "a" +:+ unary n'
  end.

Definition chainHeader (i : nat) : string * Header :=
  (unary i, {| hReference := componentRef KHeader (unary (S i));
               hSchema := ProxyNil; hContent := None |}).

(** The [n] headers of the chain from header [j] on. *)
Fixpoint headerChain (n j : nat) : OrderedMap Header :=
  match n with
  | 0 => []
  | S n' => chainHeader j :: headerChain n' (S j)
  end.

Definition chainModel (n j : nat) : Document :=
  {| Webhooks := None;
     DPaths := Some {| PathItems := Some [] |};
     DComponents := Some
       {| Schemas := None; Parameters := None; RequestBodies := None; CResponses := None;
          Headers := Some (headerChain n j);
          SecuritySchemes := None; Callbacks := None; Examples := None; Links := None |} |}.

(** A document whose components are a chain of [maxIterations + 1]
    headers, none of them used by an operation. *)
Definition chainDoc : LibDocument :=
  {| docIndex := ∅; BuildV3Model := inr (chainModel (S maxIterations) 0) |}.

End Prune.

(** ** The filter engine ([pkg/codegen/filter.go]) *)
Module Filter.
Import Go.

(** A Go slice of strings: [None] is the nil slice, [Some []] an empty
    slice that is not nil.  [len] and [slices.Contains] do not tell them
    apart; a comparison with [nil] does. *)
Definition Slice := option (list string).

Definition len (s : Slice) : nat :=
  match s with Some l => length l | None => 0 end.

Definition isNil (s : Slice) : bool :=
  match s with Some _ => false | None => true end.

Definition sliceContains (s : Slice) (v : string) : bool :=
  match s with Some l => Contains l v | None => false end.

(** [FilterParamsConfig], with the axes the filter reads. *)
Record FilterParamsConfig := {
  Paths : Slice;
  Tags : Slice;
  OperationIDs : Slice;
  SchemaProperties : gmap string (list string)
}.

Record FilterConfig := {
  Include : FilterParamsConfig;
  Exclude : FilterParamsConfig
}.

(** Modelled from the spec: [FilterParamsConfig.isEmpty] is not among the
    sources; "entirely empty" is every axis having no element. *)
Definition isEmpty (o : FilterParamsConfig) : bool :=
  (len (Paths o) =? 0)%nat && (len (Tags o) =? 0)%nat
  && (len (OperationIDs o) =? 0)%nat && (size (SchemaProperties o) =? 0)%nat.

Record Operation := {
  opTags : list string;
  OperationId : string
}.

(** [v3high.PathItem]: one slot per method, nil when the method is absent. *)
Record PathItem := {
  Get : option Operation;
  Put : option Operation;
  Post : option Operation;
  PDelete : option Operation;
  Options : option Operation;
  Head : option Operation;
  Patch : option Operation;
  Trace : option Operation
}.

(** [pathItem.GetOperations()]: the methods present, by name.  The loop
    over it treats each method on its own, so their order is immaterial. *)
Definition GetOperations (p : PathItem) : OrderedMap Operation :=
  let slot (name : string) (o : option Operation) :=
    match o with Some op => [(name, op)] | None => [] end in
  (slot "get" (Get p) ++ slot "put" (Put p) ++ slot "post" (Post p)
   ++ slot "delete" (PDelete p) ++ slot "options" (Options p)
   ++ slot "head" (Head p) ++ slot "patch" (Patch p) ++ slot "trace" (Trace p))%list.

(** [*base.Schema] as property filtering sees it. *)
Record Schema := {
  Properties : option (OrderedMap Prune.SchemaProxy);
  Required : list string
}.

(** A component schema proxy with the schema [Schema()] returns for it;
    the deletions are made in that schema. *)
Record SchemaProxy := { SchemaOf : option Schema }.

Record Components := { Schemas : option (OrderedMap SchemaProxy) }.

(** [v3high.Document] as the filter reads it.  [PathItems] is
    [model.Paths.PathItems]; it is [None] when [model.Paths] is nil, as for
    a document without a paths object (a paths object comes from the parser
    with its map). *)
Record Document := {
  PathItems : option (OrderedMap PathItem);
  DComponents : option Components
}.

(** The operation-level test of [filterOperations]: the value of
    [remove] after the tag and operation-id rules. *)
Definition shouldRemove (cfg : FilterConfig) (op : Operation) : bool :=
  let remove := existsb (fun tag => sliceContains (Tags (Exclude cfg)) tag) (opTags op) in
  let remove :=
    if negb remove && (0 <? len (Tags (Include cfg)))%nat then
      let includeMatch :=
        existsb (fun tag => sliceContains (Tags (Include cfg)) tag) (opTags op) in
      if negb includeMatch then true else remove
    else remove in
  let remove :=
    if negb (isNil (OperationIDs (Exclude cfg)))
       && sliceContains (OperationIDs (Exclude cfg)) (OperationId op)
    then true else remove in
  let remove :=
    if negb (isNil (OperationIDs (Include cfg)))
       && negb (sliceContains (OperationIDs (Include cfg)) (OperationId op))
    then true else remove in
  remove.

(** The [switch method] that detaches one operation. *)
Definition clearMethod (method : string) (p : PathItem) : PathItem :=
  let keep (name : string) (o : option Operation) :=
    if String.eqb method name then None else o in
  {| Get := keep "get" (Get p);
     Put := keep "put" (Put p);
     Post := keep "post" (Post p);
     PDelete := keep "delete" (PDelete p);
     Options := keep "options" (Options p);
     Head := keep "head" (Head p);
     Patch := keep "patch" (Patch p);
     Trace := keep "trace" (Trace p) |}.

(** The inner loop of [filterOperations] over the operations of a path. *)
Definition filterPathItem (cfg : FilterConfig) (pathItem : PathItem) : PathItem :=
  foldl (fun item '(method, op) =>
           if shouldRemove cfg op then clearMethod method item else item)
    pathItem (GetOperations pathItem).

(** The path-level test: is the whole path deleted? *)
Definition pathDeleted (cfg : FilterConfig) (path : string) : bool :=
  (negb (isNil (Paths (Include cfg))) && negb (sliceContains (Paths (Include cfg)) path))
  || (negb (isNil (Paths (Exclude cfg))) && sliceContains (Paths (Exclude cfg)) path).

(** The path item in hand is changed in place: the entry of [path] holds
    the path item as the inner loop left it. *)
Definition setPathItem (path : string) (pathItem : PathItem)
    (items : OrderedMap PathItem) : OrderedMap PathItem :=
  (fun kv => if String.eqb (fst kv) path then (fst kv, pathItem) else kv) <$> items.

(** The loop of [filterOperations] over [PathItems.FromOldest()], with
    [entries] the entries still to come and [items] the map.  The iterator
    goes from the entry in hand to the entry linked after it, and [Delete]
    unlinks the entry in hand: the loop ends with its first [Delete], and
    the entries after it are neither deleted nor filtered. *)
Fixpoint pathLoop (cfg : FilterConfig) (entries : list (string * PathItem))
    (items : OrderedMap PathItem) : OrderedMap PathItem :=
  match entries with
  | [] => items
  | (path, pathItem) :: rest =>
      if pathDeleted cfg path then Delete path items
      else pathLoop cfg rest (setPathItem path (filterPathItem cfg pathItem) items)
  end.

(** [filterOperations]; [None] is the nil dereference of [model.Paths] on
    a model without paths. *)
Definition filterOperations (model : Document) (cfg : FilterConfig) : option Document :=
  match PathItems model with
  | None => None
  | Some items =>
      Some {| PathItems := Some (pathLoop cfg items items);
              DComponents := DComponents model |}
  end.

(** The loop over the copied keys of one schema's properties. *)
Definition filterProperties (includeMode excludeMode : bool) (filteredProps : list string)
    (required : list string) (props : OrderedMap Prune.SchemaProxy)
    : OrderedMap Prune.SchemaProxy :=
  foldl (fun (props : OrderedMap Prune.SchemaProxy) propName =>
           if Contains required propName then props
           else
             let props :=
               if includeMode && negb (Contains filteredProps propName)
               then Delete propName props else props in
             if excludeMode && Contains filteredProps propName
             then Delete propName props else props)
    props (KeysFromOldest props).

(** The body of the loop of [filterComponentSchemaProperties] over the
    component schemas. *)
Definition filterSchemaProxy (includeMode excludeMode : bool)
    (propsFilter : gmap string (list string)) (schemaName : string)
    (schemaProxy : SchemaProxy) : SchemaProxy :=
  match propsFilter !! schemaName with
  | None => schemaProxy
  | Some filteredProps =>
      match SchemaOf schemaProxy with
      | Some {| Properties := Some props; Required := required |} =>
          {| SchemaOf := Some
               {| Properties :=
                    Some (filterProperties includeMode excludeMode filteredProps required props);
                  Required := required |} |}
      | _ => schemaProxy
      end
  end.

Definition filterComponentSchemaProperties (model : Document) (cfg : FilterConfig)
    : Document :=
  match DComponents model with
  | Some {| Schemas := Some schemas |} =>
      let includeMode := (0 <? size (SchemaProperties (Include cfg)))%nat in
      let excludeMode := (0 <? size (SchemaProperties (Exclude cfg)))%nat in
      if includeMode || excludeMode then
        let propsFilter :=
          if includeMode then SchemaProperties (Include cfg)
          else SchemaProperties (Exclude cfg) in
        {| PathItems := PathItems model;
           DComponents := Some
             {| Schemas := Some
                  ((fun kv => (fst kv,
                      filterSchemaProxy includeMode excludeMode propsFilter (fst kv) (snd kv)))
                   <$> schemas) |} |}
      else model
  | _ => model
  end.

(** [filterOutDocument], up to the reload of the mutated model, which is
    the document parser's. *)
Definition filterOutDocument (model : Document) (cfg : FilterConfig) : option Document :=
  if isEmpty (Include cfg) && isEmpty (Exclude cfg) then Some model
  else
    match filterOperations model cfg with
    | Some model => Some (filterComponentSchemaProperties model cfg)
    | None => None
    end.

(** *** Example documents and configurations *)

Definition noFilter : FilterParamsConfig :=
  {| Paths := None; Tags := None; OperationIDs := None; SchemaProperties := ∅ |}.

Definition getOnly (op : option Operation) : PathItem :=
  {| Get := op; Put := None; Post := None; PDelete := None; Options := None;
     Head := None; Patch := None; Trace := None |}.

Definition catOp : Operation := {| opTags := ["cat"]; OperationId := "getCatStatus" |}.

(** One path, [/cat], with one operation tagged [cat]. *)
Definition catModel : Document :=
  {| PathItems := Some [("/cat", getOnly (Some catOp))]; DComponents := None |}.

(** Include the tag [cat]; [Include.Paths] is an empty slice that is not
    nil, as [paths: []] in a configuration file gives. *)
Definition emptyPathsCfg : FilterConfig :=
  {| Include := {| Paths := Some []; Tags := Some ["cat"]; OperationIDs := None;
                   SchemaProperties := ∅ |};
     Exclude := noFilter |}.

(** The same with [Include.OperationIDs] empty and not nil. *)
Definition emptyIdsCfg : FilterConfig :=
  {| Include := {| Paths := None; Tags := Some ["cat"]; OperationIDs := Some [];
                   SchemaProperties := ∅ |};
     Exclude := noFilter |}.

(** The same with both slices nil. *)
Definition nilAxesCfg : FilterConfig :=
  {| Include := {| Paths := None; Tags := Some ["cat"]; OperationIDs := None;
                   SchemaProperties := ∅ |};
     Exclude := noFilter |}.

(** A schema [Pet] with properties [x] and [y], [x] being required, and a
    configuration that excludes both. *)
Definition petProps : OrderedMap Prune.SchemaProxy :=
  [("x", Prune.ProxyInline Prune.leaf); ("y", Prune.ProxyInline Prune.leaf)].

Definition petSchema : Schema := {| Properties := Some petProps; Required := ["x"] |}.

Definition petModel : Document :=
  {| PathItems := Some [];
     DComponents := Some {| Schemas := Some [("Pet", {| SchemaOf := Some petSchema |})] |} |}.

Definition excludePetProps : FilterConfig :=
  {| Include := noFilter;
     Exclude := {| Paths := None; Tags := None; OperationIDs := None;
                   SchemaProperties := {[ "Pet" := ["x"; "y"] ]} |} |}.

End Filter.

(** ** The union synthesizer ([generateUnion]) *)
Module Union.
Import Go.

(** [*base.Schema] as the synthesizer reads it: its [type] list. *)
Record Schema := { Type_ : list string }.

(** [*base.SchemaProxy]: the reference its low-level proxy carries, the
    reference its own [GetReference()] reports, and what [Schema()]
    returns. *)
Record SchemaProxy := {
  GoLowReference : string;
  Reference : string;
  SchemaOf : option Schema
}.

(** [*base.Discriminator], its mapping going from value to reference. *)
Record BaseDiscriminator := {
  PropertyName : string;
  BMapping : OrderedMap string
}.

(** The discriminator of a generated schema. *)
Record Discriminator := {
  Property : string;
  Mapping : gmap string string
}.

(** [GoSchema] and [TypeDefinition], with the fields the synthesizer
    reads or writes; [Nullable] is [Constraints.Nullable]. *)
#[warnings="-register-all"]
Inductive GoSchema : Type := mkGoSchema {
  GoType : string;
  GDiscriminator : option Discriminator;
  UnionElements : list string;
  AdditionalTypes : list TypeDefinition;
  Nullable : option bool
}
with TypeDefinition : Type := mkTypeDefinition {
  tdSchema : GoSchema;
  Name : string;
  SpecLocation : string;
  JsonName : string;
  NeedsMarshaler : bool
}.

(** [GoSchema{}]. *)
Definition zeroGoSchema : GoSchema :=
  {| GoType := ""; GDiscriminator := None; UnionElements := [];
     AdditionalTypes := []; Nullable := None |}.

Definition SpecLocationUnion : string := "union".

Definition primitives : list string :=
  ["string"; "int"; "int8"; "int16"; "int32"; "int64"; "uint"; "uint8";
   "uint16"; "uint32"; "uint64"; "float"; "float32"; "float64"; "bool"].

(** [deduplicateUnionElements]: [seen] as the list of names met so far. *)
Fixpoint dedupFrom (seen : list string) (elements : list string) : list string :=
  match elements with
  | [] => []
  | elem :: rest =>
      if Contains seen elem then dedupFrom seen rest
      else elem :: dedupFrom (elem :: seen) rest
  end.

Definition deduplicateUnionElements (elements : list string) : list string :=
  dedupFrom [] elements.

(** The loop that drops nil members, members without a schema and null
    members: the members kept, and [hasNull]. *)
Fixpoint filterNull (elements : list (option SchemaProxy)) : list SchemaProxy * bool :=
  match elements with
  | [] => ([], false)
  | element :: rest =>
      let '(nonNullElements, hasNull) := filterNull rest in
      match element with
      | None => (nonNullElements, hasNull)
      | Some e =>
          match SchemaOf e with
          | None => (nonNullElements, hasNull)
          | Some schema =>
              if (length (Type_ schema) =? 1)%nat && Contains (Type_ schema) "null"
              then (nonNullElements, true)
              else (e :: nonNullElements, hasNull)
          end
      end
  end.

(** "Exactly the null type", in the words of the design document. *)
Definition isNullType (element : option SchemaProxy) : bool :=
  match element with
  | Some {| SchemaOf := Some {| Type_ := [t] |} |} => String.eqb t "null"
  | _ => false
  end.

(** What [generateUnion] takes from the rest of the generator, which is
    not among the sources: the properties below hold for every instance. *)
Class Generator := {
  ParseOptions : Type;
  path : ParseOptions -> list string;
  WithReference : ParseOptions -> string -> ParseOptions;
  WithPath : ParseOptions -> list string -> ParseOptions;
  (** the type tracker behind [options], which [AddType] writes to *)
  Registry : Type;
  AddType : TypeDefinition -> Registry -> Registry;
  (** [GenerateGoSchema] returns a schema and an error, and may register
      types of its own *)
  GenerateGoSchema :
    SchemaProxy -> ParseOptions -> Registry -> Registry * (GoSchema * option error);
  pathToTypeName : list string -> string;
  TypeDecl : GoSchema -> string;
  needsMarshaler : GoSchema -> bool;
  refPathToObjName : string -> string;
  ErrAmbiguousDiscriminatorMapping : error;
  ErrDiscriminatorNotAllMapped : error
}.

Section Synthesizer.
Context `{G : Generator}.

(** The explicit mapping: the first key whose reference is the
    member's. *)
Fixpoint explicitKey (mapping : OrderedMap string) (ref : string) : option string :=
  match mapping with
  | [] => None
  | (k, v) :: rest => if String.eqb v ref then Some k else explicitKey rest ref
  end.

(** The state of the member loop: the tracker and [outSchema]. *)
Record LoopState := {
  lsRegistry : Registry;
  lsOut : GoSchema
}.

Definition setGoType (s : GoSchema) (t : string) : GoSchema :=
  {| GoType := t; GDiscriminator := GDiscriminator s; UnionElements := UnionElements s;
     AdditionalTypes := AdditionalTypes s; Nullable := Nullable s |}.

Definition setNullable (s : GoSchema) (n : option bool) : GoSchema :=
  {| GoType := GoType s; GDiscriminator := GDiscriminator s;
     UnionElements := UnionElements s; AdditionalTypes := AdditionalTypes s;
     Nullable := n |}.

Definition addAdditionalTypes (s : GoSchema) (tds : list TypeDefinition) : GoSchema :=
  {| GoType := GoType s; GDiscriminator := GDiscriminator s;
     UnionElements := UnionElements s;
     AdditionalTypes := (AdditionalTypes s ++ tds)%list; Nullable := Nullable s |}.

Definition addUnionElement (s : GoSchema) (e : string) : GoSchema :=
  {| GoType := GoType s; GDiscriminator := GDiscriminator s;
     UnionElements := (UnionElements s ++ [e])%list;
     AdditionalTypes := AdditionalTypes s; Nullable := Nullable s |}.

Definition setUnionElements (s : GoSchema) (es : list string) : GoSchema :=
  {| GoType := GoType s; GDiscriminator := GDiscriminator s;
     UnionElements := es;
     AdditionalTypes := AdditionalTypes s; Nullable := Nullable s |}.

(** [outSchema.Discriminator.Mapping[k] = t]. *)
Definition mapTo (s : GoSchema) (k t : string) : GoSchema :=
  {| GoType := GoType s;
     GDiscriminator :=
       match GDiscriminator s with
       | Some d => Some {| Property := Property d; Mapping := <[k := t]> (Mapping d) |}
       | None => None
       end;
     UnionElements := UnionElements s;
     AdditionalTypes := AdditionalTypes s; Nullable := Nullable s |}.

(** "Define new types only for non-primitive types": the part of the
    loop body that names an inline member, giving the tracker,
    [outSchema] and [elementSchema] as it leaves them. *)
Definition nameMember (elementPath : list string) (ref : string) (reg : Registry)
    (outSchema elementSchema : GoSchema) : Registry * GoSchema * GoSchema :=
  if String.eqb ref "" && negb (Contains primitives (GoType elementSchema)) then
    let elementName := pathToTypeName elementPath in
    let '(reg, outSchema) :=
      if negb (String.eqb (TypeDecl elementSchema) elementName) then
        let td :=
          {| tdSchema := elementSchema;
             Name := elementName;
             SpecLocation := SpecLocationUnion;
             JsonName := "-";
             NeedsMarshaler := needsMarshaler elementSchema |} in
        (AddType td reg, addAdditionalTypes outSchema [td])
      else (reg, outSchema) in
    let elementSchema := setGoType elementSchema elementName in
    (reg, addAdditionalTypes outSchema (AdditionalTypes elementSchema), elementSchema)
  else (reg, outSchema, elementSchema).

(** The discriminator part of the loop body and the append to
    [UnionElements]; [inl] is the early return with an error. *)
Definition mapMember (discriminator : option BaseDiscriminator) (element : SchemaProxy)
    (reg : Registry) (outSchema elementSchema : GoSchema)
    : (Registry * error) + LoopState :=
  match discriminator with
  | Some d =>
      if negb (length (BMapping d) =? 0)%nat && String.eqb (Reference element) ""
      then inl (reg, ErrAmbiguousDiscriminatorMapping)
      else
        let key :=
          match explicitKey (BMapping d) (Reference element) with
          | Some k => k
          | None => refPathToObjName (Reference element)
          end in
        inr {| lsRegistry := reg;
               lsOut := addUnionElement (mapTo outSchema key (GoType elementSchema))
                          (GoType elementSchema) |}
  | None =>
      inr {| lsRegistry := reg;
             lsOut := addUnionElement outSchema (GoType elementSchema) |}
  end.

(** The options the loop body makes for member [i]. *)
Definition memberOptions (options : ParseOptions) (i : nat) (element : SchemaProxy)
    : ParseOptions :=
  let elementPath := (path options ++ [fmt_d i])%list in
  WithPath (WithReference options (GoLowReference element)) elementPath.

(** The body of the member loop for member [i]. *)
Definition unionStep (discriminator : option BaseDiscriminator) (options : ParseOptions)
    (st : LoopState) (i : nat) (element : SchemaProxy)
    : (Registry * error) + LoopState :=
  let elementPath := (path options ++ [fmt_d i])%list in
  let ref := GoLowReference element in
  let opts := memberOptions options i element in
  let '(reg, (elementSchema, err)) := GenerateGoSchema element opts (lsRegistry st) in
  match err with
  | Some e => inl (reg, e)
  | None =>
      let '(reg, outSchema, elementSchema) :=
        nameMember elementPath ref reg (lsOut st) elementSchema in
      mapMember discriminator element reg outSchema elementSchema
  end.

(** The member loop, from index [i]. *)
Fixpoint unionLoop (discriminator : option BaseDiscriminator) (options : ParseOptions)
    (st : LoopState) (i : nat) (elements : list SchemaProxy)
    : (Registry * error) + LoopState :=
  match elements with
  | [] => inr st
  | element :: rest =>
      match unionStep discriminator options st i element with
      | inl e => inl e
      | inr st' => unionLoop discriminator options st' (S i) rest
      end
  end.

(** [outSchema] as the member loop finds it. *)
Definition initialOut (discriminator : option BaseDiscriminator) : GoSchema :=
  {| GoType := "";
     GDiscriminator :=
       match discriminator with
       | Some d => Some {| Property := PropertyName d; Mapping := ∅ |}
       | None => None
       end;
     UnionElements := []; AdditionalTypes := []; Nullable := None |}.

Definition mappingSize (s : GoSchema) : option nat :=
  match GDiscriminator s with
  | Some d => Some (size (Mapping d))
  | None => None
  end.

(** [generateUnion]: the tracker, and the schema and error returned;
    [None] is the nil dereference on a single member that is nil. *)
Definition generateUnion (elements : list (option SchemaProxy))
    (discriminator : option BaseDiscriminator) (options : ParseOptions)
    (reg : Registry) : option (Registry * (GoSchema * option error)) :=
  match elements with
  | [None] => None
  | [Some e] =>
      Some (GenerateGoSchema e (WithReference options (GoLowReference e)) reg)
  | _ =>
      let '(nonNullElements, hasNull) := filterNull elements in
      match nonNullElements with
      | [e] =>
          let '(reg, (schema, err)) :=
            GenerateGoSchema e (WithReference options (GoLowReference e)) reg in
          match err with
          | Some err => Some (reg, (zeroGoSchema, Some err))
          | None =>
              Some (reg, (if hasNull then setNullable schema (Some true) else schema, None))
          end
      | _ =>
          match
            unionLoop discriminator options
              {| lsRegistry := reg; lsOut := initialOut discriminator |}
              0 nonNullElements
          with
          | inl (reg, err) => Some (reg, (zeroGoSchema, Some err))
          | inr st =>
              let outSchema :=
                setUnionElements (lsOut st)
                  (deduplicateUnionElements (UnionElements (lsOut st))) in
              match mappingSize outSchema with
              | Some n =>
                  if negb (n =? length nonNullElements)%nat
                  then Some (lsRegistry st, (zeroGoSchema, Some ErrDiscriminatorNotAllMapped))
                  else Some (lsRegistry st, (outSchema, None))
              | None => Some (lsRegistry st, (outSchema, None))
              end
          end
      end
  end.
End Synthesizer.

Section Statements.
Context `{G : Generator}.

(** [outSchema] still carries the discriminator it was given at the
    start, with some mapping. *)
Definition sameDiscriminatorHead (d : BaseDiscriminator) (s : GoSchema) : Prop :=
  exists m, GDiscriminator s = Some {| Property := PropertyName d; Mapping := m |}.

(** The members' own synthesis does not fail, whatever the tracker
    holds. *)
Definition membersSynthesize (elements : list SchemaProxy) : Prop :=
  forall e o r, e ∈ elements -> snd (snd (GenerateGoSchema e o r)) = None.

(** The error rule for members without a reference, as the design
    document words it: under a declared discriminator, a union of two or
    more non-null members with a member that has no reference is refused
    with the ambiguous-mapping error. *)
Definition refusesUnreferenced (elements : list (option SchemaProxy))
    (d : BaseDiscriminator) (options : ParseOptions) (reg : Registry) : Prop :=
  forall e,
    2 <= length (fst (filterNull elements)) ->
    e ∈ fst (filterNull elements) -> Reference e = "" ->
    exists reg',
      generateUnion elements (Some d) options reg
        = Some (reg', (zeroGoSchema, Some ErrAmbiguousDiscriminatorMapping)).
End Statements.

(** *** A small generator for the examples *)

(** Modelled from the spec: [refPathToObjName] is not among the sources; the
    implicit discriminator key is "derived from the member's own reference's
    final path segment", the text after the last [/]. *)
Fixpoint lastSegmentFrom (s acc : string) : string :=
  match s with
  | EmptyString => acc
  | String c s' =>
      if Ascii.eqb c (Ascii.ascii_of_nat 47) then lastSegmentFrom s' ""
      else lastSegmentFrom s' (acc +:+ String c EmptyString)
  end.

Definition lastSegment (s : string) : string := lastSegmentFrom s "".

(** Modelled from the spec: [GenerateGoSchema] is not among the sources.
    This stand-in, used by the examples only, gives a referenced member the
    last segment of its reference as type ("a member resolving to a named
    reference ... is referenced in place") and an inline member its first
    [type]; it never fails and registers nothing. *)
Definition demoGenerate (p : SchemaProxy) (o : list string) (r : list TypeDefinition)
    : list TypeDefinition * (GoSchema * option error) :=
  (r, ({| GoType :=
            if String.eqb (GoLowReference p) "" then
              match SchemaOf p with
              | Some {| Type_ := t :: _ |} => t
              | _ => "struct"
              end
            else lastSegment (GoLowReference p);
          GDiscriminator := None; UnionElements := []; AdditionalTypes := [];
          Nullable := None |}, None)).

(** Modelled from the spec: the helpers of the generator that [generateUnion]
    calls are not among the sources.  In this instance, used by the examples
    only, the options are the positional path, a type name is the path
    joined by [_], the tracker is the list of the types registered, and the
    two errors are told apart by their messages. *)
Definition demoGenerator : Generator :=
  {| ParseOptions := list string;
     path := fun o => o;
     WithReference := fun o _ => o;
     WithPath := fun _ p => p;
     Registry := list TypeDefinition;
     AddType := fun td r => (r ++ [td])%list;
     GenerateGoSchema := demoGenerate;
     pathToTypeName := String.concat "_";
     TypeDecl := GoType;
     needsMarshaler := fun _ => false;
     refPathToObjName := lastSegment;
     ErrAmbiguousDiscriminatorMapping :=
       "ambiguous discriminator.mapping: please replace inlined object with $ref";
     ErrDiscriminatorNotAllMapped := "discriminator: not all schemas were mapped" |}.

Definition refProxy (r : string) : SchemaProxy :=
  {| GoLowReference := r; Reference := r; SchemaOf := Some {| Type_ := ["object"] |} |}.

Definition inlineProxy (t : string) : SchemaProxy :=
  {| GoLowReference := ""; Reference := ""; SchemaOf := Some {| Type_ := [t] |} |}.

(** [anyOf: [string, null]]. *)
Definition stringOrNull : list (option SchemaProxy) :=
  [Some (inlineProxy "string"); Some (inlineProxy "null")].

(** A referenced member and an inline object. *)
Definition catOrInline : list (option SchemaProxy) :=
  [Some (refProxy "#/components/schemas/Cat"); Some (inlineProxy "object")].

Definition threePets : list (option SchemaProxy) :=
  [Some (refProxy "#/components/schemas/Cat"); Some (refProxy "#/components/schemas/Dog");
   Some (refProxy "#/components/schemas/Fox")].

(** A discriminator without an explicit mapping. *)
Definition implicitPet : BaseDiscriminator :=
  {| PropertyName := "petType"; BMapping := [] |}.

Definition explicitPet : BaseDiscriminator :=
  {| PropertyName := "petType"; BMapping := [("cat", "#/components/schemas/Cat")] |}.

Definition allThree : BaseDiscriminator :=
  {| PropertyName := "petType";
     BMapping := [("cat", "#/components/schemas/Cat"); ("dog", "#/components/schemas/Dog");
                  ("fox", "#/components/schemas/Fox")] |}.

(** A mapping whose key for [Dog] is the implicit key of [Fox]. *)
Definition foxForDog : BaseDiscriminator :=
  {| PropertyName := "petType";
     BMapping := [("cat", "#/components/schemas/Cat"); ("Fox", "#/components/schemas/Dog")] |}.

Definition proxiesOf (elements : list (option SchemaProxy)) : list SchemaProxy :=
  fst (filterNull elements).

(** The state the member loop of the stand-in ends in. *)
Definition loopStateOf (elements : list (option SchemaProxy)) (d : BaseDiscriminator)
    : LoopState (G := demoGenerator) :=
  match unionLoop (G := demoGenerator) (Some d) ["Pet"]
          (@Build_LoopState demoGenerator [] (initialOut (Some d)))
          0 (proxiesOf elements) with
  | inr st => st
  | inl _ => @Build_LoopState demoGenerator [] zeroGoSchema
  end.

End Union.

(** ** Measures and statements for the further properties of the pruner *)
Module PruneSupport.
Import Go Prune.
Local Open Scope list_scope.

(** The number of named components of the five kinds the pruner deletes. *)
Definition componentCount (model : Document) : nat :=
  length (componentKeys KSchema model) + length (componentKeys KParameter model)
  + length (componentKeys KRequestBody model) + length (componentKeys KResponse model)
  + length (componentKeys KHeader model).

(** [m'] is [m] with some entries deleted: the entries left are entries of
    [m] with their values, in the order of [m]; a nil map stays nil. *)
Definition keptIn {V} (m' m : option (OrderedMap V)) : Prop :=
  match m, m' with
  | Some om, Some om' => om' `sublist_of` om
  | None, None => True
  | _, _ => False
  end.

Definition componentsKeptIn (c' c : Components) : Prop :=
  keptIn (Schemas c') (Schemas c) /\ keptIn (Parameters c') (Parameters c)
  /\ keptIn (RequestBodies c') (RequestBodies c) /\ keptIn (CResponses c') (CResponses c)
  /\ keptIn (Headers c') (Headers c).

Definition modelKeptIn (m' m : Document) : Prop :=
  match DComponents m, DComponents m' with
  | Some c, Some c' => componentsKeptIn c' c
  | None, None => True
  | _, _ => False
  end.

(** Every reference written in the entries of a component table. *)
Definition tableMentions {V} (f : V -> list string) (table : option (OrderedMap V))
    : list string :=
  match table with
  | Some om => flat_map (fun kv => f (snd kv)) om
  | None => []
  end.

(** Every reference written in a component of the model. *)
Definition componentsMention (model : Document) : list string :=
  match DComponents model with
  | Some c =>
      tableMentions paramMentions (Parameters c)
      ++ tableMentions bodyMentions (RequestBodies c)
      ++ tableMentions responseMentions (CResponses c)
      ++ tableMentions headerMentions (Headers c)
      ++ tableMentions (proxyMentions mentions) (Schemas c)
  | None => []
  end.

(** A reference is written in the document when an operation or a
    component mentions it, when the schema a written reference resolves to
    mentions it, or when it is the schema that owns a written property
    reference. *)
Inductive Written (idx : Index) (model : Document) : string -> Prop :=
| written_operation r :
    r ∈ operationsMention model -> Written idx model r
| written_component r :
    r ∈ componentsMention model -> Written idx model r
| written_target r t r' :
    Written idx model r -> SchemaOf idx (ProxyRef r) = Some t -> r' ∈ mentions t ->
    Written idx model r'
| written_parent r n :
    Written idx model r -> String.index 0 "/properties/" r = Some n ->
    Written idx model (String.substring 0 n r).

(** Every reference of a set, or of a list, has the property [C]. *)
Definition good (C : string -> Prop) (rs : gset string) : Prop :=
  forall r, r ∈ rs -> C r.

Definition within (C : string -> Prop) (l : list string) : Prop :=
  forall r, r ∈ l -> C r.

(** A recursive call keeps [C] when what the schema mentions has it. *)
Definition sound (C : string -> Prop)
    (rec : option Schema -> gset string -> option (gset string)) : Prop :=
  forall s rs rs',
    within C (match s with Some t => mentions t | None => [] end) -> good C rs ->
    rec s rs = Some rs' -> good C rs'.

(** The references the first two loops of [collectSchemaRefs] meet on a
    schema that is not itself a reference: those of its properties and of
    its array items. *)
Definition schemaDirect (s : Schema) : list string :=
  if decide (sReference s = "") then
    match sProperties s with
    | Some m => flat_map (fun kv => proxyDirect (snd kv)) m
    | None => []
    end
    ++ match sItems s with
       | Some (DynA p) => proxyDirect p
       | _ => []
       end
  else [].

Definition componentSchemaDirect (p : SchemaProxy) : list string :=
  match p with
  | ProxyInline s => schemaDirect s
  | _ => []
  end.

(** The property and items references of the component schemas. *)
Definition componentsDirect (model : Document) : list string :=
  match DComponents model with
  | Some c =>
      match Schemas c with
      | Some m => flat_map (fun kv => componentSchemaDirect (snd kv)) m
      | None => []
      end
  | None => []
  end.

(** *** The cap, in the words of the design document

    "No partial output is produced": when pruning aborts with an error,
    the document's cached model, which is what the rest of the pipeline
    reads, is the one that was given. *)
Definition noPartialOutput (doc : LibDocument) : Prop :=
  forall doc' err,
    pruneSchema doc = Some (doc', Some err) -> BuildV3Model doc' = BuildV3Model doc.

(** *** References the collector follows on every walk

    [collectSchemaRefs] walks the properties of a schema first and its
    array items next, whatever the set holds.  It reaches
    additionalProperties only if the items site did not return, which is
    certain when the items are not a reference, and the composition keywords
    only if neither site returned.  A schema that has a reference of its own
    is walked only when that reference is new: the reference itself is in
    the set afterwards in both cases. *)

(** Does the branch hold a reference, on which the site may return? *)
Definition refBranch (d : option (DynamicValue SchemaProxy bool)) : bool :=
  match d with
  | Some (DynA (ProxyRef r)) => if decide (r = "") then false else true
  | _ => false
  end.

(** The references [collectSchemaRefs] has recorded when it returns from
    a schema, whatever set it was called with. *)
Fixpoint follows (s : Schema) : list string :=
  if decide (sReference s = "") then
    match sProperties s with Some m => mapMentions follows m | None => [] end
    ++ dynMentions follows (sItems s)
    ++ (if refBranch (sItems s) then []
        else
          dynMentions follows (sAdditionalProperties s)
          ++ (if refBranch (sAdditionalProperties s) then []
              else
                listMentions follows (sAllOf s)
                ++ listMentions follows (sOneOf s)
                ++ listMentions follows (sAnyOf s)
                ++ proxyMentions follows (sNot s)))
  else [sReference s].

(** What [collectSchemaProxy], and the body of the loop over the component
    schemas, record for a proxy: its own reference, and what is followed in
    the schema it resolves to. *)
Definition proxyFollows (idx : Index) (p : SchemaProxy) : list string :=
  refOf (GetReference p)
  ++ match SchemaOf idx p with Some t => follows t | None => [] end.

(** The references of a parameter, request body, response, header,
    operation or path item, [P] giving those of a schema proxy. *)
Section Over.
Variable P : SchemaProxy -> list string.

Definition contentOver (c : Content) : list string :=
  match c with
  | Some m => flat_map (fun kv => P (mtSchema (snd kv))) m
  | None => []
  end.

Definition headerOver (v : Header) : list string :=
  refOf (hReference v) ++ P (hSchema v) ++ contentOver (hContent v).

Definition anyOver (proxy : AnyProxy) : list string :=
  match proxy with
  | AParameter v => refOf (pReference v) ++ P (pSchema v) ++ contentOver (pContent v)
  | ARequestBody v => refOf (rbReference v) ++ contentOver (rbContent v)
  | AResponse v =>
      refOf (rReference v) ++ contentOver (rContent v)
      ++ match rHeaders v with
         | Some hs => flat_map (fun kv => headerOver (snd kv)) hs
         | None => []
         end
  | AHeader v => headerOver v
  end.

Definition operationOver (op : Operation) : list string :=
  match opRequestBody op with Some b => anyOver (ARequestBody b) | None => [] end
  ++ flat_map (fun param => anyOver (AParameter param)) (opParameters op)
  ++ match opResponses op with
     | Some rs =>
         match Default rs with Some d => anyOver (AResponse d) | None => [] end
         ++ flat_map (fun kv => anyOver (AResponse (snd kv))) (Codes rs)
     | None => []
     end.

Definition pathItemOver (item : PathItem) : list string :=
  flat_map (fun param => anyOver (AParameter param)) (piParameters item)
  ++ flat_map (fun kv => operationOver (snd kv)) (piOperations item).

(** Those of the operations of the model. *)
Definition operationsOver (model : Document) : list string :=
  match DPaths model with
  | Some {| PathItems := Some items |} => flat_map (fun kv => pathItemOver (snd kv)) items
  | _ => []
  end.

(** Those of the components of the model that [r] names. *)
Definition namedOver (model : Document) (r : string) : list string :=
  match DComponents model with
  | Some c =>
      namedMentions (kindPrefix KParameter) (fun v => anyOver (AParameter v)) (Parameters c) r
      ++ namedMentions (kindPrefix KRequestBody) (fun v => anyOver (ARequestBody v))
           (RequestBodies c) r
      ++ namedMentions (kindPrefix KResponse) (fun v => anyOver (AResponse v)) (CResponses c) r
      ++ namedMentions (kindPrefix KHeader) (fun v => anyOver (AHeader v)) (Headers c) r
      ++ namedMentions (kindPrefix KSchema) P (Schemas c) r
  | None => []
  end.

(** Those of all the components, in the order of the sweep of
    [findOperationRefs]. *)
Definition sweepOver (c : Components) : list string :=
  tableMentions (fun v => anyOver (AParameter v)) (Parameters c)
  ++ tableMentions (fun v => anyOver (ARequestBody v)) (RequestBodies c)
  ++ tableMentions (fun v => anyOver (AResponse v)) (CResponses c)
  ++ tableMentions (fun v => anyOver (AHeader v)) (Headers c)
  ++ tableMentions P (Schemas c).
End Over.

(** A reference is followed from an operation when the collector records
    it while walking the operations, or while walking a component that a
    followed reference names.  This is reachability from the operations
    along the references of [follows]. *)
Inductive Followed (idx : Index) (model : Document) : string -> Prop :=
| followed_operation r :
    r ∈ operationsOver (proxyFollows idx) model -> Followed idx model r
| followed_component r r' :
    Followed idx model r -> r' ∈ namedOver (proxyFollows idx) model r ->
    Followed idx model r'.

(** A set of references supports itself when each of them is followed
    from an operation, or from a component that a reference of the set
    names.  The references followed from an operation are such a set, and so
    is the reference of a component that refers to itself. *)
Definition supported (idx : Index) (model : Document) (S : string -> Prop) : Prop :=
  forall r, S r ->
    r ∈ operationsOver (proxyFollows idx) model
    \/ exists r0, S r0 /\ r ∈ namedOver (proxyFollows idx) model r0.

(** A recursive call that records what is followed in the schema it is
    given. *)
Definition follower (rec : option Schema -> gset string -> option (gset string)) : Prop :=
  forall s rs rs', rec (Some s) rs = Some rs' -> forall r, r ∈ follows s -> r ∈ rs'.

(** The set a visit leaves. *)
Definition visitSet (v : Visit) (rs : gset string) : gset string :=
  match v with Seen => rs | Walked rs' => rs' end.

(** *** Example documents *)

(** A document without paths, with one schema that refers to itself. *)
Definition noPathsModel : Document :=
  {| Webhooks := Some ["ping"]; DPaths := None;
     DComponents := Some (onlySchemas [("A", ProxyInline selfA)]) |}.

Definition noPathsDoc : LibDocument :=
  {| docIndex := {[ "#/components/schemas/A" := selfA ]}; BuildV3Model := inr noPathsModel |}.

(** A schema with a property of schema [B]. *)
Definition withB : Schema :=
  mkSchema "" (Some [("b", ProxyRef "#/components/schemas/B")]) None None [] [] []
    ProxyNil.

Definition linkOp : Operation :=
  {| opRequestBody := None;
     opParameters :=
       [ {| pReference := ""; pSchema := ProxyRef "#/components/schemas/A";
            pContent := None |} ];
     opResponses := None |}.

(** An operation uses [A], [A] has a property of schema [B], and nothing
    uses [C]. *)
Definition linkModel : Document :=
  {| Webhooks := None;
     DPaths := Some {| PathItems := Some
       [("/a", {| piParameters := []; piOperations := [("get", linkOp)] |})] |};
     DComponents := Some (onlySchemas
       [("A", ProxyInline withB); ("B", ProxyInline leaf); ("C", ProxyInline leaf)]) |}.

Definition linkDoc : LibDocument :=
  {| docIndex := {[ "#/components/schemas/A" := withB; "#/components/schemas/B" := leaf;
                    "#/components/schemas/C" := leaf ]};
     BuildV3Model := inr linkModel |}.

(** [linkModel] as pruning leaves it. *)
Definition linkPruned : Document :=
  {| Webhooks := None; DPaths := DPaths linkModel;
     DComponents := Some (onlySchemas
       [("A", ProxyInline withB); ("B", ProxyInline leaf)]) |}.

End PruneSupport.

(** ** Statements for the further properties of the filter engine *)
Module FilterSupport.
Import Go Filter.
Local Open Scope list_scope.

(** A slice holds a value; nothing is in the nil slice. *)
Definition inSlice (v : string) (s : Slice) : Prop :=
  match s with Some l => v ∈ l | None => False end.

(** What is left of a method slot: the operation, unless it is removed. *)
Definition keepOperation (cfg : FilterConfig) (o : option Operation) : option Operation :=
  match o with
  | Some op => if shouldRemove cfg op then None else Some op
  | None => None
  end.

(** A path item with each method slot decided on its own. *)
Definition keptOperations (cfg : FilterConfig) (p : PathItem) : PathItem :=
  {| Get := keepOperation cfg (Get p);
     Put := keepOperation cfg (Put p);
     Post := keepOperation cfg (Post p);
     PDelete := keepOperation cfg (PDelete p);
     Options := keepOperation cfg (Options p);
     Head := keepOperation cfg (Head p);
     Patch := keepOperation cfg (Patch p);
     Trace := keepOperation cfg (Trace p) |}.

(** Is the operation of a slot removed? *)
Definition removes (cfg : FilterConfig) (o : option Operation) : bool :=
  match o with Some op => shouldRemove cfg op | None => false end.

(** One turn of the loop over the operations, for the method of a slot. *)
Definition clearIf (cfg : FilterConfig) (method : string) (o : option Operation)
    (item : PathItem) : PathItem :=
  match o with
  | Some op => if shouldRemove cfg op then clearMethod method item else item
  | None => item
  end.

(** What the path loop makes of an entry it visits and does not delete:
    each method slot is decided on its own. *)
Definition filterEntry (cfg : FilterConfig) (kv : string * PathItem)
    : string * PathItem :=
  (kv.1, keptOperations cfg kv.2).

(** Every path of the entries passes the path-level test. *)
Definition allKept (cfg : FilterConfig) (l : OrderedMap PathItem) : Prop :=
  forall kv, kv ∈ l -> pathDeleted cfg kv.1 = false.

(** Does a property stay?  It does when it is required, and otherwise when
    neither of the two deletions of the loop body applies to it. *)
Definition keepsProperty (includeMode excludeMode : bool)
    (filteredProps required : list string) (propName : string) : bool :=
  Contains required propName
  || negb ((includeMode && negb (Contains filteredProps propName))
           || (excludeMode && Contains filteredProps propName)).

(** Is property filtering configured at all? *)
Definition propertyModes (cfg : FilterConfig) : bool :=
  (0 <? size (SchemaProperties (Include cfg)))%nat
  || (0 <? size (SchemaProperties (Exclude cfg)))%nat.

(** The loop of [filterComponentSchemaProperties] over the schemas. *)
Definition filterSchemas (cfg : FilterConfig) (schemas : OrderedMap SchemaProxy)
    : OrderedMap SchemaProxy :=
  (fun kv => (fst kv,
      filterSchemaProxy (0 <? size (SchemaProperties (Include cfg)))%nat
        (0 <? size (SchemaProperties (Exclude cfg)))%nat
        (if (0 <? size (SchemaProperties (Include cfg)))%nat
         then SchemaProperties (Include cfg) else SchemaProperties (Exclude cfg))
        (fst kv) (snd kv))) <$> schemas.

(** What [filterComponentSchemaProperties] makes of the components. *)
Definition filterComponents (cfg : FilterConfig) (c : option Components)
    : option Components :=
  match c with
  | Some {| Schemas := Some schemas |} =>
      if propertyModes cfg then Some {| Schemas := Some (filterSchemas cfg schemas) |} else c
  | _ => c
  end.

(** *** Example documents and configurations for the path loop *)

Definition onlyGet (id : string) : PathItem :=
  getOnly (Some {| opTags := []; OperationId := id |}).

Definition onlyPut (id : string) : PathItem :=
  {| Get := None; Put := Some {| opTags := []; OperationId := id |}; Post := None;
     PDelete := None; Options := None; Head := None; Patch := None; Trace := None |}.

(** Four paths, each with one operation. *)
Definition fourPaths : Document :=
  {| PathItems := Some [("/a", onlyGet "getA"); ("/b", onlyGet "getB");
                        ("/c", onlyPut "putC"); ("/d", onlyGet "getD")];
     DComponents := None |}.

(** Exclude the paths [/a] and [/b]. *)
Definition excludeAB : FilterConfig :=
  {| Include := noFilter;
     Exclude := {| Paths := Some ["/a"; "/b"]; Tags := None; OperationIDs := None;
                   SchemaProperties := ∅ |} |}.

(** Include the paths [/b], [/c] and [/d], and the operation [getB]. *)
Definition includeGetB : FilterConfig :=
  {| Include := {| Paths := Some ["/b"; "/c"; "/d"]; Tags := None;
                   OperationIDs := Some ["getB"]; SchemaProperties := ∅ |};
     Exclude := noFilter |}.

(** Include the operation [getB], whatever its path. *)
Definition onlyGetB : FilterConfig :=
  {| Include := {| Paths := None; Tags := None; OperationIDs := Some ["getB"];
                   SchemaProperties := ∅ |};
     Exclude := noFilter |}.

(** *** Example configurations for the schema [Pet] of [petModel] *)

(** Include the property [y]. *)
Definition includePetProps : FilterConfig :=
  {| Include := {| Paths := None; Tags := None; OperationIDs := None;
                   SchemaProperties := {[ "Pet" := ["y"] ]} |};
     Exclude := noFilter |}.

(** Include the property [y], and exclude a property of another schema. *)
Definition bothPetProps : FilterConfig :=
  {| Include := {| Paths := None; Tags := None; OperationIDs := None;
                   SchemaProperties := {[ "Pet" := ["y"] ]} |};
     Exclude := {| Paths := None; Tags := None; OperationIDs := None;
                   SchemaProperties := {[ "Other" := ["z"] ]} |} |}.

(** Include a property of another schema, and exclude both properties of
    [Pet]. *)
Definition includeOtherProps : FilterConfig :=
  {| Include := {| Paths := None; Tags := None; OperationIDs := None;
                   SchemaProperties := {[ "Other" := ["z"] ]} |};
     Exclude := {| Paths := None; Tags := None; OperationIDs := None;
                   SchemaProperties := {[ "Pet" := ["x"; "y"] ]} |} |}.

End FilterSupport.

(** ** Statements for the further properties of the union synthesizer *)
Module UnionSupport.
Import Go Union.
Local Open Scope list_scope.

Section Members.
Context `{G : Generator}.

(** The tracker after [GenerateGoSchema] has run on the members in turn,
    each with the options the member loop gives it. *)
Fixpoint synthesizeMembers (options : ParseOptions) (reg : Registry) (i : nat)
    (elements : list SchemaProxy) : Registry :=
  match elements with
  | [] => reg
  | element :: rest =>
      synthesizeMembers options
        (fst (GenerateGoSchema element (memberOptions options i element) reg)) (S i) rest
  end.
End Members.

(** Every value of the discriminator mapping is a union element. *)
Definition mappingTargets (s : GoSchema) : Prop :=
  forall d k v, GDiscriminator s = Some d -> Mapping d !! k = Some v -> v ∈ UnionElements s.

(** Two referenced members that resolve to the same type. *)
Definition twoCats : list (option SchemaProxy) :=
  [Some (refProxy "#/components/schemas/Cat"); Some (refProxy "#/components/schemas/Cat")].

(** *** The discriminator keys of the members *)
Section Keys.
Context `{G : Generator}.

(** The key under which the member loop maps a member: the first key of
    the declared mapping whose reference is the member's, else the implicit
    key derived from the member's reference. *)
Definition memberKey (d : BaseDiscriminator) (e : SchemaProxy) : string :=
  match explicitKey (BMapping d) (Reference e) with
  | Some k => k
  | None => refPathToObjName (Reference e)
  end.

(** The declared mapping names every member. *)
Definition coversEveryMember (d : BaseDiscriminator) (members : list SchemaProxy) : Prop :=
  forall e, e ∈ members -> exists k, (k, Reference e) ∈ BMapping d.

(** The success half of the mapping rule, as the design document words it:
    a union of two or more non-null members whose declared mapping covers
    every member is synthesized. *)
Definition coveredSucceeds (elements : list (option SchemaProxy))
    (d : BaseDiscriminator) (options : ParseOptions) (reg : Registry) : Prop :=
  2 <= length (fst (filterNull elements)) ->
  coversEveryMember d (fst (filterNull elements)) ->
  exists reg' out, generateUnion elements (Some d) options reg = Some (reg', (out, None)).

(** [err] is the error of a member's own synthesis: the member loop came
    to the member without error, and [GenerateGoSchema] returned [err] for
    it, leaving the tracker [r]. *)
Definition ownError (d : option BaseDiscriminator) (options : ParseOptions)
    (st0 : LoopState) (members : list SchemaProxy) (r : Registry) (err : error) : Prop :=
  exists before x after st es,
    members = before ++ x :: after
    /\ unionLoop d options st0 0 before = inr st
    /\ GenerateGoSchema x (memberOptions options (length before) x) (lsRegistry st)
       = (r, (es, Some err)).
End Keys.

(** Modelled from the spec: [GenerateGoSchema] is not among the sources.  A
    second stand-in, used by the examples only: as [demoGenerate], but the
    synthesis of a member of type [bad] fails. *)
Definition strictGenerate (p : SchemaProxy) (o : list string) (r : list TypeDefinition)
    : list TypeDefinition * (GoSchema * option error) :=
  match SchemaOf p with
  | Some {| Type_ := t :: _ |} =>
      if String.eqb t "bad" then (r, (zeroGoSchema, Some "unsupported type: bad"))
      else demoGenerate p o r
  | _ => demoGenerate p o r
  end.

Definition strictGenerator : Generator :=
  {| ParseOptions := list string;
     path := fun o => o;
     WithReference := fun o _ => o;
     WithPath := fun _ p => p;
     Registry := list TypeDefinition;
     AddType := fun td r => (r ++ [td])%list;
     GenerateGoSchema := strictGenerate;
     pathToTypeName := String.concat "_";
     TypeDecl := GoType;
     needsMarshaler := fun _ => false;
     refPathToObjName := lastSegment;
     ErrAmbiguousDiscriminatorMapping :=
       "ambiguous discriminator.mapping: please replace inlined object with $ref";
     ErrDiscriminatorNotAllMapped := "discriminator: not all schemas were mapped" |}.

(** A referenced member whose synthesis fails under [strictGenerator]. *)
Definition badRef : SchemaProxy :=
  {| GoLowReference := "#/components/schemas/Bad"; Reference := "#/components/schemas/Bad";
     SchemaOf := Some {| Type_ := ["bad"] |} |}.

End UnionSupport.

(** ** Pointer helpers and union method names *)
Module Pointers.
Local Open Scope list_scope.

(** A [*T] as the helpers use it: nil, or a pointer to a value.  They read
    the value, never the address. *)
Definition ptr {T : Type} (v : T) : option T := Some v.

(** The zero value of a Go type. *)
Class Zero (T : Type) := zero : T.

Definition deref {T : Type} `{Zero T} (p : option T) : T :=
  match p with
  | None => zero
  | Some v => v
  end.

(** Go's [==] on a comparable type [T].  On strings, integers and
    booleans it decides equality; on a floating-point type it does not, a
    NaN being different from itself. *)
Class Comparable (T : Type) := goEq : T -> T -> bool.

(** [ptrEqual]. *)
Definition ptrEqual {T : Type} `{Comparable T} (a b : option T) : bool :=
  match a, b with
  | None, None => true
  | None, Some _ | Some _, None => false
  | Some x, Some y => goEq x y
  end.

(** Strings: [==] compares the bytes, and the zero value is the empty
    string. *)
#[export] Instance string_comparable : Comparable string := String.eqb.
#[export] Instance string_zero : Zero string := "".

(** [strings.Split(s, ".")]: the text between the dots, [acc] being the
    part that is read. *)
Fixpoint splitDots (s acc : string) : list string :=
  match s with
  | EmptyString => [acc]
  | String c s' =>
      if Ascii.eqb c (Ascii.ascii_of_nat 46) then acc :: splitDots s' ""
      else splitDots s' (acc +:+ String c EmptyString)
  end.

Section UnionElement.
(** [UppercaseFirstCharacter] is not among the sources: [Method] is
    taken for every such function. *)
Variable UppercaseFirstCharacter : string -> string.

(** [UnionElement.Method]. *)
Definition Method (u : string) : string :=
  foldl (fun method part => method +:+ UppercaseFirstCharacter part) "" (splitDots u "").
End UnionElement.

End Pointers.

(** * Properties of the pruner *)
Module PruneFacts.
Import Go Prune.
#[local] Set Warnings "-clear-no-such-hyp".

(** ** [slices.Contains] and [slices.Sort] *)

Lemma Contains_elem_of s v : Contains s v = true <-> v ∈ s.
Proof.
  induction s as [|x s IH]; simpl.
  - split; [done|]. by intros ?%elem_of_nil.
  - destruct (String.eqb_spec x v) as [->|Hne].
    + split; [left|done].
    + rewrite IH. split; [by right|]. by intros [?|?]%elem_of_cons.
Qed.

Lemma Sort_elem_of l v : v ∈ Sort l <-> v ∈ l.
Proof. unfold Sort. by rewrite merge_sort_Permutation. Qed.

(** ** The reference collector *)

Section CollectorFacts.
Context (idx : Index).

Lemma listHeight_elem h (l : list SchemaProxy) p :
  p ∈ l -> proxyHeight h p <= listHeight h l.
Proof.
  induction 1 as [p l|p q l _ IH]; simpl; lia.
Qed.

Lemma mapHeight_elem h (m : OrderedMap SchemaProxy) p :
  p ∈ m.*2 -> proxyHeight h p <= mapHeight h m.
Proof.
  induction m as [|[k q] m IH]; simpl; intros Hp.
  - inversion Hp.
  - apply elem_of_cons in Hp as [->|Hp]; [lia|]. specialize (IH Hp). lia.
Qed.

Lemma child_height s p : p ∈ children s -> proxyHeight height p < height s.
Proof.
  unfold children. destruct s as [r props items ap allOf oneOf anyOf nt]; simpl.
  rewrite !elem_of_app. intros H.
  assert (Hm : forall m, props = Some m -> p ∈ m.*2 -> proxyHeight height p <= mapHeight height m)
    by (intros; by apply mapHeight_elem).
  pose proof (listHeight_elem height allOf p).
  pose proof (listHeight_elem height oneOf p).
  pose proof (listHeight_elem height anyOf p).
  destruct H as [H|[H|[H|[H|[H|[H|H]]]]]].
  - destruct props as [m|]; [|inversion H]. specialize (Hm m eq_refl H). lia.
  - destruct items as [[q|b]|]; try (by inversion H).
    apply list_elem_of_singleton in H as ->. simpl. lia.
  - destruct ap as [[q|b]|]; try (by inversion H).
    apply list_elem_of_singleton in H as ->. simpl. lia.
  - specialize (H0 H). lia.
  - specialize (H1 H). lia.
  - specialize (H2 H). lia.
  - apply list_elem_of_singleton in H as ->. lia.
Qed.

(** Every schema of the index is at most [maxHeight] tall. *)
Lemma maxHeight_lookup r t : idx !! r = Some t -> height t <= maxHeight idx.
Proof.
  intros Hr. unfold maxHeight. apply max_list_elem_of_le.
  apply list_elem_of_fmap. exists t. split; [done|].
  apply list_elem_of_fmap. exists (r, t). split; [done|].
  by apply elem_of_map_to_list.
Qed.

Lemma height_pos s : 1 <= height s.
Proof. destruct s; simpl; lia. Qed.

Lemma unrecorded_mono rs rs' : rs ⊆ rs' -> unrecorded idx rs' <= unrecorded idx rs.
Proof. intros H. unfold unrecorded. apply subseteq_size. set_solver. Qed.

Lemma unrecorded_le_size rs : unrecorded idx rs <= size idx.
Proof.
  unfold unrecorded. rewrite <- size_dom. apply subseteq_size. set_solver.
Qed.

Lemma unrecorded_lt r rs rs' :
  is_Some (idx !! r) -> r ∉ rs -> {[r]} ∪ rs ⊆ rs' -> unrecorded idx rs' < unrecorded idx rs.
Proof.
  intros Hr Hn Hs. unfold unrecorded. apply subset_size. apply elem_of_dom in Hr.
  split; [set_solver|]. intros Hc. assert (r ∈ dom idx ∖ rs') by set_solver.
  set_solver.
Qed.

Lemma addParentSchemaRef_extensive ref rs : rs ⊆ addParentSchemaRef ref rs.
Proof.
  unfold addParentSchemaRef. destruct (String.index _ _ _); [|done].
  case_decide; set_solver.
Qed.

(** Recording the schema's own reference only adds to the set. *)
Lemma ownReference_extensive ref rs :
  rs ⊆ (if decide (ref = "") then rs else addParentSchemaRef ref ({[ref]} ∪ rs)).
Proof.
  case_decide; [done|].
  pose proof (addParentSchemaRef_extensive ref ({[ref]} ∪ rs)). set_solver.
Qed.

Lemma visitProxy_extensive rec wp p rs rs' :
  extensive rec -> visitProxy rec idx wp p rs = Some (Walked rs') -> rs ⊆ rs'.
Proof.
  intros Hrec. unfold visitProxy. case_decide as Hr.
  - destruct (rec _ _) as [x|] eqn:E; simpl; [|done].
    intros [= <-]. by eapply Hrec.
  - case_decide; [done|].
    destruct (rec _ _) as [x|] eqn:E; simpl; [|done].
    intros [= <-]. apply Hrec in E.
    destruct wp; [pose proof (addParentSchemaRef_extensive (GetReference p) ({[GetReference p]} ∪ rs))|]; set_solver.
Qed.

Lemma walkList_extensive visit l : forall rs rs',
  (forall p x y, visit p x = Some (Walked y) -> x ⊆ y) ->
  walkList visit l rs = Some rs' -> rs ⊆ rs'.
Proof.
  induction l as [|p l IH]; simpl; intros rs rs' Hv.
  - by intros [= <-].
  - destruct p as [|c|r]; [by apply IH| |].
    all: destruct (visit _ rs) as [[|x]|] eqn:E; [by apply IH| |done].
    all: intros H; apply IH in H; [|done]; apply Hv in E; set_solver.
Qed.

Lemma walkBranch_extensive visit d k rs rs' :
  (forall p x y, visit p x = Some (Walked y) -> x ⊆ y) ->
  (forall x y, k x = Some y -> x ⊆ y) ->
  walkBranch visit d rs k = Some rs' -> rs ⊆ rs'.
Proof.
  intros Hv Hk. unfold walkBranch.
  destruct d as [[p|b]|]; [|by apply Hk..].
  destruct p as [|c|r]; [by apply Hk| |].
  all: destruct (visit _ rs) as [[|x]|] eqn:E; [by intros [= <-]| |done].
  all: intros H; apply Hk in H; apply Hv in E; set_solver.
Qed.

Lemma collectBody_extensive rec : extensive rec ->
  forall s rs rs', collectBody rec idx s rs = Some rs' -> rs ⊆ rs'.
Proof.
  intros IH s rs rs'. unfold collectBody.
  case_decide; [by intros [= <-]|].
  set (rs0 := if decide (sReference s = "") then rs else _).
  assert (rs ⊆ rs0) as H0 by apply ownReference_extensive.
  pose proof (fun wp p x y => visitProxy_extensive _ wp p x y IH) as Hv.
  destruct (match sProperties s with Some _ => _ | None => _ end) as [rs1|] eqn:E1; [|done].
  assert (rs0 ⊆ rs1) as H1.
  { destruct (sProperties s); [|by injection E1 as <-].
    eapply walkList_extensive; [|done]. apply Hv. }
  intros Hb. apply walkBranch_extensive in Hb; [set_solver|apply Hv|].
  intros x y Hx. apply walkBranch_extensive in Hx; [done|apply Hv|].
  intros x' y'. apply walkList_extensive, Hv.
Qed.

Lemma collectSchemaRefs_fuel_extensive fuel : extensive (collectSchemaRefs_fuel idx fuel).
Proof.
  induction fuel as [|fuel IH]; intros s rs rs'.
  - destruct s; simpl; [done|]. by intros [= <-].
  - destruct s as [s|]; simpl; [|by intros [= <-]].
    by apply collectBody_extensive.
Qed.

(** *** Enough fuel always gives a result *)

Lemma visitProxy_total fuel wp s p rs0 rs :
  (forall s' rs', need idx s' rs' <= fuel -> is_Some (collectSchemaRefs_fuel idx fuel s' rs')) ->
  p ∈ children s -> need idx (Some s) rs0 <= S fuel -> rs0 ⊆ rs ->
  is_Some (visitProxy (collectSchemaRefs_fuel idx fuel) idx wp p rs).
Proof.
  intros IH Hp Hfuel Hsub. unfold need in *. simpl in Hfuel.
  pose proof (child_height s p Hp) as Hh.
  pose proof (unrecorded_mono _ _ Hsub) as Hu.
  assert (unrecorded idx rs * maxHeight idx <= unrecorded idx rs0 * maxHeight idx) as Hm
    by (by apply Nat.mul_le_mono_r).
  unfold visitProxy. case_decide as Hr.
  - apply fmap_is_Some, IH. unfold need.
    destruct p as [|c|r]; simpl in *; [lia..|]. subst r. simpl. lia.
  - case_decide as Hin; [done|].
    destruct p as [|c|r]; simpl in Hr; [done..|]. simpl.
    apply fmap_is_Some, IH. unfold need. rewrite decide_False by done.
    destruct (idx !! r) as [t|] eqn:Et; simpl.
    + set (rs' := if wp then _ else _).
      assert ({[r]} ∪ rs ⊆ rs') as Hs'.
      { subst rs'. destruct wp; [apply addParentSchemaRef_extensive|done]. }
      assert (unrecorded idx rs' < unrecorded idx rs) as Hlt
        by (eapply unrecorded_lt; [by rewrite Et|done..]).
      pose proof (maxHeight_lookup r t Et).
      assert (S (unrecorded idx rs') * maxHeight idx <= unrecorded idx rs * maxHeight idx)
        by (apply Nat.mul_le_mono_r; lia).
      pose proof (height_pos s). lia.
    + pose proof (height_pos s).
      set (rs' := if wp then _ else _).
      assert ({[r]} ∪ rs ⊆ rs') as Hs'.
      { subst rs'. destruct wp; [apply addParentSchemaRef_extensive|done]. }
      assert (unrecorded idx rs' <= unrecorded idx rs) as Hle
        by (apply unrecorded_mono; set_solver).
      assert (unrecorded idx rs' * maxHeight idx <= unrecorded idx rs * maxHeight idx)
        by (by apply Nat.mul_le_mono_r).
      lia.
Qed.

Lemma walkList_total visit l : forall rs,
  (forall p x y, visit p x = Some (Walked y) -> x ⊆ y) ->
  (forall p rs', p ∈ l -> rs ⊆ rs' -> is_Some (visit p rs')) ->
  is_Some (walkList visit l rs).
Proof.
  induction l as [|p l IH]; simpl; intros rs Hext Hv; [done|].
  assert (forall rs', rs ⊆ rs' -> is_Some (walkList visit l rs')) as Hl.
  { intros rs' Hs. apply IH; [done|]. intros q x Hq Hx. apply Hv; set_solver. }
  destruct p as [|c|r]; [by apply Hl| |].
  all: destruct (Hv _ rs ltac:(left) ltac:(done)) as [[|x] E]; rewrite E;
    [by apply Hl|]; apply Hl; by eapply Hext.
Qed.

Lemma walkBranch_total visit d k rs :
  (forall p x y, visit p x = Some (Walked y) -> x ⊆ y) ->
  (forall p, d = Some (DynA p) -> is_Some (visit p rs)) ->
  (forall rs', rs ⊆ rs' -> is_Some (k rs')) ->
  is_Some (walkBranch visit d rs k).
Proof.
  intros Hext Hv Hk. unfold walkBranch.
  destruct d as [[p|b]|]; [|by apply Hk..].
  destruct p as [|c|r]; [by apply Hk| |].
  all: destruct (Hv _ eq_refl) as [[|x] E]; rewrite E; [done|];
    apply Hk; by eapply Hext.
Qed.

Lemma collectSchemaRefs_fuel_total fuel : forall s rs,
  need idx s rs <= fuel -> is_Some (collectSchemaRefs_fuel idx fuel s rs).
Proof.
  induction fuel as [|fuel IH]; intros s rs Hneed.
  - destruct s as [s|]; [|done]. unfold need in Hneed. simpl in Hneed.
    pose proof (height_pos s). lia.
  - destruct s as [s|]; simpl; [|done]. unfold collectBody.
    case_decide; [done|].
    set (rs0 := if decide (sReference s = "") then rs else _).
    assert (rs ⊆ rs0) as H0 by apply ownReference_extensive.
    pose proof (fun wp p x y =>
      visitProxy_extensive _ wp p x y (collectSchemaRefs_fuel_extensive fuel)) as Hext.
    assert (forall wp p x, p ∈ children s -> rs ⊆ x ->
      is_Some (visitProxy (collectSchemaRefs_fuel idx fuel) idx wp p x)) as Hv.
    { intros wp p x Hp Hx. by eapply visitProxy_total. }
    assert (is_Some (match sProperties s with
                     | Some props => walkList (visitProxy (collectSchemaRefs_fuel idx fuel) idx true) props.*2 rs0
                     | None => Some rs0 end)) as [rs1 E1].
    { destruct (sProperties s) as [m|] eqn:Em; [|done].
      apply walkList_total; [apply Hext|]. intros p x Hp Hx.
      apply Hv; [|set_solver]. unfold children. rewrite Em. set_solver. }
    rewrite E1.
    assert (rs0 ⊆ rs1) as H1.
    { destruct (sProperties s); [|by injection E1 as <-].
      eapply walkList_extensive; [|done]. apply Hext. }
    apply walkBranch_total; [apply Hext| |].
    { intros p Hp. apply Hv; [|set_solver]. unfold children. rewrite Hp. set_solver. }
    intros rs2 H2.
    apply walkBranch_total; [apply Hext| |].
    { intros p Hp. apply Hv; [|set_solver]. unfold children. rewrite Hp. set_solver. }
    intros rs3 H3.
    apply walkList_total; [apply Hext|].
    intros p x Hp Hx. apply Hv; [|set_solver]. unfold children. set_solver.
Qed.

(** *** More fuel does not change a result *)

Lemma visitProxy_refines rec rec' wp p rs v :
  refines rec rec' ->
  visitProxy rec idx wp p rs = Some v -> visitProxy rec' idx wp p rs = Some v.
Proof.
  intros Hr. unfold visitProxy. repeat case_decide; try done.
  all: destruct (rec _ _) as [x|] eqn:E; [|done]; by rewrite (Hr _ _ _ E).
Qed.

Lemma walkList_refines visit visit' l : forall rs r,
  (forall p x v, visit p x = Some v -> visit' p x = Some v) ->
  walkList visit l rs = Some r -> walkList visit' l rs = Some r.
Proof.
  induction l as [|p l IH]; simpl; intros rs r Hv; [done|].
  destruct p as [|c|q]; [by apply IH| |].
  all: destruct (visit _ rs) as [v|] eqn:E; [|done]; rewrite (Hv _ _ _ E);
    destruct v; by apply IH.
Qed.

Lemma walkBranch_refines visit visit' d k k' rs r :
  (forall p x v, visit p x = Some v -> visit' p x = Some v) ->
  (forall x y, k x = Some y -> k' x = Some y) ->
  walkBranch visit d rs k = Some r -> walkBranch visit' d rs k' = Some r.
Proof.
  intros Hv Hk. unfold walkBranch.
  destruct d as [[p|b]|]; [|by apply Hk..].
  destruct p as [|c|q]; [by apply Hk| |].
  all: destruct (visit _ rs) as [v|] eqn:E; [|done]; rewrite (Hv _ _ _ E);
    destruct v; [done|by apply Hk].
Qed.

Lemma collectBody_refines rec rec' s rs r :
  refines rec rec' ->
  collectBody rec idx s rs = Some r -> collectBody rec' idx s rs = Some r.
Proof.
  intros IH. unfold collectBody. case_decide; [done|].
  pose proof (fun wp p x v => visitProxy_refines _ _ wp p x v IH) as Hv.
  set (rs0 := if decide (sReference s = "") then rs else _).
  destruct (match sProperties s with Some _ => _ | None => _ end) as [rs1|] eqn:E1; [|done].
  assert (match sProperties s with
          | Some props => walkList (visitProxy rec' idx true) props.*2 rs0
          | None => Some rs0 end = Some rs1) as ->.
  { destruct (sProperties s); [|done]. eapply walkList_refines; [apply Hv|done]. }
  apply walkBranch_refines; [apply Hv|]. intros x y.
  apply walkBranch_refines; [apply Hv|]. intros x' y'.
  apply walkList_refines, Hv.
Qed.

Lemma collectSchemaRefs_fuel_S fuel :
  refines (collectSchemaRefs_fuel idx fuel) (collectSchemaRefs_fuel idx (S fuel)).
Proof.
  induction fuel as [|fuel IH]; intros s rs r.
  - destruct s; [done|]. simpl. by intros [= <-].
  - destruct s as [s|]; [|done].
    change (collectBody (collectSchemaRefs_fuel idx fuel) idx s rs = Some r ->
            collectBody (collectSchemaRefs_fuel idx (S fuel)) idx s rs = Some r).
    by apply collectBody_refines.
Qed.

Lemma collectSchemaRefs_fuel_mono fuel fuel' s rs r :
  fuel <= fuel' ->
  collectSchemaRefs_fuel idx fuel s rs = Some r ->
  collectSchemaRefs_fuel idx fuel' s rs = Some r.
Proof.
  induction 1 as [|fuel' _ IH]; [done|].
  intros H. by apply collectSchemaRefs_fuel_S, IH.
Qed.

Lemma need_le_fuelBound s rs : need idx s rs <= fuelBound idx s.
Proof.
  unfold need, fuelBound. pose proof (unrecorded_le_size rs).
  assert (unrecorded idx rs * maxHeight idx <= size idx * maxHeight idx)
    by (by apply Nat.mul_le_mono_r).
  lia.
Qed.

Lemma collectSchemaRefs_fuel_enough s rs fuel :
  fuelBound idx s <= fuel ->
  collectSchemaRefs_fuel idx fuel s rs = Some (collectSchemaRefs idx s rs).
Proof.
  intros Hf. unfold collectSchemaRefs.
  destruct (collectSchemaRefs_fuel_total (fuelBound idx s) s rs (need_le_fuelBound s rs)) as [r E].
  rewrite E. simpl. by eapply collectSchemaRefs_fuel_mono.
Qed.
End CollectorFacts.

(** C9: the schema traversal of the reference collector terminates on every
    schema graph, cyclic ones included: for every index, schema and set, the
    recursion depth [fuelBound] (and any larger one) gives the result; a
    child reference that is already in the set is not descended into, and a
    schema whose own reference is in the set is left at once.  The bound
    counts references not yet recorded, not a depth limit of the code. *)
Theorem collectSchemaRefs_terminates (idx : Index) (schema : option Schema)
    (refSet : gset string) (extra : nat) :
  collectSchemaRefs_fuel idx (fuelBound idx schema + extra) schema refSet
    = Some (collectSchemaRefs idx schema refSet)
  /\ (forall rec withParent p,
        GetReference p ≠ "" -> GetReference p ∈ refSet ->
        visitProxy rec idx withParent p refSet = Some Seen)
  /\ (forall rec s,
        sReference s ≠ "" -> sReference s ∈ refSet ->
        collectBody rec idx s refSet = Some refSet).
Proof.
  split; [apply collectSchemaRefs_fuel_enough; lia|]. split.
  - intros rec wp p Hne Hin. unfold visitProxy.
    rewrite decide_False by done. by rewrite decide_True.
  - intros rec s Hne Hin. unfold collectBody. by rewrite decide_True.
Qed.

Lemma collectSchemaRefs_terminates_witness :
  collectSchemaRefs_fuel (docIndex cycleDoc) (fuelBound (docIndex cycleDoc) (Some selfA) + 0)
      (Some selfA) ∅
    = Some (collectSchemaRefs (docIndex cycleDoc) (Some selfA) ∅)
  /\ visitProxy (fun _ _ => None) (docIndex cycleDoc) true (ProxyRef "#/components/schemas/A")
       {["#/components/schemas/A"]} = Some Seen.
Proof.
  destruct (collectSchemaRefs_terminates (docIndex cycleDoc) (Some selfA) ∅ 0) as [H1 _].
  destruct (collectSchemaRefs_terminates (docIndex cycleDoc) None {["#/components/schemas/A"]} 0)
    as (_ & H2 & _).
  split; [exact H1|]. apply H2; [discriminate|]. by apply elem_of_singleton.
Defined.

Example collect_cycle :
  collectSchemaRefs (docIndex cycleDoc) (Some selfA) ∅ = {["#/components/schemas/A"]}.
Proof. by vm_compute. Qed.

(** ** Early return at the items and additionalProperties branches *)

Section EarlyReturn.
Context (idx : Index).

Lemma collectBody_items_seen rec s rs p :
  extensive rec -> sItems s = Some (DynA p) ->
  GetReference p ≠ "" -> GetReference p ∈ rs ->
  collectBody rec idx s rs = collectBody rec idx (eraseAfterItems s) rs.
Proof.
  intros Hrec Hi Hne Hin. unfold collectBody. simpl.
  case_decide; [done|].
  set (rs0 := if decide (sReference s = "") then rs else _).
  assert (rs ⊆ rs0) as H0 by apply ownReference_extensive.
  destruct (match sProperties s with Some _ => _ | None => _ end) as [rs1|] eqn:E1; [|done].
  assert (rs0 ⊆ rs1) as H1.
  { destruct (sProperties s); [|by injection E1 as <-].
    eapply walkList_extensive; [|done].
    intros q x y. by apply visitProxy_extensive. }
  rewrite Hi. unfold walkBranch.
  assert (visitProxy rec idx false p rs1 = Some Seen) as Hv.
  { unfold visitProxy. rewrite decide_False by done. rewrite decide_True; [done|set_solver]. }
  destruct p; [done|by rewrite Hv..].
Qed.

Lemma collectBody_additional_seen rec s rs p :
  extensive rec -> sAdditionalProperties s = Some (DynA p) ->
  GetReference p ≠ "" -> GetReference p ∈ rs ->
  collectBody rec idx s rs = collectBody rec idx (eraseAfterAdditional s) rs.
Proof.
  intros Hrec Ha Hne Hin. unfold collectBody. simpl.
  case_decide; [done|].
  set (rs0 := if decide (sReference s = "") then rs else _).
  assert (rs ⊆ rs0) as H0 by apply ownReference_extensive.
  destruct (match sProperties s with Some _ => _ | None => _ end) as [rs1|] eqn:E1; [|done].
  assert (rs0 ⊆ rs1) as H1.
  { destruct (sProperties s); [|by injection E1 as <-].
    eapply walkList_extensive; [|done].
    intros q x y. by apply visitProxy_extensive. }
  assert (forall x, rs1 ⊆ x -> visitProxy rec idx false p x = Some Seen) as Hv.
  { intros x Hx. unfold visitProxy. rewrite decide_False by done.
    rewrite decide_True; [done|set_solver]. }
  rewrite Ha.
  assert (forall x k k', rs1 ⊆ x ->
    walkBranch (visitProxy rec idx false) (Some (DynA p)) x k =
    walkBranch (visitProxy rec idx false) (Some (DynA p)) x k') as Hb.
  { intros x k k' Hx. unfold walkBranch. destruct p; [done|by rewrite Hv..]. }
  unfold walkBranch at 1 3.
  destruct (sItems s) as [[q|b]|]; [|by apply Hb..].
  destruct q as [|c|r]; [by apply Hb| |].
  all: destruct (visitProxy rec idx false _ rs1) as [[|x]|] eqn:Ev; [done| |done].
  all: apply Hb; eapply visitProxy_extensive; done.
Qed.
End EarlyReturn.

Lemma collectSchemaRefs_fuel_items_seen idx fuel s rs p :
  sItems s = Some (DynA p) -> GetReference p ≠ "" -> GetReference p ∈ rs ->
  collectSchemaRefs_fuel idx fuel (Some s) rs
    = collectSchemaRefs_fuel idx fuel (Some (eraseAfterItems s)) rs.
Proof.
  intros Hi Hne Hin. destruct fuel as [|fuel]; [done|]. simpl.
  eapply collectBody_items_seen; [apply collectSchemaRefs_fuel_extensive|done..].
Qed.

Lemma collectSchemaRefs_fuel_additional_seen idx fuel s rs p :
  sAdditionalProperties s = Some (DynA p) -> GetReference p ≠ "" -> GetReference p ∈ rs ->
  collectSchemaRefs_fuel idx fuel (Some s) rs
    = collectSchemaRefs_fuel idx fuel (Some (eraseAfterAdditional s)) rs.
Proof.
  intros Ha Hne Hin. destruct fuel as [|fuel]; [done|]. simpl.
  eapply collectBody_additional_seen; [apply collectSchemaRefs_fuel_extensive|done..].
Qed.

(** Two calls agree when they agree at every fuel. *)
Lemma collectSchemaRefs_agree idx s s' rs :
  (forall fuel, collectSchemaRefs_fuel idx fuel s rs = collectSchemaRefs_fuel idx fuel s' rs) ->
  collectSchemaRefs idx s rs = collectSchemaRefs idx s' rs.
Proof.
  intros H.
  pose proof (collectSchemaRefs_fuel_enough idx s rs (fuelBound idx s `max` fuelBound idx s')
                ltac:(lia)) as E.
  pose proof (collectSchemaRefs_fuel_enough idx s' rs (fuelBound idx s `max` fuelBound idx s')
                ltac:(lia)) as E'.
  rewrite H in E. congruence.
Qed.

(** C10: when [collectSchemaRefs] is called on a schema whose items branch
    (or additionalProperties branch) carries a reference that is already in
    the set, it returns at that branch: the result is the result of the call
    on the schema without the branches that come after, so references that
    occur only there are not recorded by the call. *)
Theorem collectSchemaRefs_early_return (idx : Index) (s : Schema) (p : SchemaProxy)
    (refSet : gset string) :
  GetReference p ≠ "" -> GetReference p ∈ refSet ->
  (sItems s = Some (DynA p) ->
     collectSchemaRefs idx (Some s) refSet
       = collectSchemaRefs idx (Some (eraseAfterItems s)) refSet)
  /\ (sAdditionalProperties s = Some (DynA p) ->
     collectSchemaRefs idx (Some s) refSet
       = collectSchemaRefs idx (Some (eraseAfterAdditional s)) refSet).
Proof.
  intros Hne Hin. split; intros H; apply collectSchemaRefs_agree; intros fuel.
  - by eapply collectSchemaRefs_fuel_items_seen.
  - by eapply collectSchemaRefs_fuel_additional_seen.
Qed.

Lemma collectSchemaRefs_early_return_witness :
  collectSchemaRefs skipIndex (Some itemsA) {["#/components/schemas/A"]}
    = collectSchemaRefs skipIndex (Some (eraseAfterItems itemsA)) {["#/components/schemas/A"]}.
Proof.
  refine (proj1 (collectSchemaRefs_early_return skipIndex itemsA
            (ProxyRef "#/components/schemas/A") {["#/components/schemas/A"]} _ _) eq_refl).
  - discriminate.
  - by apply elem_of_singleton.
Defined.

Example collect_skips_allOf :
  collectSchemaRefs skipIndex (Some itemsA) {["#/components/schemas/A"]}
    = {["#/components/schemas/A"]}
  /\ "#/components/schemas/B" ∈ mentions itemsA
  /\ collectSchemaRefs skipIndex (Some itemsA) ∅
    = {["#/components/schemas/A"; "#/components/schemas/B"]}.
Proof. split; [by vm_compute|]. split; [|by vm_compute]. vm_compute. set_solver. Qed.

(** ** Deleting orphans *)

Section Orphans.
Context {V : Type} (prefix : string) (refs : list string).

Lemma orphanStep_fold keys : forall n (om : OrderedMap V),
  foldl (orphanStep prefix refs) (n, om) keys =
    (n + length (List.filter (fun k => negb (Contains refs (prefix +:+ k))) keys),
     List.filter (fun kv => forallb (fun k => Contains refs (prefix +:+ k) || negb (String.eqb (fst kv) k)) keys) om).
Proof.
  induction keys as [|k keys IH]; intros n om; simpl.
  - f_equal; [lia|]. induction om as [|kv om IHom]; simpl; congruence.
  - destruct (Contains refs (prefix +:+ k)) eqn:E; simpl; rewrite IH.
    + f_equal.
    + f_equal; [lia|]. unfold Delete.
      induction om as [|kv om IHom]; simpl; [done|].
      destruct (String.eqb (fst kv) k); simpl; [done|].
      destruct (forallb _ keys); simpl; congruence.
Qed.

Lemma removeOrphans_eq (m : option (OrderedMap V)) n :
  removeOrphans prefix refs m n = (n + orphanCount prefix refs m, keepMap prefix refs m).
Proof.
  destruct m as [om|]; simpl; [|f_equal; lia].
  rewrite orphanStep_fold. unfold KeysFromOldest. f_equal; [f_equal|f_equal].
  - induction om as [|kv om IH]; simpl; [done|].
    unfold kept at 1. destruct (Contains _ _); simpl; [exact IH|f_equal; exact IH].
  - apply List.filter_ext_in. intros kv Hin. unfold kept.
    destruct (Contains refs (prefix +:+ kv.1)) eqn:E.
    + apply forallb_forall. intros k Hk.
      destruct (String.eqb_spec kv.1 k) as [<-|Hne]; [by rewrite E|].
      by rewrite orb_true_r.
    + apply not_true_is_false. intros Hall.
      rewrite forallb_forall in Hall.
      specialize (Hall kv.1). rewrite E, String.eqb_refl in Hall. simpl in Hall.
      assert (false = true) by (apply Hall, in_map_iff; by exists kv). done.
Qed.

(** Nothing counted means nothing deleted. *)
Lemma orphanCount_zero (m : option (OrderedMap V)) :
  orphanCount prefix refs m = 0 -> keepMap prefix refs m = m.
Proof.
  destruct m as [om|]; simpl; [|done]. intros H. f_equal.
  induction om as [|kv om IH]; simpl in *; [done|].
  destruct (kept prefix refs kv); simpl in *; [|done]. by rewrite IH.
Qed.

Lemma optKeys_keepMap (m : option (OrderedMap V)) key :
  key ∈ optKeys (keepMap prefix refs m) <->
  key ∈ optKeys m /\ Contains refs (prefix +:+ key) = true.
Proof.
  destruct m as [om|]; simpl; [|split; [by intros ?%elem_of_nil|by intros [?%elem_of_nil _]]].
  unfold KeysFromOldest. rewrite !list_elem_of_fmap. split.
  - intros [kv [-> Hin]]. apply list_elem_of_In, filter_In in Hin as [Hin Hk].
    split; [|done]. exists kv. split; [done|]. by apply list_elem_of_In.
  - intros [[kv [-> Hin]] Hk]. exists kv. split; [done|].
    apply list_elem_of_In, filter_In. split; [by apply list_elem_of_In|done].
Qed.

Lemma orphanCount_pos (m : option (OrderedMap V)) key :
  key ∈ optKeys m -> Contains refs (prefix +:+ key) = false ->
  1 <= orphanCount prefix refs m.
Proof.
  destruct m as [om|]; simpl; [|by intros ?%elem_of_nil].
  unfold KeysFromOldest. rewrite list_elem_of_fmap. intros [kv [-> Hin]] Hk.
  induction Hin as [kv om|kv kv' om _ IH]; simpl.
  - unfold kept at 1. rewrite Hk. simpl. lia.
  - destruct (negb (kept prefix refs kv')); simpl; [lia|exact (IH Hk)].
Qed.

Lemma orphanCount_zero_all (m : option (OrderedMap V)) key :
  orphanCount prefix refs m = 0 -> key ∈ optKeys m ->
  Contains refs (prefix +:+ key) = true.
Proof.
  intros H0 Hk. destruct (Contains refs (prefix +:+ key)) eqn:E; [done|].
  pose proof (orphanCount_pos m key Hk E). lia.
Qed.
End Orphans.

Lemma removeOrphanedComponents_eq model refs :
  removeOrphanedComponents model refs =
    match DComponents model with
    | None => (0, model)
    | Some c =>
        (orphanCount (kindPrefix KSchema) refs (Schemas c)
         + orphanCount (kindPrefix KParameter) refs (Parameters c)
         + orphanCount (kindPrefix KRequestBody) refs (RequestBodies c)
         + orphanCount (kindPrefix KResponse) refs (CResponses c)
         + orphanCount (kindPrefix KHeader) refs (Headers c),
         {| Webhooks := Webhooks model;
            DPaths := DPaths model;
            DComponents := Some
              {| Schemas := keepMap (kindPrefix KSchema) refs (Schemas c);
                 Parameters := keepMap (kindPrefix KParameter) refs (Parameters c);
                 RequestBodies := keepMap (kindPrefix KRequestBody) refs (RequestBodies c);
                 CResponses := keepMap (kindPrefix KResponse) refs (CResponses c);
                 Headers := keepMap (kindPrefix KHeader) refs (Headers c);
                 SecuritySchemes := SecuritySchemes c;
                 Callbacks := Callbacks c;
                 Examples := Examples c;
                 Links := Links c |} |})
    end.
Proof.
  unfold removeOrphanedComponents. destruct (DComponents model) as [c|]; [|done].
  rewrite !removeOrphans_eq. simpl. done.
Qed.

(** An iteration that counts nothing leaves the model as it was. *)
Lemma removeOrphanedComponents_zero model refs :
  fst (removeOrphanedComponents model refs) = 0 ->
  snd (removeOrphanedComponents model refs) = model.
Proof.
  rewrite removeOrphanedComponents_eq.
  destruct model as [w p [c|]]; simpl; [|done]. intros H.
  rewrite !orphanCount_zero by lia. by destruct c.
Qed.

(** A component is in the model after an iteration exactly when it was in
    the model before and its reference is in [refs]. *)
Lemma componentKeys_removeOrphaned model refs k key :
  key ∈ componentKeys k (snd (removeOrphanedComponents model refs)) <->
  key ∈ componentKeys k model /\ Contains refs (componentRef k key) = true.
Proof.
  rewrite removeOrphanedComponents_eq. unfold componentKeys, componentRef.
  destruct (DComponents model) as [c|] eqn:Ec; simpl.
  - destruct k; apply optKeys_keepMap.
  - rewrite Ec. split; [by intros ?%elem_of_nil|by intros [?%elem_of_nil _]].
Qed.

Lemma removedCount_zero_all idx model k key :
  removedCount idx model = 0 -> key ∈ componentKeys k model ->
  componentRef k key ∈ findOperationRefs idx model.
Proof.
  unfold removedCount. rewrite removeOrphanedComponents_eq. unfold componentKeys.
  destruct (DComponents model) as [c|]; simpl; [|by intros _ ?%elem_of_nil].
  intros H0 Hk. simpl in H0. apply Contains_elem_of. unfold componentRef.
  destruct k; eapply orphanCount_zero_all; try done; simpl; lia.
Qed.

Lemma removedCount_pos idx model k key :
  key ∈ componentKeys k model -> componentRef k key ∉ findOperationRefs idx model ->
  1 <= removedCount idx model.
Proof.
  intros Hk Hn. destruct (removedCount idx model) eqn:E; [|lia].
  exfalso. by eapply Hn, removedCount_zero_all.
Qed.

(** ** The pruning loop *)

Section Loop.
Context (idx : Index).

Lemma pruneLoop_S fuel iteration model :
  pruneLoop idx (S fuel) iteration model =
    if (maxIterations <? iteration + 1)%nat then Some (model, Some errMaxIterations)
    else if (removedCount idx model <? 1)%nat then Some (pruneStep idx model, None)
    else pruneLoop idx fuel (iteration + 1) (pruneStep idx model).
Proof.
  unfold removedCount, pruneStep. simpl.
  by destruct (removeOrphanedComponents model (findOperationRefs idx model)).
Qed.

Lemma pruneIter_S n model :
  pruneIter idx (S n) model = pruneIter idx n (pruneStep idx model).
Proof. unfold pruneIter. by rewrite Nat.iter_succ_r. Qed.

Lemma pruneStep_fixed model : removedCount idx model = 0 -> pruneStep idx model = model.
Proof. apply removeOrphanedComponents_zero. Qed.

(** The loop returns at the first iteration that deletes nothing. *)
Lemma pruneLoop_stops n : forall fuel iteration model,
  (forall j, j < n -> 1 <= removedCount idx (pruneIter idx j model)) ->
  removedCount idx (pruneIter idx n model) = 0 ->
  iteration + n < maxIterations -> n < fuel ->
  pruneLoop idx fuel iteration model = Some (pruneIter idx n model, None).
Proof.
  induction n as [|n IH]; intros fuel iteration model Hpos Hzero Hcap Hfuel.
  - destruct fuel as [|fuel]; [lia|]. rewrite pruneLoop_S.
    rewrite (proj2 (Nat.ltb_ge _ _)) by lia. simpl in Hzero. rewrite Hzero. simpl.
    by rewrite pruneStep_fixed.
  - destruct fuel as [|fuel]; [lia|]. rewrite pruneLoop_S.
    rewrite (proj2 (Nat.ltb_ge _ _)) by lia.
    pose proof (Hpos 0 ltac:(lia)) as H0. simpl in H0.
    rewrite (proj2 (Nat.ltb_ge _ 1)) by lia.
    rewrite pruneIter_S. apply IH; [|by rewrite <- pruneIter_S|lia|lia].
    intros j Hj. rewrite <- pruneIter_S. apply Hpos. lia.
Qed.

(** When every iteration the cap allows has deleted something, the next
    entry of the loop returns the error. *)
Lemma pruneLoop_cap n : forall fuel iteration model,
  (forall j, j < n -> 1 <= removedCount idx (pruneIter idx j model)) ->
  iteration + n = maxIterations -> n < fuel ->
  pruneLoop idx fuel iteration model = Some (pruneIter idx n model, Some errMaxIterations).
Proof.
  induction n as [|n IH]; intros fuel iteration model Hpos Hcap Hfuel.
  - destruct fuel as [|fuel]; [lia|]. rewrite pruneLoop_S.
    by rewrite (proj2 (Nat.ltb_lt _ _)) by lia.
  - destruct fuel as [|fuel]; [lia|]. rewrite pruneLoop_S.
    rewrite (proj2 (Nat.ltb_ge _ _)) by lia.
    pose proof (Hpos 0 ltac:(lia)) as H0. simpl in H0.
    rewrite (proj2 (Nat.ltb_ge _ 1)) by lia.
    rewrite pruneIter_S. apply IH; [|lia|lia].
    intros j Hj. rewrite <- pruneIter_S. apply Hpos. lia.
Qed.

(** What a normal return of the loop says about the iterations made. *)
Lemma pruneLoop_ok fuel : forall iteration model model',
  pruneLoop idx fuel iteration model = Some (model', None) ->
  exists n, model' = pruneIter idx n model
    /\ removedCount idx model' = 0
    /\ forall j, j < n -> 1 <= removedCount idx (pruneIter idx j model).
Proof.
  induction fuel as [|fuel IH]; intros iteration model model'; [done|].
  rewrite pruneLoop_S. destruct (maxIterations <? iteration + 1)%nat; [done|].
  destruct (removedCount idx model <? 1)%nat eqn:E.
  - intros [= <-]. apply Nat.ltb_lt in E. exists 0.
    rewrite pruneStep_fixed by lia. split; [done|]. split; [lia|]. intros; lia.
  - intros H. apply IH in H as [n [-> [Hz Hpos]]]. apply Nat.ltb_ge in E.
    exists (S n). rewrite pruneIter_S. split; [done|]. split; [done|].
    intros [|j] Hj; [done|]. rewrite pruneIter_S. apply Hpos. lia.
Qed.

(** The loop ends within [maxIterations + 1] entries. *)
Lemma pruneLoop_total fuel : forall iteration model,
  maxIterations - iteration < fuel -> is_Some (pruneLoop idx fuel iteration model).
Proof.
  induction fuel as [|fuel IH]; intros iteration model Hf; [lia|].
  rewrite pruneLoop_S. destruct (maxIterations <? iteration + 1)%nat eqn:E; [done|].
  destruct (removedCount idx model <? 1)%nat; [done|].
  apply Nat.ltb_ge in E. apply IH. lia.
Qed.

(** The categories dropped before the loop stay dropped. *)
Lemma dropUngenerated_idem model :
  dropUngenerated (dropUngenerated model) = dropUngenerated model.
Proof. unfold dropUngenerated. by destruct (DComponents model). Qed.

Lemma dropUngenerated_pruneStep model :
  dropUngenerated model = model -> dropUngenerated (pruneStep idx model) = pruneStep idx model.
Proof.
  unfold pruneStep. rewrite removeOrphanedComponents_eq.
  destruct model as [w p [[sc pa rb rs hd ss cb ex lk]|]]; unfold dropUngenerated; simpl; [|done].
  by intros [= <- <- <- <- <-].
Qed.

Lemma dropUngenerated_pruneIter n model :
  dropUngenerated model = model ->
  dropUngenerated (pruneIter idx n model) = pruneIter idx n model.
Proof.
  intros H. induction n as [|n IH]; [done|]. simpl. by apply dropUngenerated_pruneStep.
Qed.

(** An iteration only removes components. *)
Lemma componentKeys_pruneStep model k key :
  key ∈ componentKeys k (pruneStep idx model) <->
  key ∈ componentKeys k model /\ componentRef k key ∈ findOperationRefs idx model.
Proof.
  unfold pruneStep. rewrite componentKeys_removeOrphaned. by rewrite Contains_elem_of.
Qed.

Lemma componentKeys_dropUngenerated model k :
  componentKeys k (dropUngenerated model) = componentKeys k model.
Proof. unfold componentKeys, dropUngenerated. simpl. by destruct (DComponents model), k. Qed.

(** A component missing after [n] iterations was deleted by one of them. *)
Lemma pruneIter_deleted n : forall model k key,
  key ∈ componentKeys k model -> key ∉ componentKeys k (pruneIter idx n model) ->
  exists j, j < n /\ key ∈ componentKeys k (pruneIter idx j model)
    /\ componentRef k key ∉ findOperationRefs idx (pruneIter idx j model).
Proof.
  induction n as [|n IH]; intros model k key Hin Hout; [done|].
  destruct (decide (key ∈ componentKeys k (pruneIter idx n model))) as [Hn|Hn].
  - exists n. split; [lia|]. split; [done|]. intros Href. apply Hout.
    simpl. by apply componentKeys_pruneStep.
  - destruct (IH model k key Hin Hn) as [j [Hj H]]. exists j. split; [lia|done].
Qed.
End Loop.

(** C8: pruning is idempotent.  On the document a successful run leaves,
    the first iteration of a second run deletes nothing, and the second run
    returns the same document without error. *)
Theorem pruneSchema_idempotent (doc doc' : LibDocument) :
  pruneSchema doc = Some (doc', None) ->
  exists m',
    BuildV3Model doc' = inr m'
    /\ removedCount (docIndex doc') (dropUngenerated m') = 0
    /\ pruneSchema doc' = Some (doc', None).
Proof.
  unfold pruneSchema. destruct (BuildV3Model doc) as [e|m0] eqn:Eb; [done|].
  destruct (pruneLoop _ _ _ _) as [[m' err]|] eqn:El; [|done].
  intros [= <- ->]. exists m'. cbn [BuildV3Model docIndex].
  apply pruneLoop_ok in El as [n [-> [Hz _]]].
  rewrite dropUngenerated_pruneIter by apply dropUngenerated_idem.
  split; [done|]. split; [done|].
  rewrite (pruneLoop_stops _ 0); [done|intros; lia|done|unfold maxIterations; lia|lia].
Qed.

Lemma pruneSchema_idempotent_witness :
  exists m',
    BuildV3Model cycleDoc = inr m'
    /\ removedCount (docIndex cycleDoc) (dropUngenerated m') = 0
    /\ pruneSchema cycleDoc = Some (cycleDoc, None).
Proof.
  apply (pruneSchema_idempotent cycleDoc cycleDoc). by vm_compute.
Defined.

(** The two ways out of the loop: it returns without error at the first
    iteration that deletes nothing, with the model that iteration found; and
    when each of the 1000 iterations the cap allows has deleted something,
    [pruneSchema] returns the error whose message states the cap, the cached
    model being the one the iterations made have left. *)
Lemma pruneSchema_stops_or_caps (doc : LibDocument) (m0 : Document) :
  BuildV3Model doc = inr m0 ->
  let idx := docIndex doc in
  let start := dropUngenerated m0 in
  let cached m := {| docIndex := idx; BuildV3Model := inr m |} in
  is_Some (pruneSchema doc)
  /\ (forall n, n < maxIterations ->
        (forall j, j < n -> 1 <= removedCount idx (pruneIter idx j start)) ->
        removedCount idx (pruneIter idx n start) = 0 ->
        pruneSchema doc = Some (cached (pruneIter idx n start), None))
  /\ ((forall j, j < maxIterations -> 1 <= removedCount idx (pruneIter idx j start)) ->
        pruneSchema doc
          = Some (cached (pruneIter idx maxIterations start), Some errMaxIterations))
  /\ maxIterations = 1000
  /\ errMaxIterations = "pruning exceeded maximum iterations (1000), possible infinite loop".
Proof.
  intros Hb idx start cached. unfold pruneSchema. rewrite Hb. fold idx start.
  split; [|split; [|split; [|split; reflexivity]]].
  - destruct (pruneLoop_total idx (S maxIterations) 0 start ltac:(lia)) as [[m e] ->]. done.
  - intros n Hn Hpos Hz. by rewrite (pruneLoop_stops idx n) by (done || lia).
  - intros Hpos. by rewrite (pruneLoop_cap idx maxIterations) by (done || lia).
Qed.

(** A chain of headers that needs more iterations than the cap allows. *)

Lemma unary_inj a b : unary a = unary b -> a = b.
Proof.
  revert b. induction a as [|a IH]; intros [|b]; simpl; try done.
  intros [= H]. f_equal. by apply IH.
Qed.

Lemma append_inj_l p a b : p +:+ a = p +:+ b -> a = b.
Proof. induction p as [|c p IH]; simpl; [done|]. intros [= H]. by apply IH. Qed.

Section Chain.
Let idx : Index := ∅.

Lemma chain_collect i rs :
  collectRefFromProxy idx (AHeader (chainHeader i).2) rs
    = {[componentRef KHeader (unary (S i))]} ∪ rs.
Proof.
  unfold collectRefFromProxy, collectHeader, recordRef, collectSchemaProxy, collectContent.
  cbn [chainHeader snd hReference hSchema hContent].
  by rewrite decide_False.
Qed.

Lemma chain_refSet n : forall j rs r,
  r ∈ foldl (fun rs kv => collectRefFromProxy idx (AHeader kv.2) rs) rs (headerChain n j)
  <-> r ∈ rs \/ exists i, j <= i < j + n /\ r = componentRef KHeader (unary (S i)).
Proof.
  induction n as [|n IH]; intros j rs r; cbn [headerChain foldl].
  - split; [by left|]. intros [?|(i & ? & _)]; [done|lia].
  - rewrite IH, chain_collect.
    rewrite elem_of_union, elem_of_singleton. split.
    + intros [[->|?]|(i & Hi & ->)]; [right; exists j; split; [lia|done]|by left|].
      right. exists i. split; [lia|done].
    + intros [?|(i & Hi & ->)]; [left; by right|].
      destruct (decide (i = j)) as [->|Hne]; [left; by left|].
      right. exists i. split; [lia|done].
Qed.

Lemma chain_refs n j r :
  r ∈ findOperationRefs idx (chainModel n j)
  <-> exists i, j <= i < j + n /\ r = componentRef KHeader (unary (S i)).
Proof.
  unfold findOperationRefs, operationRefSet, collectComponents, collectMap. simpl.
  rewrite Sort_elem_of, elem_of_elements, chain_refSet.
  split; [intros [?|?]; [set_solver|done]|by right].
Qed.

Lemma chain_kept n j i :
  kept (kindPrefix KHeader) (findOperationRefs idx (chainModel n j)) (chainHeader i) = true
  <-> j < i <= j + n.
Proof.
  unfold kept. rewrite Contains_elem_of.
  change (kindPrefix KHeader +:+ (chainHeader i).1) with (componentRef KHeader (unary i)).
  rewrite chain_refs. split.
  - intros (i' & Hi & E). apply append_inj_l, unary_inj in E. lia.
  - intros Hi. destruct i as [|i']; [lia|]. exists i'. split; [lia|done].
Qed.

Lemma chain_filter refs m : forall k,
  (forall i, k <= i < k + m -> kept (kindPrefix KHeader) refs (chainHeader i) = true) ->
  List.filter (kept (kindPrefix KHeader) refs) (headerChain m k) = headerChain m k
  /\ List.filter (fun kv => negb (kept (kindPrefix KHeader) refs kv)) (headerChain m k) = [].
Proof.
  induction m as [|m IH]; intros k Hk; [done|]. cbn [headerChain List.filter].
  rewrite (Hk k) by lia. cbn [negb].
  destruct (IH (S k)) as [-> ->]; [intros i Hi; apply Hk; lia|done].
Qed.

(** One iteration takes the head of the chain, and only it. *)
Lemma chain_step n j :
  removeOrphanedComponents (chainModel (S n) j) (findOperationRefs idx (chainModel (S n) j))
    = (1, chainModel n (S j)).
Proof.
  rewrite removeOrphanedComponents_eq. cbn -[findOperationRefs kindPrefix].
  set (refs := findOperationRefs idx (chainModel (S n) j)).
  destruct (kept (kindPrefix KHeader) refs (chainHeader j)) eqn:Ej.
  { apply chain_kept in Ej. lia. }
  cbn [negb].
  destruct (chain_filter refs n (S j)) as [-> ->]; [|done].
  intros i Hi. apply chain_kept. lia.
Qed.

Lemma chain_iter t : forall n j,
  pruneIter idx t (chainModel (t + n) j) = chainModel n (t + j).
Proof.
  induction t as [|t IH]; intros n j; [done|].
  rewrite pruneIter_S. unfold pruneStep.
  change (S t + n) with (S (t + n)). rewrite chain_step. simpl.
  rewrite IH. f_equal. lia.
Qed.

(** A chain of [maxIterations + 1] headers is not pruned within the cap. *)
Lemma chain_exceeds j :
  j < maxIterations ->
  1 <= removedCount idx (pruneIter idx j (dropUngenerated (chainModel (S maxIterations) 0))).
Proof.
  intros Hj. change (dropUngenerated (chainModel (S maxIterations) 0))
    with (chainModel (S maxIterations) 0).
  replace (S maxIterations) with (j + S (maxIterations - j)) by lia.
  rewrite chain_iter. unfold removedCount. by rewrite chain_step.
Qed.
End Chain.

(** ** What the collector records for certain *)

Section Direct.
Context (idx : Index).

Lemma records_nil f : (forall rs, rs ⊆ f rs) -> records f [].
Proof. intros H rs. split; [done|]. by intros r ?%elem_of_nil. Qed.

Lemma records_incl f D D' : records f D -> (forall r, r ∈ D' -> r ∈ D) -> records f D'.
Proof. intros Hf Hd rs. destruct (Hf rs) as [H1 H2]. split; [done|]. auto. Qed.

Lemma records_id : records (fun rs => rs) [].
Proof. by apply records_nil. Qed.

Lemma records_seq f g D1 D2 :
  records f D1 -> records g D2 -> records (fun rs => g (f rs)) (D1 ++ D2).
Proof.
  intros Hf Hg rs. destruct (Hf rs) as [Hf1 Hf2]. destruct (Hg (f rs)) as [Hg1 Hg2].
  split; [set_solver|]. intros r [?|?]%elem_of_app; [|by apply Hg2].
  apply Hg1. by apply Hf2.
Qed.

Lemma records_foldl {A} (step : gset string -> A -> gset string) (D : A -> list string) l :
  (forall x, records (fun rs => step rs x) (D x)) ->
  records (fun rs => foldl step rs l) (flat_map D l).
Proof.
  intros Hstep. induction l as [|x l IH]; simpl; [apply records_id|].
  apply (records_seq (fun rs => step rs x) (fun rs => foldl step rs l)); [apply Hstep|done].
Qed.

Lemma records_recordRef ref : records (recordRef ref) (refOf ref).
Proof.
  intros rs. unfold recordRef, refOf. case_decide.
  - split; [done|]. by intros r ?%elem_of_nil.
  - split; [set_solver|]. intros r ->%list_elem_of_singleton. set_solver.
Qed.

Lemma collectSchemaRefs_extensive s rs : rs ⊆ collectSchemaRefs idx s rs.
Proof.
  eapply collectSchemaRefs_fuel_extensive.
  by apply (collectSchemaRefs_fuel_enough idx s rs (fuelBound idx s)).
Qed.

Lemma records_collectSchemaProxy p : records (collectSchemaProxy idx p) (proxyDirect p).
Proof.
  intros rs. unfold collectSchemaProxy, proxyDirect.
  destruct p as [|c|r]; [apply records_id|..].
  all: destruct (records_recordRef (GetReference (ProxyInline c)) rs) as [H1 H2]
       || destruct (records_recordRef (GetReference (ProxyRef r)) rs) as [H1 H2].
  all: unfold recordRef in *.
  all: match goal with |- context [collectSchemaRefs idx ?s ?x] =>
         pose proof (collectSchemaRefs_extensive s x) end.
  all: split; [set_solver|]; intros r' Hr'; specialize (H2 r' Hr'); set_solver.
Qed.

Lemma records_collectContent c : records (collectContent idx c) (contentDirect c).
Proof.
  unfold collectContent, contentDirect. destruct c as [m|]; [|apply records_id].
  apply (records_foldl (fun rs kv => collectSchemaProxy idx (mtSchema kv.2) rs)
           (fun kv => proxyDirect (mtSchema kv.2))).
  intros x. apply records_collectSchemaProxy.
Qed.

Lemma records_collectHeader v : records (collectHeader idx v) (headerDirect v).
Proof.
  unfold collectHeader, headerDirect.
  apply (records_seq (recordRef (hReference v))
           (fun rs => collectContent idx (hContent v) (collectSchemaProxy idx (hSchema v) rs)));
    [apply records_recordRef|].
  apply (records_seq (collectSchemaProxy idx (hSchema v)) (collectContent idx (hContent v)));
    [apply records_collectSchemaProxy|apply records_collectContent].
Qed.

Lemma records_collectRefFromProxy proxy :
  records (collectRefFromProxy idx proxy) (anyDirect proxy).
Proof.
  destruct proxy as [v|v|v|v]; unfold collectRefFromProxy, anyDirect.
  - apply (records_seq (recordRef (pReference v))
             (fun rs => collectContent idx (pContent v) (collectSchemaProxy idx (pSchema v) rs)));
      [apply records_recordRef|].
    apply (records_seq (collectSchemaProxy idx (pSchema v)) (collectContent idx (pContent v)));
      [apply records_collectSchemaProxy|apply records_collectContent].
  - apply (records_seq (recordRef (rbReference v)) (collectContent idx (rbContent v)));
      [apply records_recordRef|apply records_collectContent].
  - apply (records_seq (recordRef (rReference v))
             (fun rs => match rHeaders v with
                        | Some hs => foldl (fun rs kv => collectHeader idx kv.2 rs)
                                       (collectContent idx (rContent v) rs) hs
                        | None => collectContent idx (rContent v) rs
                        end)); [apply records_recordRef|].
    destruct (rHeaders v) as [hs|].
    + apply (records_seq (collectContent idx (rContent v))
               (fun rs => foldl (fun rs kv => collectHeader idx kv.2 rs) rs hs));
        [apply records_collectContent|].
      apply (records_foldl (fun rs kv => collectHeader idx kv.2 rs)
               (fun kv => headerDirect kv.2)).
      intros x. apply records_collectHeader.
    + eapply records_incl; [apply records_collectContent|].
      intros r. by rewrite app_nil_r.
  - apply records_collectHeader.
Qed.

Lemma records_collectOperation op :
  records (collectOperation idx op) (operationDirect op).
Proof.
  unfold collectOperation, operationDirect.
  apply (records_seq
           (fun rs => match opRequestBody op with
                      | Some b => collectRefFromProxy idx (ARequestBody b) rs
                      | None => rs end)
           (fun rs => match opResponses op with
                      | Some rsp =>
                          foldl (fun acc kv => collectRefFromProxy idx (AResponse kv.2) acc)
                            match Default rsp with
                            | Some d => collectRefFromProxy idx (AResponse d)
                                (foldl (fun rs param => collectRefFromProxy idx (AParameter param) rs)
                                   rs (opParameters op))
                            | None => foldl (fun rs param => collectRefFromProxy idx (AParameter param) rs)
                                   rs (opParameters op)
                            end (Codes rsp)
                      | None => foldl (fun rs param => collectRefFromProxy idx (AParameter param) rs)
                                   rs (opParameters op)
                      end)).
  { destruct (opRequestBody op); [apply records_collectRefFromProxy|apply records_id]. }
  assert (records (fun rs => foldl (fun rs param => collectRefFromProxy idx (AParameter param) rs)
                               rs (opParameters op))
            (flat_map (fun param => anyDirect (AParameter param)) (opParameters op))) as Hp.
  { apply (records_foldl (fun rs param => collectRefFromProxy idx (AParameter param) rs)
             (fun param => anyDirect (AParameter param))).
    intros x. apply records_collectRefFromProxy. }
  destruct (opResponses op) as [rsp|].
  - apply (records_seq _ (fun rs =>
             foldl (fun acc kv => collectRefFromProxy idx (AResponse kv.2) acc)
               match Default rsp with
               | Some d => collectRefFromProxy idx (AResponse d) rs
               | None => rs
               end (Codes rsp)) _ _ Hp).
    apply (records_seq
             (fun rs => match Default rsp with
                        | Some d => collectRefFromProxy idx (AResponse d) rs
                        | None => rs end)
             (fun rs => foldl (fun acc kv => collectRefFromProxy idx (AResponse kv.2) acc)
                          rs (Codes rsp))).
    + destruct (Default rsp); [apply records_collectRefFromProxy|apply records_id].
    + apply (records_foldl (fun acc kv => collectRefFromProxy idx (AResponse kv.2) acc)
               (fun kv => anyDirect (AResponse kv.2))).
      intros x. apply records_collectRefFromProxy.
  - eapply records_incl; [apply Hp|]. intros r. by rewrite app_nil_r.
Qed.

Lemma records_collectPathItem item :
  records (collectPathItem idx item) (pathItemDirect item).
Proof.
  unfold collectPathItem, pathItemDirect.
  apply (records_seq
           (fun rs => foldl (fun rs param => collectRefFromProxy idx (AParameter param) rs)
                        rs (piParameters item))
           (fun rs => foldl (fun rs kv => collectOperation idx kv.2 rs) rs (piOperations item))).
  - apply (records_foldl (fun rs param => collectRefFromProxy idx (AParameter param) rs)
             (fun param => anyDirect (AParameter param))).
    intros x. apply records_collectRefFromProxy.
  - apply (records_foldl (fun rs kv => collectOperation idx kv.2 rs)
             (fun kv => operationDirect kv.2)).
    intros x. apply records_collectOperation.
Qed.

Lemma collectMap_extensive {V} (f : V -> gset string -> gset string) m rs :
  (forall v x, x ⊆ f v x) -> rs ⊆ collectMap f m rs.
Proof.
  intros Hf. unfold collectMap. destruct m as [om|]; [|done].
  revert rs. induction om as [|kv om IH]; intros rs; simpl; [done|].
  etrans; [apply (Hf kv.2)|apply IH].
Qed.

Lemma collectComponents_extensive c rs : rs ⊆ collectComponents idx c rs.
Proof.
  assert (forall proxy x, x ⊆ collectRefFromProxy idx proxy x) as Hany
    by (intros; apply records_collectRefFromProxy).
  assert (forall v x, x ⊆ collectComponentSchema idx v x) as Hs.
  { intros v x. unfold collectComponentSchema. destruct v; [done|..].
    all: etrans; [|apply collectSchemaRefs_extensive]; apply records_recordRef. }
  unfold collectComponents.
  etrans; [apply (collectMap_extensive (fun v => collectRefFromProxy idx (AParameter v))
                    (Parameters c)); intros; apply Hany|].
  etrans; [apply (collectMap_extensive (fun v => collectRefFromProxy idx (ARequestBody v))
                    (RequestBodies c)); intros; apply Hany|].
  etrans; [apply (collectMap_extensive (fun v => collectRefFromProxy idx (AResponse v))
                    (CResponses c)); intros; apply Hany|].
  etrans; [apply (collectMap_extensive (fun v => collectRefFromProxy idx (AHeader v))
                    (Headers c)); intros; apply Hany|].
  by apply collectMap_extensive.
Qed.

(** What is written directly on an operation is in the set collected. *)
Lemma operationsDirect_collected model r :
  r ∈ operationsDirect model -> r ∈ findOperationRefs idx model.
Proof.
  unfold operationsDirect, findOperationRefs, operationRefSet.
  destruct (DPaths model) as [[[items|]]|]; [|by intros ?%elem_of_nil..].
  intros Hr. apply Sort_elem_of, elem_of_elements.
  assert (r ∈ foldl (fun rs kv => collectPathItem idx kv.2 rs) ∅ items) as Hin.
  { apply (records_foldl (fun rs kv => collectPathItem idx kv.2 rs)
             (fun kv => pathItemDirect kv.2) items); [|done].
    intros x. apply records_collectPathItem. }
  destruct (DComponents model) as [c|]; [|done].
  by apply collectComponents_extensive.
Qed.
End Direct.

(** An iteration leaves the operations as they are. *)
Lemma DPaths_pruneIter idx n model : DPaths (pruneIter idx n model) = DPaths model.
Proof.
  induction n as [|n IH]; [done|]. simpl. unfold pruneStep.
  rewrite removeOrphanedComponents_eq. by destruct (DComponents _).
Qed.

Lemma operationsDirect_pruneIter idx n model :
  operationsDirect (pruneIter idx n (dropUngenerated model)) = operationsDirect model.
Proof. unfold operationsDirect. by rewrite DPaths_pruneIter. Qed.

(** A component whose reference is written directly on an operation is
    there after any number of iterations. *)
Lemma pruneIter_direct idx n model k key :
  key ∈ componentKeys k model -> componentRef k key ∈ operationsDirect model ->
  key ∈ componentKeys k (pruneIter idx n (dropUngenerated model)).
Proof.
  intros Hk Hr. induction n as [|n IH]; simpl.
  - by rewrite componentKeys_dropUngenerated.
  - apply componentKeys_pruneStep. split; [done|].
    apply operationsDirect_collected. by rewrite operationsDirect_pruneIter.
Qed.

Lemma cycle_unreachable r : ~ Reachable (docIndex cycleDoc) cycleModel r.
Proof.
  induction 1 as [r Hr| |]; [|done..].
  vm_compute in Hr. by apply elem_of_nil in Hr.
Qed.


End PruneFacts.

(** * Properties of the filter engine *)
Module FilterFacts.
Import Go Filter.

Lemma Get_Delete_ne {V} k key (m : OrderedMap V) :
  k ≠ key -> Go.Get key (Delete k m) = Go.Get key m.
Proof.
  intros Hne. induction m as [|[k' v] m IH]; simpl; [done|].
  destruct (String.eqb_spec k' k) as [->|Hk]; simpl.
  - rewrite IH. by rewrite (proj2 (String.eqb_neq _ _) Hne).
  - by rewrite IH.
Qed.

Lemma filterProperties_required includeMode excludeMode filteredProps required props propName :
  Contains required propName = true ->
  Go.Get propName (filterProperties includeMode excludeMode filteredProps required props)
    = Go.Get propName props.
Proof.
  intros Hreq. unfold filterProperties.
  generalize (KeysFromOldest props). intros keys. revert props.
  induction keys as [|k keys IH]; intros props; simpl; [done|].
  rewrite IH. destruct (Contains required k) eqn:Ek; [done|].
  assert (k ≠ propName) as Hne by (intros ->; congruence).
  destruct (includeMode && negb (Contains filteredProps k)),
           (excludeMode && Contains filteredProps k);
    by rewrite ?Get_Delete_ne.
Qed.

Lemma filterSchemaProxy_required includeMode excludeMode propsFilter schemaName proxy
    schema props propName v :
  SchemaOf proxy = Some schema ->
  Properties schema = Some props ->
  Contains (Required schema) propName = true ->
  Go.Get propName props = Some v ->
  exists schema' props',
    SchemaOf (filterSchemaProxy includeMode excludeMode propsFilter schemaName proxy)
      = Some schema'
    /\ Properties schema' = Some props'
    /\ Required schema' = Required schema
    /\ Go.Get propName props' = Some v.
Proof.
  intros Hs Hp Hreq Hget. unfold filterSchemaProxy.
  destruct (propsFilter !! schemaName) as [filteredProps|]; [|by exists schema, props].
  rewrite Hs. destruct schema as [ps required]. simpl in *. subst ps.
  eexists _, _. repeat split. simpl. by rewrite filterProperties_required.
Qed.

(** C3: a property named in the schema's required list is never deleted by
    property filtering, whatever the configuration (include mode, exclude
    mode, or both): the schema keeps its place in the component table, its
    required list, and the property with its value. *)
Theorem required_property_never_deleted (model : Document) (cfg : FilterConfig)
    (schemas : OrderedMap SchemaProxy) (i : nat) (schemaName : string) (proxy : SchemaProxy)
    (schema : Schema) (props : OrderedMap Prune.SchemaProxy) (propName : string)
    (v : Prune.SchemaProxy) :
  DComponents model = Some {| Schemas := Some schemas |} ->
  schemas !! i = Some (schemaName, proxy) ->
  SchemaOf proxy = Some schema ->
  Properties schema = Some props ->
  Contains (Required schema) propName = true ->
  Go.Get propName props = Some v ->
  exists schemas' proxy' schema' props',
    DComponents (filterComponentSchemaProperties model cfg) = Some {| Schemas := Some schemas' |}
    /\ schemas' !! i = Some (schemaName, proxy')
    /\ SchemaOf proxy' = Some schema'
    /\ Properties schema' = Some props'
    /\ Required schema' = Required schema
    /\ Go.Get propName props' = Some v.
Proof.
  intros Hc Hi Hs Hp Hreq Hget. unfold filterComponentSchemaProperties. rewrite Hc.
  destruct ((0 <? size (SchemaProperties (Include cfg)))%nat
            || (0 <? size (SchemaProperties (Exclude cfg)))%nat) eqn:Emode.
  - destruct (filterSchemaProxy_required
                (0 <? size (SchemaProperties (Include cfg)))%nat
                (0 <? size (SchemaProperties (Exclude cfg)))%nat
                (if (0 <? size (SchemaProperties (Include cfg)))%nat
                 then SchemaProperties (Include cfg) else SchemaProperties (Exclude cfg))
                schemaName proxy schema props propName v Hs Hp Hreq Hget)
      as (schema' & props' & H1 & H2 & H3 & H4).
    eexists _, _, schema', props'. split; [reflexivity|].
    split; [|done]. rewrite list_lookup_fmap, Hi. reflexivity.
  - rewrite Hc. by exists schemas, proxy, schema, props.
Qed.

Lemma required_property_never_deleted_witness :
  exists schemas' proxy' schema' props',
    DComponents (filterComponentSchemaProperties petModel excludePetProps)
      = Some {| Schemas := Some schemas' |}
    /\ schemas' !! 0 = Some ("Pet", proxy')
    /\ SchemaOf proxy' = Some schema'
    /\ Properties schema' = Some props'
    /\ Required schema' = Required petSchema
    /\ Go.Get "x" props' = Some (Prune.ProxyInline Prune.leaf).
Proof.
  apply (required_property_never_deleted petModel excludePetProps
           [("Pet", {| SchemaOf := Some petSchema |})] 0 "Pet"
           {| SchemaOf := Some petSchema |} petSchema petProps "x"
           (Prune.ProxyInline Prune.leaf)); reflexivity.
Defined.

(** The example of the design document: [required = [x]] and both
    properties excluded leaves [x] and deletes [y]. *)
Example exclude_keeps_required :
  filterComponentSchemaProperties petModel excludePetProps
    = {| PathItems := Some [];
         DComponents := Some {| Schemas := Some
           [("Pet", {| SchemaOf := Some
               {| Properties := Some [("x", Prune.ProxyInline Prune.leaf)];
                  Required := ["x"] |} |})] |} |}.
Proof. by vm_compute. Qed.

(** The combination of the design document: with [Include.Tags = [a]] and
    [Exclude.Tags = [b]], an operation tagged [a] stays, one tagged [a] and
    [b] goes, and one tagged neither goes. *)
Example tags_combination :
  let cfg := {| Include := {| Paths := None; Tags := Some ["a"]; OperationIDs := None;
                              SchemaProperties := ∅ |};
                Exclude := {| Paths := None; Tags := Some ["b"]; OperationIDs := None;
                              SchemaProperties := ∅ |} |} in
  shouldRemove cfg {| opTags := ["a"]; OperationId := "one" |} = false
  /\ shouldRemove cfg {| opTags := ["a"; "b"]; OperationId := "two" |} = true
  /\ shouldRemove cfg {| opTags := ["c"]; OperationId := "three" |} = true.
Proof. by vm_compute. Qed.

(** C2 fails on the code: [filterOperations] tests [Include.Paths] and
    [Include.OperationIDs] against nil, not for emptiness.  With another
    axis set, an empty slice that is not nil deletes every path, or every
    operation; the same configuration with nil slices deletes nothing. *)
Lemma empty_include_axis_filters :
  filterOutDocument catModel emptyPathsCfg
    = Some {| PathItems := Some []; DComponents := None |}
  /\ filterOutDocument catModel emptyIdsCfg
      = Some {| PathItems := Some [("/cat", getOnly None)]; DComponents := None |}
  /\ filterOutDocument catModel nilAxesCfg = Some catModel
  /\ filterOperations catModel emptyPathsCfg
      = Some {| PathItems := Some []; DComponents := None |}.
Proof. repeat split; by vm_compute. Qed.

(** With both path slices nil no path is deleted. *)
Lemma pathDeleted_nil cfg path :
  Paths (Include cfg) = None -> Paths (Exclude cfg) = None -> pathDeleted cfg path = false.
Proof. intros Hi He. unfold pathDeleted. by rewrite Hi, He. Qed.

(** An empty include slice that is not nil deletes every path. *)
Lemma pathDeleted_empty_include cfg path :
  Paths (Include cfg) = Some [] -> pathDeleted cfg path = true.
Proof. intros Hi. unfold pathDeleted. by rewrite Hi. Qed.

End FilterFacts.

(** * Properties of the union synthesizer *)
Module UnionFacts.
Import Go Union.

Section Synthesis.
Context `{G : Generator}.

Lemma nameMember_discriminator elementPath ref reg out es reg' out' es' :
  nameMember elementPath ref reg out es = (reg', out', es') ->
  GDiscriminator out' = GDiscriminator out.
Proof.
  unfold nameMember. destruct (_ && _); [|by intros [= _ <- _]].
  destruct (negb _); by intros [= _ <- _].
Qed.

Lemma unionStep_discriminator d options st i e st' :
  sameDiscriminatorHead d (lsOut st) ->
  unionStep (Some d) options st i e = inr st' ->
  sameDiscriminatorHead d (lsOut st').
Proof.
  intros [m Hm]. unfold unionStep.
  destruct (GenerateGoSchema e _ _) as [reg [es [err|]]]; [done|].
  destruct (nameMember _ _ _ _ _) as [[reg1 out1] es1] eqn:En.
  apply nameMember_discriminator in En. unfold mapMember.
  destruct (_ && _); [done|]. intros [= <-]. unfold sameDiscriminatorHead. cbn.
  rewrite En, Hm. by eexists.
Qed.

Lemma unionLoop_discriminator d options elements : forall st i st',
  sameDiscriminatorHead d (lsOut st) ->
  unionLoop (Some d) options st i elements = inr st' ->
  sameDiscriminatorHead d (lsOut st').
Proof.
  induction elements as [|e elements IH]; simpl; intros st i st' Hd.
  - by intros [= <-].
  - destruct (unionStep _ _ _ _ _) as [?|st1] eqn:E; [done|].
    apply IH. by eapply unionStep_discriminator.
Qed.

(** A member without a reference under a discriminator with an explicit
    mapping ends the step with an error: its own, or the ambiguous one. *)
Lemma unionStep_ambiguous d options st i e :
  BMapping d ≠ [] -> Reference e = "" ->
  exists reg err,
    unionStep (Some d) options st i e = inl (reg, err)
    /\ (snd (snd (GenerateGoSchema e (memberOptions options i e) (lsRegistry st))) = None ->
        err = ErrAmbiguousDiscriminatorMapping).
Proof.
  intros Hm Hr. unfold unionStep.
  destruct (GenerateGoSchema e _ _) as [reg [es [err|]]]; cbn [snd].
  - exists reg, err. split; [done|]. by intros ?.
  - destruct (nameMember _ _ _ _ _) as [[reg1 out1] es1]. unfold mapMember.
    rewrite Hr. destruct (BMapping d); [done|]. cbn. by eexists _, _.
Qed.

(** An error of the step is the member's own or the ambiguous one. *)
Lemma unionStep_error d options st i e reg err :
  unionStep (Some d) options st i e = inl (reg, err) ->
  snd (snd (GenerateGoSchema e (memberOptions options i e) (lsRegistry st))) = None ->
  err = ErrAmbiguousDiscriminatorMapping.
Proof.
  unfold unionStep.
  destruct (GenerateGoSchema e _ _) as [reg0 [es [err0|]]]; cbn [snd]; [done|].
  destruct (nameMember _ _ _ _ _) as [[reg1 out1] es1]. unfold mapMember.
  destruct (_ && _); [|done]. by intros [= _ <-].
Qed.

Lemma unionLoop_ambiguous d options elements : forall st i,
  BMapping d ≠ [] -> (exists e, e ∈ elements /\ Reference e = "") ->
  exists reg err,
    unionLoop (Some d) options st i elements = inl (reg, err)
    /\ (membersSynthesize elements -> err = ErrAmbiguousDiscriminatorMapping).
Proof.
  induction elements as [|e elements IH]; intros st i Hm [x [Hx Hr]].
  - by apply elem_of_nil in Hx.
  - simpl. destruct (unionStep (Some d) options st i e) as [[reg err]|st1] eqn:E.
    + exists reg, err. split; [done|]. intros Hs.
      eapply unionStep_error; [done|]. apply Hs. left.
    + apply elem_of_cons in Hx as [->|Hx].
      * destruct (unionStep_ambiguous d options st i e Hm Hr) as (reg & err & E' & _).
        congruence.
      * destruct (IH st1 (S i) Hm) as (reg & err & E' & He); [by exists x|].
        exists reg, err. split; [done|]. intros Hs. apply He.
        intros e' o r He'. apply Hs. by right.
Qed.

(** An element that is exactly the null type is a proxy whose schema has
    the one type [null]. *)
Lemma isNullType_true x :
  isNullType x = true ->
  exists p, x = Some p /\ SchemaOf p = Some {| Type_ := ["null"] |}.
Proof.
  destruct x as [[lr r [[[|t [|t' ts]]]|]]|]; simpl; try done.
  intros Ht. apply String.eqb_eq in Ht as ->. by eexists.
Qed.

Lemma filterNull_null p l :
  SchemaOf p = Some {| Type_ := ["null"] |} ->
  filterNull (Some p :: l) = (fst (filterNull l), true).
Proof. intros Hp. simpl. rewrite Hp. by destruct (filterNull l). Qed.

Lemma filterNull_member p s l :
  SchemaOf p = Some s -> isNullType (Some p) = false ->
  filterNull (Some p :: l) = (p :: fst (filterNull l), snd (filterNull l)).
Proof.
  intros Hp Hn. simpl. rewrite Hp. destruct (filterNull l) as [nn hn].
  destruct p as [lr r sc]. simpl in *. subst sc.
  destruct s as [[|t [|t' ts]]]; simpl in *; try done.
  by rewrite Hn.
Qed.

Lemma filterNull_all_null l :
  List.filter (fun x => negb (isNullType x)) l = [] ->
  filterNull l = ([], (0 <? length l)%nat).
Proof.
  induction l as [|x l IH]; [done|]. cbn [List.filter].
  destruct (isNullType x) eqn:Ex; [|done]. cbn [negb]. intros Hl.
  apply isNullType_true in Ex as [p [-> Hp]].
  by rewrite (filterNull_null p l Hp), (IH Hl).
Qed.

(** The first loop of [generateUnion], against the wording of the design:
    when what is left after taking the null members away is one member
    with a schema, that member is what the loop keeps, and it has seen a
    null member if there was another element at all. *)
Lemma filterNull_single elements e :
  List.filter (fun x => negb (isNullType x)) elements = [Some e] ->
  is_Some (SchemaOf e) ->
  filterNull elements = ([e], (1 <? length elements)%nat).
Proof.
  intros Hf [s Hs]. induction elements as [|x l IH]; [done|].
  cbn [List.filter] in Hf. destruct (isNullType x) eqn:Ex; cbn [negb] in Hf.
  - apply isNullType_true in Ex as [p [-> Hp]].
    rewrite (filterNull_null p l Hp), (IH Hf). simpl. by destruct l.
  - injection Hf as -> Hl.
    rewrite (filterNull_member e s l Hs Ex), (filterNull_all_null l Hl). simpl.
    by destruct l.
Qed.

(** Without an explicit mapping the member loop has no ambiguous-mapping
    return: when the members' own synthesis does not fail it runs to its
    end. *)
Lemma unionLoop_implicit d options elements : forall st i,
  BMapping d = [] -> membersSynthesize elements ->
  exists st', unionLoop (Some d) options st i elements = inr st'.
Proof.
  induction elements as [|e elements IH]; intros st i Hm Hs; simpl; [by eexists|].
  assert (exists st1, unionStep (Some d) options st i e = inr st1) as [st1 ->].
  { unfold unionStep.
    pose proof (Hs e (memberOptions options i e) (lsRegistry st) ltac:(left)) as Hok.
    destruct (GenerateGoSchema e _ _) as [reg [es [err|]]]; [done|].
    destruct (nameMember _ _ _ _ _) as [[reg1 out1] es1]. unfold mapMember.
    rewrite Hm. by eexists. }
  apply IH; [done|]. intros e' o r He'. apply Hs. by right.
Qed.

End Synthesis.

Lemma filterNull_length elements :
  length (fst (filterNull elements)) <= length elements.
Proof.
  induction elements as [|x l IH]; simpl; [done|].
  destruct (filterNull l) as [nn hn]. simpl in IH.
  destruct x as [[lr r [s|]]|]; simpl; try lia.
  destruct (_ && _); simpl; lia.
Qed.

(** With two elements or more the single-member shortcut is not taken. *)
Lemma generateUnion_many `{G : Generator} elements discriminator options reg :
  length elements ≠ 1 ->
  generateUnion elements discriminator options reg =
    let '(nonNullElements, hasNull) := filterNull elements in
    match nonNullElements with
    | [e] =>
        let '(reg, (schema, err)) :=
          GenerateGoSchema e (WithReference options (GoLowReference e)) reg in
        match err with
        | Some err => Some (reg, (zeroGoSchema, Some err))
        | None =>
            Some (reg, (if hasNull then setNullable schema (Some true) else schema, None))
        end
    | _ =>
        match
          unionLoop discriminator options
            {| lsRegistry := reg; lsOut := initialOut discriminator |} 0 nonNullElements
        with
        | inl (reg, err) => Some (reg, (zeroGoSchema, Some err))
        | inr st =>
            let outSchema :=
              setUnionElements (lsOut st)
                (deduplicateUnionElements (UnionElements (lsOut st))) in
            match mappingSize outSchema with
            | Some n =>
                if negb (n =? length nonNullElements)%nat
                then Some (lsRegistry st, (zeroGoSchema, Some ErrDiscriminatorNotAllMapped))
                else Some (lsRegistry st, (outSchema, None))
            | None => Some (lsRegistry st, (outSchema, None))
            end
        end
    end.
Proof.
  intros Hl. unfold generateUnion.
  destruct elements as [|x [|y l]]; [done| |by destruct x].
  by destruct Hl.
Qed.

(** C6: for a union of two members or more of which one is left once the
    members that are exactly the null type are taken away, [generateUnion]
    returns that member's own synthesis (its error when it fails), marked
    nullable: the type, the additional types and the tracker are the
    member's own, so no wrapper and no further type definition is made. *)
Theorem union_optional_collapse `{G : Generator} (elements : list (option SchemaProxy))
    (discriminator : option BaseDiscriminator) (options : ParseOptions) (reg : Registry)
    (e : SchemaProxy) :
  2 <= length elements ->
  List.filter (fun x => negb (isNullType x)) elements = [Some e] ->
  is_Some (SchemaOf e) ->
  let member := GenerateGoSchema e (WithReference options (GoLowReference e)) reg in
  let own := fst (snd member) in
  generateUnion elements discriminator options reg
    = Some (fst member,
            match snd (snd member) with
            | Some err => (zeroGoSchema, Some err)
            | None => (setNullable own (Some true), None)
            end)
  /\ GoType (setNullable own (Some true)) = GoType own
  /\ AdditionalTypes (setNullable own (Some true)) = AdditionalTypes own
  /\ Nullable (setNullable own (Some true)) = Some true.
Proof.
  intros Hlen Hf Hs member own. split; [|done].
  rewrite generateUnion_many by lia.
  rewrite (filterNull_single elements e Hf Hs).
  rewrite (proj2 (Nat.ltb_lt _ _)) by lia.
  subst own member. by destruct (GenerateGoSchema e _ reg) as [reg' [schema [err|]]].
Qed.

Lemma union_optional_collapse_witness :
  generateUnion (G := demoGenerator) stringOrNull None ["Pet"] []
    = Some ([], ({| GoType := "string"; GDiscriminator := None; UnionElements := [];
                    AdditionalTypes := []; Nullable := Some true |}, None)).
Proof.
  refine (proj1 (union_optional_collapse (G := demoGenerator) stringOrNull None ["Pet"] []
   (inlineProxy "string") _ _ _)).
  - simpl. lia.
  - reflexivity.
  - by eexists.
Defined.

(** An explicit mapping that names two of the three members is completed by
    the implicit key of the third, and the union is returned. *)
Example explicit_two_of_three :
  snd <$> generateUnion (G := demoGenerator) threePets
            (Some {| PropertyName := "petType";
                     BMapping := [("cat", "#/components/schemas/Cat");
                                  ("dog", "#/components/schemas/Dog")] |}) ["Pet"] []
    = Some ({| GoType := "";
               GDiscriminator := Some {| Property := "petType";
                 Mapping := {[ "cat" := "Cat"; "dog" := "Dog"; "Fox" := "Fox" ]} |};
               UnionElements := ["Cat"; "Dog"; "Fox"];
               AdditionalTypes := []; Nullable := None |}, None).
Proof. by vm_compute. Qed.

(** Under a discriminator without explicit mapping, a union of members whose
    own synthesis does not fail is returned, or refused as incompletely
    mapped; it is never refused as ambiguous. *)
Lemma union_implicit_mapping `{G : Generator} elements d options reg :
  BMapping d = [] ->
  length elements ≠ 1 -> length (fst (filterNull elements)) ≠ 1 ->
  membersSynthesize (fst (filterNull elements)) ->
  exists reg' out err,
    generateUnion elements (Some d) options reg = Some (reg', (out, err))
    /\ (err = None \/ err = Some ErrDiscriminatorNotAllMapped).
Proof.
  intros Hm Hlen Hnn Hs. rewrite generateUnion_many by done.
  destruct (filterNull elements) as [nonNull hasNull]. simpl in Hnn, Hs.
  destruct (unionLoop_implicit d options nonNull
              {| lsRegistry := reg; lsOut := initialOut (Some d) |} 0 Hm Hs) as [st Hloop].
  destruct nonNull as [|x [|y l]]; [|done|]; rewrite Hloop; cbn zeta.
  all: destruct (mappingSize _) as [n|]; [destruct (negb _)|].
  all: eexists _, _, _; (split; [reflexivity|]); auto.
Qed.

(** C4 as stated fails: under a discriminator without explicit mapping, the
    union of a referenced member and an inline member is synthesized, the
    inline member being mapped under the implicit key of the empty
    reference. *)
Lemma refusesUnreferenced_fails :
  ~ refusesUnreferenced (G := demoGenerator) catOrInline implicitPet ["Pet"] []
  /\ snd <$> generateUnion (G := demoGenerator) catOrInline (Some implicitPet) ["Pet"] []
     = Some ({| GoType := "";
                GDiscriminator := Some {| Property := "petType";
                  Mapping := {[ "Cat" := "Cat"; "" := "Pet_1" ]} |};
                UnionElements := ["Cat"; "Pet_1"];
                AdditionalTypes :=
                  [{| tdSchema := {| GoType := "object"; GDiscriminator := None;
                                     UnionElements := []; AdditionalTypes := [];
                                     Nullable := None |};
                      Name := "Pet_1"; SpecLocation := "union"; JsonName := "-";
                      NeedsMarshaler := false |}];
                Nullable := None |}, None).
Proof.
  split; [|by vm_compute].
  intros H.
  destruct (H (inlineProxy "object")) as [reg' E].
  - simpl. lia.
  - right. left.
  - reflexivity.
  - vm_compute in E. discriminate E.
Qed.

End UnionFacts.

(** * Further properties of the pruner *)
Module PruneLaws.
Import Go Prune PruneFacts PruneSupport.
Local Open Scope list_scope.
#[local] Set Warnings "-clear-no-such-hyp".

(** ** The order of the collected references *)

Lemma string_compare_trans_le : forall a b c,
  String.compare a b <> Gt -> String.compare b c <> Gt -> String.compare a c <> Gt.
Proof.
  induction a as [|x a IH]; intros [|y b] [|z c]; simpl; try done.
  unfold Ascii.compare.
  destruct (N.compare_spec (Ascii.N_of_ascii x) (Ascii.N_of_ascii y)) as [Hxy|Hxy|Hxy];
  destruct (N.compare_spec (Ascii.N_of_ascii y) (Ascii.N_of_ascii z)) as [Hyz|Hyz|Hyz];
  destruct (N.compare_spec (Ascii.N_of_ascii x) (Ascii.N_of_ascii z)) as [Hxz|Hxz|Hxz];
  try done; try lia.
  apply IH.
Qed.

Lemma string_le_compare a b : string_le a b <-> String.compare a b <> Gt.
Proof. unfold string_le, String.leb. by destruct (String.compare a b). Qed.

Lemma string_le_trans : Transitive string_le.
Proof.
  intros a b c. rewrite !string_le_compare. apply string_compare_trans_le.
Qed.

Lemma string_le_total : Total string_le.
Proof. intros a b. apply String.leb_total. Qed.

(** X1: [findOperationRefs] returns the collected references in ascending
    byte order ([slices.Sort]) and without duplicates, and its members are
    exactly the members of the set the collector built; on a document
    without paths it has no member. *)
Theorem findOperationRefs_sorted (idx : Index) (model : Document) :
  StronglySorted string_le (findOperationRefs idx model)
  /\ NoDup (findOperationRefs idx model)
  /\ forall r, r ∈ findOperationRefs idx model
       <-> exists refSet, operationRefSet idx model = Some refSet /\ r ∈ refSet.
Proof.
  unfold findOperationRefs. destruct (operationRefSet idx model) as [rs|].
  - split; [apply StronglySorted_merge_sort; [apply string_le_trans|apply string_le_total]|].
    split.
    + unfold Sort. rewrite merge_sort_Permutation. apply NoDup_elements.
    + intros r. rewrite Sort_elem_of, elem_of_elements. split.
      * intros ?. by exists rs.
      * by intros [? [[= <-] ?]].
  - split; [constructor|]. split; [constructor|].
    intros r. split; [by intros ?%elem_of_nil|by intros [? [? _]]].
Qed.

(** ** Deleting orphans, counted *)

Section OrphansMore.
Context {V : Type} (prefix : string) (refs : list string).

Lemma keepMap_length (m : option (OrderedMap V)) :
  length (optKeys m) = orphanCount prefix refs m + length (optKeys (keepMap prefix refs m)).
Proof.
  destruct m as [om|]; simpl; [|done]. unfold KeysFromOldest. rewrite !length_fmap.
  induction om as [|kv om IH]; simpl; [done|].
  destruct (kept prefix refs kv); simpl; lia.
Qed.

Lemma keepMap_keepMap (m : option (OrderedMap V)) :
  keepMap prefix refs (keepMap prefix refs m) = keepMap prefix refs m.
Proof.
  destruct m as [om|]; simpl; [|done]. f_equal.
  induction om as [|kv om IH]; simpl; [done|].
  destruct (kept prefix refs kv) eqn:E; simpl; [|done]. by rewrite E, IH.
Qed.

Lemma orphanCount_keepMap (m : option (OrderedMap V)) :
  orphanCount prefix refs (keepMap prefix refs m) = 0.
Proof.
  destruct m as [om|]; simpl; [|done].
  induction om as [|kv om IH]; simpl; [done|].
  destruct (kept prefix refs kv) eqn:E; simpl; [|done]. by rewrite E.
Qed.

Lemma keepMap_keptIn (m : option (OrderedMap V)) : keptIn (keepMap prefix refs m) m.
Proof.
  destruct m as [om|]; simpl; [|done].
  induction om as [|kv om IH]; simpl; [constructor|].
  destruct (kept prefix refs kv); [by apply sublist_skip|by apply sublist_cons].
Qed.

End OrphansMore.

Lemma keptIn_refl {V} (m : option (OrderedMap V)) : keptIn m m.
Proof. destruct m; simpl; done. Qed.

Lemma keptIn_trans {V} (a b c : option (OrderedMap V)) : keptIn a b -> keptIn b c -> keptIn a c.
Proof.
  destruct a, b, c; simpl; try done. intros. by etrans.
Qed.

(** X2: the count [removeOrphanedComponents] returns is the number of
    components that are gone: the components before are those after plus the
    count, over the five kinds. *)
Theorem removeOrphanedComponents_count (model : Document) (refs : list string) :
  componentCount model
  = fst (removeOrphanedComponents model refs)
    + componentCount (snd (removeOrphanedComponents model refs)).
Proof.
  rewrite removeOrphanedComponents_eq. unfold componentCount, componentKeys.
  destruct (DComponents model) as [c|] eqn:Ec; simpl; [|by rewrite Ec].
  rewrite (keepMap_length (kindPrefix KSchema) refs (Schemas c)).
  rewrite (keepMap_length (kindPrefix KParameter) refs (Parameters c)).
  rewrite (keepMap_length (kindPrefix KRequestBody) refs (RequestBodies c)).
  rewrite (keepMap_length (kindPrefix KResponse) refs (CResponses c)).
  rewrite (keepMap_length (kindPrefix KHeader) refs (Headers c)).
  unfold kindPrefix. lia.
Qed.

(** X3: deleting orphans twice against the same references deletes nothing
    the second time: the count is 0 and the model is unchanged. *)
Theorem removeOrphanedComponents_idempotent (model : Document) (refs : list string) :
  removeOrphanedComponents (snd (removeOrphanedComponents model refs)) refs
  = (0, snd (removeOrphanedComponents model refs)).
Proof.
  rewrite !removeOrphanedComponents_eq.
  destruct (DComponents model) as [c|] eqn:Ec; simpl; [|by rewrite Ec].
  rewrite !orphanCount_keepMap, !keepMap_keepMap. done.
Qed.

(** ** The loop only deletes *)

Section LoopMore.
Context (idx : Index).

Lemma componentCount_pruneStep model :
  componentCount model = removedCount idx model + componentCount (pruneStep idx model).
Proof.
  unfold removedCount, pruneStep. rewrite removeOrphanedComponents_eq.
  unfold componentCount, componentKeys.
  destruct (DComponents model) as [c|] eqn:Ec; simpl; [|by rewrite Ec].
  rewrite (keepMap_length (kindPrefix KSchema) (findOperationRefs idx model) (Schemas c)).
  rewrite (keepMap_length (kindPrefix KParameter) (findOperationRefs idx model) (Parameters c)).
  rewrite (keepMap_length (kindPrefix KRequestBody) (findOperationRefs idx model)
             (RequestBodies c)).
  rewrite (keepMap_length (kindPrefix KResponse) (findOperationRefs idx model) (CResponses c)).
  rewrite (keepMap_length (kindPrefix KHeader) (findOperationRefs idx model) (Headers c)).
  unfold kindPrefix. lia.
Qed.

Lemma pruneLoop_small fuel : forall iteration model,
  componentCount model + iteration < maxIterations -> componentCount model < fuel ->
  exists model', pruneLoop idx fuel iteration model = Some (model', None).
Proof.
  induction fuel as [|fuel IH]; intros iteration model Hc Hf; [lia|].
  rewrite pruneLoop_S. rewrite (proj2 (Nat.ltb_ge _ _)) by lia.
  destruct (removedCount idx model <? 1)%nat eqn:E; [by eexists|].
  apply Nat.ltb_ge in E. pose proof (componentCount_pruneStep model).
  apply IH; lia.
Qed.

Lemma pruneLoop_iter fuel : forall iteration model model' err,
  pruneLoop idx fuel iteration model = Some (model', err) ->
  exists n, model' = pruneIter idx n model.
Proof.
  induction fuel as [|fuel IH]; intros iteration model model' err; [done|].
  rewrite pruneLoop_S. destruct (maxIterations <? iteration + 1)%nat.
  { intros [= <- _]. by exists 0. }
  destruct (removedCount idx model <? 1)%nat.
  { intros [= <- _]. by exists 1. }
  intros H. apply IH in H as [n ->]. exists (S n). by rewrite pruneIter_S.
Qed.

Lemma modelKeptIn_refl m : modelKeptIn m m.
Proof.
  unfold modelKeptIn. destruct (DComponents m); [|done].
  repeat split; apply keptIn_refl.
Qed.

Lemma modelKeptIn_trans a b c : modelKeptIn a b -> modelKeptIn b c -> modelKeptIn a c.
Proof.
  unfold modelKeptIn, componentsKeptIn.
  destruct (DComponents a), (DComponents b), (DComponents c); try done.
  intros (?&?&?&?&?) (?&?&?&?&?). repeat split; by eapply keptIn_trans.
Qed.

Lemma modelKeptIn_pruneStep model : modelKeptIn (pruneStep idx model) model.
Proof.
  unfold pruneStep. rewrite removeOrphanedComponents_eq. unfold modelKeptIn.
  destruct (DComponents model) as [c|] eqn:Ec; simpl; [|by rewrite Ec].
  repeat split; apply keepMap_keptIn.
Qed.

Lemma modelKeptIn_pruneIter n model : modelKeptIn (pruneIter idx n model) model.
Proof.
  induction n as [|n IH]; [apply modelKeptIn_refl|].
  simpl. eapply modelKeptIn_trans; [apply modelKeptIn_pruneStep|exact IH].
Qed.

Lemma modelKeptIn_dropUngenerated model : modelKeptIn (dropUngenerated model) model.
Proof.
  unfold modelKeptIn, dropUngenerated. simpl. destruct (DComponents model); [|done].
  repeat split; apply keptIn_refl.
Qed.

Lemma findOperationRefs_no_paths model :
  DPaths model = None \/ DPaths model = Some {| PathItems := None |} ->
  findOperationRefs idx model = [].
Proof.
  unfold findOperationRefs, operationRefSet. by intros [->| ->].
Qed.

Lemma componentKeys_no_paths model k :
  findOperationRefs idx model = [] -> componentKeys k (pruneStep idx model) = [].
Proof.
  intros H. apply elem_of_nil_inv. intros key [_ Hk]%componentKeys_pruneStep.
  rewrite H in Hk. by apply elem_of_nil in Hk.
Qed.
End LoopMore.

(** X4: on a document with fewer named components than the cap of 1000
    iterations, [pruneSchema] returns without error: every iteration but the
    last deletes a component, so the cap cannot be reached. *)
Theorem pruneSchema_small_document (doc : LibDocument) (m0 : Document) :
  BuildV3Model doc = inr m0 -> componentCount m0 < maxIterations ->
  exists doc', pruneSchema doc = Some (doc', None).
Proof.
  intros Hb Hc. unfold pruneSchema. rewrite Hb.
  destruct (pruneLoop_small (docIndex doc) (S maxIterations) 0 (dropUngenerated m0))
    as [m' ->]; [| |by eexists].
  - unfold componentCount in *. rewrite !componentKeys_dropUngenerated. lia.
  - unfold componentCount in *. rewrite !componentKeys_dropUngenerated. lia.
Qed.

Lemma pruneSchema_small_document_witness :
  exists doc', pruneSchema skipDoc = Some (doc', None).
Proof.
  apply (pruneSchema_small_document skipDoc skipModel); [reflexivity|].
  vm_compute. lia.
Defined.

(** X5: on a document without paths ([Paths] or [Paths.PathItems] nil)
    [findOperationRefs] returns early with no reference, so [pruneSchema]
    deletes every named component, also those that refer to each other, and
    returns without error. *)
Theorem pruneSchema_without_paths (doc : LibDocument) (m0 : Document) :
  BuildV3Model doc = inr m0 ->
  DPaths m0 = None \/ DPaths m0 = Some {| PathItems := None |} ->
  exists m',
    pruneSchema doc = Some ({| docIndex := docIndex doc; BuildV3Model := inr m' |}, None)
    /\ forall k, componentKeys k m' = [].
Proof.
  intros Hb Hp. unfold pruneSchema. rewrite Hb.
  set (idx := docIndex doc). set (start := dropUngenerated m0).
  assert (Hrefs : forall n, findOperationRefs idx (pruneIter idx n start) = []).
  { intros n. apply findOperationRefs_no_paths. by rewrite DPaths_pruneIter. }
  assert (Hz : removedCount idx (pruneStep idx start) = 0).
  { pose proof (componentCount_pruneStep idx (pruneStep idx start)) as Hc.
    unfold componentCount in Hc at 1.
    rewrite !componentKeys_no_paths in Hc by apply (Hrefs 0). simpl in Hc. lia. }
  destruct (removedCount idx start) as [|c] eqn:E.
  - exists start. rewrite (pruneLoop_stops idx 0); [|intros; lia|done|unfold maxIterations; lia|lia].
    split; [done|]. intros k. rewrite <- (pruneStep_fixed idx start E).
    apply componentKeys_no_paths, (Hrefs 0).
  - exists (pruneStep idx start).
    rewrite (pruneLoop_stops idx 1); [| |done|unfold maxIterations; lia..].
    + split; [done|]. intros k. apply componentKeys_no_paths, (Hrefs 0).
    + intros j Hj. assert (j = 0) as -> by lia. simpl. lia.
Qed.

Lemma pruneSchema_without_paths_witness :
  exists m',
    pruneSchema noPathsDoc
      = Some ({| docIndex := docIndex noPathsDoc; BuildV3Model := inr m' |}, None)
    /\ forall k, componentKeys k m' = [].
Proof.
  apply (pruneSchema_without_paths noPathsDoc noPathsModel); [reflexivity|by left].
Defined.

(** X6: whatever [pruneSchema] returns (no error, or the cap error), the
    cached model has the paths it had, and each of its five component maps
    is the map it was with some entries deleted: the entries left have their
    values and their order, nothing is added, a nil map stays nil; the index
    is untouched. *)
Theorem pruneSchema_only_deletes (doc doc' : LibDocument) (err : option error)
    (m0 : Document) :
  pruneSchema doc = Some (doc', err) -> BuildV3Model doc = inr m0 ->
  exists m',
    BuildV3Model doc' = inr m' /\ docIndex doc' = docIndex doc
    /\ DPaths m' = DPaths m0 /\ modelKeptIn m' m0.
Proof.
  unfold pruneSchema. intros H Hb. rewrite Hb in H.
  destruct (pruneLoop _ _ _ _) as [[m' e]|] eqn:El; [|done].
  injection H as <- <-. exists m'. cbn [BuildV3Model docIndex].
  apply pruneLoop_iter in El as [n ->].
  split; [done|]. split; [done|]. split.
  - by rewrite DPaths_pruneIter.
  - eapply modelKeptIn_trans; [apply modelKeptIn_pruneIter|apply modelKeptIn_dropUngenerated].
Qed.

Lemma pruneSchema_only_deletes_witness :
  exists m',
    BuildV3Model {| docIndex := skipIndex; BuildV3Model := inr skipPruned |} = inr m'
    /\ docIndex {| docIndex := skipIndex; BuildV3Model := inr skipPruned |} = docIndex skipDoc
    /\ DPaths m' = DPaths skipModel /\ modelKeptIn m' skipModel.
Proof.
  apply (pruneSchema_only_deletes skipDoc
           {| docIndex := skipIndex; BuildV3Model := inr skipPruned |} None skipModel);
    [by vm_compute|reflexivity].
Defined.

(** X7: whatever [pruneSchema] returns, the cached model has no webhooks,
    and its components, when it has any, have no security schemes, callbacks,
    examples or links. *)
Theorem pruneSchema_drops_ungenerated (doc doc' : LibDocument) (err : option error)
    (m0 : Document) :
  pruneSchema doc = Some (doc', err) -> BuildV3Model doc = inr m0 ->
  exists m',
    BuildV3Model doc' = inr m' /\ Webhooks m' = None
    /\ forall c', DComponents m' = Some c' ->
         SecuritySchemes c' = None /\ Callbacks c' = None
         /\ Examples c' = None /\ Links c' = None.
Proof.
  unfold pruneSchema. intros H Hb. rewrite Hb in H.
  destruct (pruneLoop _ _ _ _) as [[m' e]|] eqn:El; [|done].
  injection H as <- <-. exists m'. cbn [BuildV3Model].
  apply pruneLoop_iter in El as [n ->].
  pose proof (dropUngenerated_pruneIter (docIndex doc) n (dropUngenerated m0)
                (dropUngenerated_idem m0)) as Hd.
  split; [done|]. rewrite <- Hd. unfold dropUngenerated at 1 2. simpl.
  split; [done|]. intros c'. destruct (DComponents _); [|done]. by intros [= <-].
Qed.

Lemma pruneSchema_drops_ungenerated_witness :
  exists m',
    BuildV3Model {| docIndex := docIndex noPathsDoc;
                    BuildV3Model := inr {| Webhooks := None; DPaths := None;
                                           DComponents := Some (onlySchemas []) |} |} = inr m'
    /\ Webhooks m' = None
    /\ forall c', DComponents m' = Some c' ->
         SecuritySchemes c' = None /\ Callbacks c' = None
         /\ Examples c' = None /\ Links c' = None.
Proof.
  apply (pruneSchema_drops_ungenerated noPathsDoc
           {| docIndex := docIndex noPathsDoc;
              BuildV3Model := inr {| Webhooks := None; DPaths := None;
                                     DComponents := Some (onlySchemas []) |} |}
           None noPathsModel);
    [by vm_compute|reflexivity].
Defined.

(** ** The parent of a property reference *)

Lemma append_cons c (s t : string) : String c s +:+ t = String c (s +:+ t).
Proof. reflexivity. Qed.

Lemma append_nil_l (t : string) : "" +:+ t = t.
Proof. reflexivity. Qed.

Lemma substring_prefix_app : forall (p x : string),
  String.substring 0 (String.length p) (p +:+ x) = p.
Proof.
  induction p as [|c p IH]; intros x.
  - rewrite append_nil_l. simpl. by destruct x.
  - rewrite append_cons. simpl. by rewrite IH.
Qed.

Lemma substring_app_at : forall (p t rest : string),
  String.substring (String.length p) (String.length t) (p +:+ t +:+ rest) = t.
Proof.
  induction p as [|c p IH]; intros t rest.
  - rewrite append_nil_l. apply substring_prefix_app.
  - rewrite append_cons. simpl. apply IH.
Qed.

Lemma substring_all (u : string) : String.substring 0 (String.length u) u = u.
Proof. induction u as [|e u IH]; simpl; [done|]. by rewrite IH. Qed.

Lemma substring_prefix_split : forall (t u : string),
  String.substring 0 (String.length t) u = t ->
  u = t +:+ String.substring (String.length t) (String.length u - String.length t) u.
Proof.
  induction t as [|d t IH]; intros u H.
  - rewrite append_nil_l. simpl. rewrite Nat.sub_0_r. by rewrite substring_all.
  - destruct u as [|e u]; simpl in H; [done|].
    injection H as -> H. rewrite append_cons. simpl. f_equal. by apply IH.
Qed.

Lemma substring_split : forall (s t : string) (n : nat),
  t <> "" -> String.substring n (String.length t) s = t ->
  exists rest, s = String.substring 0 n s +:+ t +:+ rest
               /\ String.length (String.substring 0 n s) = n.
Proof.
  induction s as [|c s IH]; intros t n Ht H.
  - destruct n, t; simpl in *; congruence.
  - destruct n as [|n].
    + eexists. split; [|done]. simpl String.substring. rewrite append_nil_l.
      by apply substring_prefix_split.
    + simpl in H. destruct (IH t n Ht H) as [rest [Hs Hl]].
      exists rest. simpl String.substring. rewrite append_cons. simpl String.length.
      split; [f_equal; exact Hs|f_equal; exact Hl].
Qed.

Lemma addParentSchemaRef_union (parent : string) (refSet : gset string) :
  (if decide (parent ∈ refSet) then refSet else {[parent]} ∪ refSet) = {[parent]} ∪ refSet.
Proof. case_decide; [set_solver|done]. Qed.

(** X8: [addParentSchemaRef] leaves the set as it is when the reference
    has no [/properties/] in it; otherwise it adds the text before the first
    [/properties/], that is the shortest [parent] with
    [ref = parent ++ "/properties/" ++ rest], and nothing else. *)
Theorem addParentSchemaRef_split (ref : string) (refSet : gset string) :
  ((forall parent rest, ref <> parent +:+ "/properties/" +:+ rest) ->
     addParentSchemaRef ref refSet = refSet)
  /\ (forall parent rest,
        ref = parent +:+ "/properties/" +:+ rest ->
        (forall parent' rest', ref = parent' +:+ "/properties/" +:+ rest' ->
           String.length parent <= String.length parent') ->
        addParentSchemaRef ref refSet = {[parent]} ∪ refSet).
Proof.
  unfold addParentSchemaRef.
  destruct (String.index 0 "/properties/" ref) as [n|] eqn:E.
  - pose proof (String.index_correct1 _ _ _ _ E) as Hat.
    pose proof (String.index_correct2 _ _ _ _ E) as Hfirst.
    destruct (substring_split ref "/properties/" n ltac:(done) Hat) as [rest0 [Hs Hl]].
    split.
    + intros Hno. by destruct (Hno _ _ Hs).
    + intros parent rest Hr Hmin. rewrite addParentSchemaRef_union.
      assert (String.length parent = n) as Hlen.
      { apply Nat.le_antisymm.
        - rewrite <- Hl. by eapply Hmin.
        - destruct (Nat.le_gt_cases n (String.length parent)) as [|Hlt]; [done|].
          exfalso. apply (Hfirst (String.length parent)); [lia|done|].
          rewrite Hr. apply (substring_app_at parent "/properties/" rest). }
      subst n. rewrite Hr at 1. by rewrite substring_prefix_app.
  - split; [done|]. intros parent rest Hr _. exfalso.
    apply (String.index_correct3 0 (String.length parent) _ _ E); [done|lia|].
    rewrite Hr. apply (substring_app_at parent "/properties/" rest).
Qed.

Lemma addParentSchemaRef_split_witness :
  addParentSchemaRef "#/components/schemas/Foo/properties/bar" ∅
  = {["#/components/schemas/Foo"]} ∪ ∅.
Proof.
  apply (proj2 (addParentSchemaRef_split "#/components/schemas/Foo/properties/bar" ∅)
           "#/components/schemas/Foo" "bar"); [reflexivity|].
  intros parent' rest'.
  do 24 (destruct parent' as [|? parent']; [simpl; intros; discriminate|]).
  simpl. intros _. lia.
Defined.

(** ** The collector records only what is written *)

Section Sound.
Context (idx : Index) (C : string -> Prop).
Hypothesis C_target : forall r t r',
  C r -> SchemaOf idx (ProxyRef r) = Some t -> r' ∈ mentions t -> C r'.
Hypothesis C_parent : forall r n,
  C r -> String.index 0 "/properties/" r = Some n -> C (String.substring 0 n r).

Lemma within_app l1 l2 : within C (l1 ++ l2) <-> within C l1 /\ within C l2.
Proof. unfold within. setoid_rewrite elem_of_app. naive_solver. Qed.

Lemma within_nil : within C [].
Proof. intros r Hr. by apply elem_of_nil in Hr. Qed.

Lemma within_refOf r : r <> "" -> within C (refOf r) -> C r.
Proof. intros Hr H. apply H. unfold refOf. rewrite decide_False by done. set_solver. Qed.

Lemma good_insert r rs : C r -> good C rs -> good C ({[r]} ∪ rs).
Proof. intros Hr Hg x. rewrite elem_of_union, elem_of_singleton. intros [->|?]; auto. Qed.

Lemma good_addParent ref rs : C ref -> good C rs -> good C (addParentSchemaRef ref rs).
Proof.
  intros Hr Hg. unfold addParentSchemaRef.
  destruct (String.index 0 "/properties/" ref) as [n|] eqn:E; [|done].
  case_decide; [done|]. apply good_insert; [|done]. by eapply C_parent.
Qed.

Lemma within_target p :
  within C (proxyMentions mentions p) ->
  within C (match SchemaOf idx p with Some t => mentions t | None => [] end).
Proof.
  destruct p as [|c|r]; simpl; [intros _; apply within_nil|done|].
  intros Hr. case_decide as Hn; [apply within_nil|].
  destruct (idx !! r) as [t|] eqn:E; [|apply within_nil].
  intros r' Hr'. apply (C_target r t r'); [by apply within_refOf| |done].
  simpl. by rewrite decide_False.
Qed.

Lemma visitProxy_sound rec wp p rs rs' :
  sound C rec -> within C (proxyMentions mentions p) -> good C rs ->
  visitProxy rec idx wp p rs = Some (Walked rs') -> good C rs'.
Proof.
  intros Hrec Hp Hg. unfold visitProxy. case_decide as Hr.
  - destruct (rec _ _) as [x|] eqn:E; simpl; [|done].
    intros [= <-]. eapply Hrec; [|exact Hg|exact E]. by apply within_target.
  - case_decide; [done|].
    destruct (rec _ _) as [x|] eqn:E; simpl; [|done].
    intros [= <-]. eapply Hrec; [|..|exact E]; [by apply within_target|].
    assert (C (GetReference p)) as Hc.
    { destruct p as [|c|r]; simpl in *; [done..|]. by apply within_refOf. }
    destruct wp; [apply good_addParent; [done|]|]; by apply good_insert.
Qed.

Lemma walkList_sound visit l : forall rs rs',
  (forall p x y, p ∈ l -> within C (proxyMentions mentions p) -> good C x ->
     visit p x = Some (Walked y) -> good C y) ->
  within C (listMentions mentions l) -> good C rs ->
  walkList visit l rs = Some rs' -> good C rs'.
Proof.
  induction l as [|p l IH]; simpl; intros rs rs' Hv Hl Hg.
  - by intros [= <-].
  - apply within_app in Hl as [Hp Hl].
    assert (forall p0 x y, p0 ∈ l -> within C (proxyMentions mentions p0) -> good C x ->
              visit p0 x = Some (Walked y) -> good C y) as Hv'.
    { intros p0 x y Hin. apply Hv. by right. }
    destruct p as [|c|r]; [by apply IH| |].
    all: destruct (visit _ rs) as [[|x]|] eqn:E; [by apply IH| |done].
    all: apply IH; [done|done|]; eapply Hv; [left|exact Hp|exact Hg|exact E].
Qed.

Lemma walkBranch_sound visit d k rs rs' :
  (forall p x y, within C (proxyMentions mentions p) -> good C x ->
     visit p x = Some (Walked y) -> good C y) ->
  (forall x y, good C x -> k x = Some y -> good C y) ->
  within C (dynMentions mentions d) -> good C rs ->
  walkBranch visit d rs k = Some rs' -> good C rs'.
Proof.
  intros Hv Hk Hd Hg. unfold walkBranch.
  destruct d as [[p|b]|]; [|by apply Hk..].
  destruct p as [|c|r]; [by apply Hk| |].
  all: destruct (visit _ rs) as [[|x]|] eqn:E; [by intros [= <-]| |done].
  all: apply Hk; eapply Hv; [exact Hd|exact Hg|exact E].
Qed.

Lemma listMentions_app (l1 l2 : list SchemaProxy) :
  listMentions mentions (l1 ++ l2) = listMentions mentions l1 ++ listMentions mentions l2.
Proof. induction l1 as [|p l1 IH]; simpl; [done|]. by rewrite IH, app_assoc. Qed.

Lemma listMentions_values (m : OrderedMap SchemaProxy) :
  listMentions mentions m.*2 = mapMentions mentions m.
Proof.
  induction m as [|[k p] m IH]; [done|].
  rewrite fmap_cons. cbn [listMentions mapMentions snd]. by rewrite IH.
Qed.

Lemma mentions_unfold s :
  mentions s =
    refOf (sReference s)
    ++ match sProperties s with Some m => mapMentions mentions m | None => [] end
    ++ dynMentions mentions (sItems s)
    ++ dynMentions mentions (sAdditionalProperties s)
    ++ listMentions mentions (sAllOf s)
    ++ listMentions mentions (sOneOf s)
    ++ listMentions mentions (sAnyOf s)
    ++ proxyMentions mentions (sNot s).
Proof. by destruct s. Qed.

Lemma collectBody_sound rec : sound C rec ->
  forall s rs rs', within C (mentions s) -> good C rs ->
    collectBody rec idx s rs = Some rs' -> good C rs'.
Proof.
  intros IH s rs rs' Hs Hg. unfold collectBody.
  rewrite mentions_unfold in Hs.
  apply within_app in Hs as [Hown Hs]. apply within_app in Hs as [Hprops Hs].
  apply within_app in Hs as [Hitems Hs]. apply within_app in Hs as [Hadd Hs].
  case_decide; [by intros [= <-]|].
  set (rs0 := if decide (sReference s = "") then rs else _).
  assert (good C rs0) as H0.
  { unfold rs0. case_decide as Hr; [done|].
    pose proof (within_refOf _ Hr Hown). apply good_addParent; [done|]. by apply good_insert. }
  pose proof (fun wp p x y => visitProxy_sound rec wp p x y IH) as Hv.
  set (walked := match sProperties s with
                 | Some props => walkList (visitProxy rec idx true) props.*2 rs0
                 | None => Some rs0
                 end).
  destruct walked as [rs1|] eqn:E1; [|done].
  assert (good C rs1) as H1.
  { unfold walked in E1. destruct (sProperties s) as [props|]; [|by injection E1 as <-].
    eapply walkList_sound; [| |exact H0|exact E1].
    - intros p x y _. apply Hv.
    - by rewrite listMentions_values. }
  intros Hb. eapply walkBranch_sound in Hb; [done|apply Hv| |done|done].
  intros x y Hx Hb'. eapply walkBranch_sound in Hb'; [done|apply Hv| |done|done].
  intros x' y' Hx'. apply walkList_sound; [intros p a b _; apply Hv| |done].
  rewrite !listMentions_app. simpl. by rewrite app_nil_r.
Qed.

Lemma collectSchemaRefs_fuel_sound fuel : sound C (collectSchemaRefs_fuel idx fuel).
Proof.
  induction fuel as [|fuel IH]; intros s rs rs' Hs Hg.
  - destruct s; simpl; [done|]. by intros [= <-].
  - destruct s as [s|]; simpl; [|by intros [= <-]].
    by apply collectBody_sound.
Qed.

Lemma collectSchemaRefs_sound s rs :
  within C (match s with Some t => mentions t | None => [] end) -> good C rs ->
  good C (collectSchemaRefs idx s rs).
Proof.
  intros Hs Hg. unfold collectSchemaRefs.
  destruct (collectSchemaRefs_fuel _ _ _ _) as [rs'|] eqn:E; simpl; [|done].
  by eapply collectSchemaRefs_fuel_sound.
Qed.

Lemma recordRef_sound ref rs : within C (refOf ref) -> good C rs -> good C (recordRef ref rs).
Proof.
  intros Hr Hg. unfold recordRef. case_decide as Hn; [done|].
  apply good_insert; [by apply within_refOf|done].
Qed.

Lemma proxyMentions_own p : within C (proxyMentions mentions p) -> within C (refOf (GetReference p)).
Proof. destruct p as [|c|r]; simpl; [intros _; apply within_nil..|done]. Qed.

Lemma collectSchemaProxy_sound p rs :
  within C (proxyMentions mentions p) -> good C rs -> good C (collectSchemaProxy idx p rs).
Proof.
  intros Hp Hg. unfold collectSchemaProxy.
  assert (good C (collectSchemaRefs idx (SchemaOf idx p)
                  (if decide (GetReference p = "") then rs else {[GetReference p]} ∪ rs))).
  { apply collectSchemaRefs_sound; [by apply within_target|].
    apply (recordRef_sound (GetReference p) rs); [by apply proxyMentions_own|done]. }
  by destruct p.
Qed.

Lemma foldl_sound {A} (step : gset string -> A -> gset string) (M : A -> list string) l :
  (forall a rs, within C (M a) -> good C rs -> good C (step rs a)) ->
  forall rs, within C (flat_map M l) -> good C rs -> good C (foldl step rs l).
Proof.
  intros Hstep. induction l as [|a l IH]; simpl; intros rs Hl Hg; [done|].
  apply within_app in Hl as [Ha Hl]. apply IH; [done|]. by apply Hstep.
Qed.

Lemma collectContent_sound c rs :
  within C (contentMentions c) -> good C rs -> good C (collectContent idx c rs).
Proof.
  destruct c as [m|]; simpl; [|done]. intros Hc Hg.
  eapply (foldl_sound _ (fun kv => proxyMentions mentions (mtSchema (snd kv)))); [|done..].
  intros a x. apply collectSchemaProxy_sound.
Qed.

Lemma collectHeader_sound v rs :
  within C (headerMentions v) -> good C rs -> good C (collectHeader idx v rs).
Proof.
  unfold headerMentions, collectHeader. intros Hv Hg.
  apply within_app in Hv as [H1 Hv]. apply within_app in Hv as [H2 H3].
  apply collectContent_sound; [done|]. apply collectSchemaProxy_sound; [done|].
  by apply recordRef_sound.
Qed.

Lemma collectParameter_sound v rs :
  within C (paramMentions v) -> good C rs -> good C (collectRefFromProxy idx (AParameter v) rs).
Proof.
  unfold paramMentions. simpl. intros Hv Hg.
  apply within_app in Hv as [H1 Hv]. apply within_app in Hv as [H2 H3].
  apply collectContent_sound; [done|]. apply collectSchemaProxy_sound; [done|].
  by apply recordRef_sound.
Qed.

Lemma collectRequestBody_sound v rs :
  within C (bodyMentions v) -> good C rs -> good C (collectRefFromProxy idx (ARequestBody v) rs).
Proof.
  unfold bodyMentions. simpl. intros Hv Hg. apply within_app in Hv as [H1 H2].
  apply collectContent_sound; [done|]. by apply recordRef_sound.
Qed.

Lemma collectResponse_sound v rs :
  within C (responseMentions v) -> good C rs -> good C (collectRefFromProxy idx (AResponse v) rs).
Proof.
  unfold responseMentions. simpl. intros Hv Hg.
  apply within_app in Hv as [H1 Hv]. apply within_app in Hv as [H2 H3].
  assert (good C (collectContent idx (rContent v) (recordRef (rReference v) rs))) as Hc.
  { apply collectContent_sound; [done|]. by apply recordRef_sound. }
  destruct (rHeaders v) as [hs|]; [|done].
  eapply (foldl_sound _ (fun kv => headerMentions (snd kv))); [|done..].
  intros a x. apply collectHeader_sound.
Qed.

Lemma collectOperation_sound op rs :
  within C (operationMentions op) -> good C rs -> good C (collectOperation idx op rs).
Proof.
  unfold operationMentions, collectOperation. intros Hv Hg.
  apply within_app in Hv as [H1 Hv]. apply within_app in Hv as [H2 H3].
  set (rs1 := match opRequestBody op with Some b => _ | None => rs end).
  assert (good C rs1) as Hg1.
  { unfold rs1. destruct (opRequestBody op); [by apply collectRequestBody_sound|done]. }
  set (rs2 := foldl _ rs1 (opParameters op)).
  assert (good C rs2) as Hg2.
  { unfold rs2. eapply (foldl_sound _ paramMentions); [|done..].
    intros a x. apply collectParameter_sound. }
  destruct (opResponses op) as [rsp|]; [|done].
  apply within_app in H3 as [H3 H4].
  eapply (foldl_sound _ (fun kv => responseMentions (snd kv))); [|done|].
  - intros a x. apply collectResponse_sound.
  - destruct (Default rsp); [by apply collectResponse_sound|done].
Qed.

Lemma collectPathItem_sound item rs :
  within C (pathItemMentions item) -> good C rs -> good C (collectPathItem idx item rs).
Proof.
  unfold pathItemMentions, collectPathItem. intros Hv Hg.
  apply within_app in Hv as [H1 H2].
  eapply (foldl_sound _ (fun kv => operationMentions (snd kv))); [|done|].
  - intros a x. apply collectOperation_sound.
  - eapply (foldl_sound _ paramMentions); [|done..].
    intros a x. apply collectParameter_sound.
Qed.

Lemma collectMap_sound {V} (f : V -> gset string -> gset string) (M : V -> list string) m rs :
  (forall v x, within C (M v) -> good C x -> good C (f v x)) ->
  within C (tableMentions M m) -> good C rs -> good C (collectMap f m rs).
Proof.
  intros Hf. destruct m as [om|]; simpl; [|done]. intros Hm Hg.
  eapply (foldl_sound _ (fun kv => M (snd kv))); [|done..].
  intros a x. apply Hf.
Qed.

Lemma collectComponentSchema_sound p rs :
  within C (proxyMentions mentions p) -> good C rs -> good C (collectComponentSchema idx p rs).
Proof.
  intros Hp Hg. unfold collectComponentSchema.
  assert (good C (collectSchemaRefs idx (SchemaOf idx p) (recordRef (GetReference p) rs))).
  { apply collectSchemaRefs_sound; [by apply within_target|].
    apply recordRef_sound; [by apply proxyMentions_own|done]. }
  by destruct p.
Qed.

Lemma collectComponents_sound c rs :
  within C (tableMentions paramMentions (Parameters c)
          ++ tableMentions bodyMentions (RequestBodies c)
          ++ tableMentions responseMentions (CResponses c)
          ++ tableMentions headerMentions (Headers c)
          ++ tableMentions (proxyMentions mentions) (Schemas c)) ->
  good C rs -> good C (collectComponents idx c rs).
Proof.
  intros Hv Hg. unfold collectComponents.
  apply within_app in Hv as [H1 Hv]. apply within_app in Hv as [H2 Hv].
  apply within_app in Hv as [H3 Hv]. apply within_app in Hv as [H4 H5].
  eapply collectMap_sound; [apply collectComponentSchema_sound|done|].
  eapply collectMap_sound; [intros v x; apply collectHeader_sound|done|].
  eapply collectMap_sound; [apply collectResponse_sound|done|].
  eapply collectMap_sound; [apply collectRequestBody_sound|done|].
  eapply collectMap_sound; [apply collectParameter_sound|done|done].
Qed.

Lemma operationRefSet_sound model rs :
  within C (operationsMention model) -> within C (componentsMention model) ->
  operationRefSet idx model = Some rs -> good C rs.
Proof.
  unfold operationRefSet, operationsMention, componentsMention. intros Ho Hc.
  destruct (DPaths model) as [[[items|]]|]; [|done..].
  intros [= <-].
  assert (good C (foldl (fun rs kv => collectPathItem idx (snd kv) rs) ∅ items)) as Hg.
  { eapply (foldl_sound _ (fun kv => pathItemMentions (snd kv))); [|done|].
    - intros a x. apply collectPathItem_sound.
    - intros r Hr. by apply elem_of_empty in Hr. }
  destruct (DComponents model); [by apply collectComponents_sound|done].
Qed.
End Sound.

Lemma operationRefSet_written idx model rs r :
  operationRefSet idx model = Some rs -> r ∈ rs -> Written idx model r.
Proof.
  intros E. revert r.
  apply (operationRefSet_sound idx (Written idx model)) with (model := model); [..|done].
  - intros r0 t r' H0 Ht Hr'. by eapply written_target.
  - intros r0 n H0 Hn. by eapply written_parent.
  - intros r0. apply written_operation.
  - intros r0. apply written_component.
Qed.

(** X9: the collector invents nothing: every reference
    [findOperationRefs] returns is written in the document, in an operation
    or a component, in a schema that a written reference resolves to, or as
    the owner of a written property reference. *)
Theorem findOperationRefs_written (idx : Index) (model : Document) (r : string) :
  r ∈ findOperationRefs idx model -> Written idx model r.
Proof.
  unfold findOperationRefs.
  destruct (operationRefSet idx model) as [rs|] eqn:E; [|by intros ?%elem_of_nil].
  rewrite Sort_elem_of, elem_of_elements. by apply operationRefSet_written.
Qed.

Lemma findOperationRefs_written_witness :
  Written (docIndex cycleDoc) cycleModel "#/components/schemas/A".
Proof.
  apply (findOperationRefs_written (docIndex cycleDoc) cycleModel "#/components/schemas/A").
  vm_compute. set_solver.
Defined.

Lemma tableMentions_keptIn {V} (f : V -> list string) (t' t : option (OrderedMap V)) r :
  keptIn t' t -> r ∈ tableMentions f t' -> r ∈ tableMentions f t.
Proof.
  unfold keptIn, tableMentions. destruct t as [om|], t' as [om'|]; try done.
  intros Hs. rewrite !list_elem_of_In, !in_flat_map. intros [kv [Hin Hr]].
  exists kv. split; [|done].
  apply list_elem_of_In. eapply elem_of_sublist; [|exact Hs]. by apply list_elem_of_In.
Qed.

Lemma componentsMention_keptIn m' m r :
  modelKeptIn m' m -> r ∈ componentsMention m' -> r ∈ componentsMention m.
Proof.
  unfold modelKeptIn, componentsMention, componentsKeptIn.
  destruct (DComponents m) as [c|], (DComponents m') as [c'|]; try done.
  intros (H1 & H2 & H3 & H4 & H5). rewrite !elem_of_app.
  intros [?|[?|[?|[?|?]]]]; eauto 10 using tableMentions_keptIn.
Qed.

Lemma operationsMention_paths m' m :
  DPaths m' = DPaths m -> operationsMention m' = operationsMention m.
Proof. unfold operationsMention. by intros ->. Qed.

Lemma Written_keptIn idx m' m r :
  DPaths m' = DPaths m -> modelKeptIn m' m -> Written idx m' r -> Written idx m r.
Proof.
  intros Hp Hk. induction 1 as [r Hr|r Hr|r t r' _ IH Ht Hr|r n _ IH Hn].
  - apply written_operation. by rewrite <- (operationsMention_paths m' m).
  - apply written_component. by eapply componentsMention_keptIn.
  - by eapply written_target.
  - by eapply written_parent.
Qed.

(** X10: every component that is left when [pruneSchema] returns without
    error has its own reference written in what is left of the document,
    and so in the original document: a component whose reference is written
    nowhere is deleted. *)
Theorem pruneSchema_survivors_written (doc doc' : LibDocument) (m0 m' : Document)
    (k : Kind) (key : string) :
  pruneSchema doc = Some (doc', None) ->
  BuildV3Model doc = inr m0 -> BuildV3Model doc' = inr m' ->
  key ∈ componentKeys k m' ->
  Written (docIndex doc) m' (componentRef k key)
  /\ Written (docIndex doc) m0 (componentRef k key).
Proof.
  unfold pruneSchema. intros H Hb. rewrite Hb in H.
  destruct (pruneLoop _ _ _ _) as [[m1 err]|] eqn:El; [|done].
  injection H as <- ->. cbn [BuildV3Model]. intros [= <-] Hk.
  apply pruneLoop_ok in El as [n [-> [Hz _]]].
  pose proof (removedCount_zero_all _ _ k key Hz Hk) as Hr.
  unfold findOperationRefs in Hr.
  destruct (operationRefSet _ _) as [rs|] eqn:E; [|by apply elem_of_nil in Hr].
  rewrite Sort_elem_of, elem_of_elements in Hr.
  assert (Written (docIndex doc) (pruneIter (docIndex doc) n (dropUngenerated m0))
            (componentRef k key)) as Hw by (by eapply operationRefSet_written).
  split; [done|]. eapply Written_keptIn; [| |exact Hw].
  - by rewrite DPaths_pruneIter.
  - eapply modelKeptIn_trans; [apply modelKeptIn_pruneIter|apply modelKeptIn_dropUngenerated].
Qed.

Lemma pruneSchema_survivors_written_witness :
  Written (docIndex skipDoc) skipPruned (componentRef KSchema "A")
  /\ Written (docIndex skipDoc) skipModel (componentRef KSchema "A").
Proof.
  apply (pruneSchema_survivors_written skipDoc
           {| docIndex := skipIndex; BuildV3Model := inr skipPruned |}
           skipModel skipPruned KSchema "A").
  - by vm_compute.
  - reflexivity.
  - reflexivity.
  - vm_compute. set_solver.
Defined.

(** ** References of a component schema's properties and items *)

Section SchemaDirect.
Context (idx : Index).

Lemma visitProxy_seen rec wp p rs :
  visitProxy rec idx wp p rs = Some Seen -> GetReference p ∈ rs.
Proof.
  unfold visitProxy. case_decide; [by destruct (rec _ _)|].
  case_decide; [done|]. by destruct (rec _ _).
Qed.

Lemma visitProxy_walked rec wp p rs rs' :
  extensive rec -> visitProxy rec idx wp p rs = Some (Walked rs') ->
  GetReference p <> "" -> GetReference p ∈ rs'.
Proof.
  intros Hrec. unfold visitProxy. case_decide; [done|]. case_decide; [done|].
  destruct (rec _ _) as [x|] eqn:E; simpl; [|done]. intros [= <-] _.
  apply Hrec in E. apply E.
  destruct wp; [apply addParentSchemaRef_extensive|]; set_solver.
Qed.

Lemma walkList_direct rec wp l : forall rs rs',
  extensive rec -> walkList (visitProxy rec idx wp) l rs = Some rs' ->
  forall r, r ∈ flat_map proxyDirect l -> r ∈ rs'.
Proof.
  induction l as [|p l IH]; intros rs rs' Hrec; [by intros _ r ?%elem_of_nil|].
  intros Hw r. cbn [flat_map]. rewrite elem_of_app. intros [Hr|Hr].
  - unfold proxyDirect, refOf in Hr. case_decide as Hne; [by apply elem_of_nil in Hr|].
    apply list_elem_of_singleton in Hr as ->. simpl in Hw.
    destruct p as [|c|ref]; [done|done|].
    destruct (visitProxy rec idx wp (ProxyRef ref) rs) as [[|x]|] eqn:E; [| |done].
    + apply visitProxy_seen in E.
      eapply walkList_extensive; [|exact Hw|exact E].
      intros p0 a b. by apply visitProxy_extensive.
    + apply visitProxy_walked in E; [|done..].
      eapply walkList_extensive; [|exact Hw|exact E].
      intros p0 a b. by apply visitProxy_extensive.
  - simpl in Hw. destruct p as [|c|ref]; [by eapply IH| |].
    all: destruct (visitProxy rec idx wp _ rs) as [[|x]|] eqn:E; [by eapply IH|by eapply IH|done].
Qed.

Lemma collectBody_direct rec s rs rs' :
  extensive rec -> collectBody rec idx s rs = Some rs' ->
  forall r, r ∈ schemaDirect s -> r ∈ rs'.
Proof.
  intros Hrec Hb r. unfold schemaDirect. case_decide as Hown; [|by intros ?%elem_of_nil].
  revert Hb. unfold collectBody. rewrite Hown.
  rewrite decide_False by (by intros [? _]). rewrite decide_True by done.
  pose proof (fun wp p x y => visitProxy_extensive idx rec wp p x y Hrec) as Hv.
  set (walked := match sProperties s with
                 | Some props => walkList (visitProxy rec idx true) props.*2 rs
                 | None => Some rs
                 end).
  destruct walked as [rs1|] eqn:E1; [|done]. intros Hb.
  assert (rs1 ⊆ rs') as Hsub.
  { eapply walkBranch_extensive; [apply Hv| |exact Hb].
    intros x y Hx. eapply walkBranch_extensive; [apply Hv| |exact Hx].
    intros x' y'. apply walkList_extensive, Hv. }
  rewrite elem_of_app. intros [Hr|Hr].
  - apply Hsub. unfold walked in E1. destruct (sProperties s) as [props|]; [|by apply elem_of_nil in Hr].
    eapply (walkList_direct rec true); [done|exact E1|].
    clear -Hr. induction props as [|[k p] props IH]; [done|].
    rewrite fmap_cons. cbn [flat_map snd] in *. rewrite elem_of_app in *.
    destruct Hr as [?|?]; [by left|right; by apply IH].
  - unfold walkBranch in Hb. destruct (sItems s) as [[p|b]|]; [|by apply elem_of_nil in Hr..].
    unfold proxyDirect, refOf in Hr. case_decide as Hne; [by apply elem_of_nil in Hr|].
    apply list_elem_of_singleton in Hr as ->.
    destruct p as [|c|ref]; [done|done|].
    destruct (visitProxy rec idx false (ProxyRef ref) rs1) as [[|x]|] eqn:E; [| |done].
    + injection Hb as <-. by apply visitProxy_seen in E.
    + apply visitProxy_walked in E; [|done..].
      eapply walkBranch_extensive; [apply Hv| |exact Hb|exact E].
      intros x' y'. apply walkList_extensive, Hv.
Qed.

Lemma records_collectSchemaRefs s :
  records (collectSchemaRefs idx (Some s)) (schemaDirect s).
Proof.
  intros rs. split; [apply collectSchemaRefs_extensive|]. intros r Hr.
  pose proof (collectSchemaRefs_fuel_enough idx (Some s) rs (fuelBound idx (Some s))
                (Nat.le_refl _)) as E.
  destruct (fuelBound idx (Some s)) as [|fuel]; [done|]. simpl in E.
  eapply collectBody_direct; [|exact E|exact Hr]. apply collectSchemaRefs_fuel_extensive.
Qed.

Lemma records_collectComponentSchema p :
  records (collectComponentSchema idx p) (componentSchemaDirect p).
Proof.
  destruct p as [|s|r]; simpl.
  - apply records_id.
  - intros rs. unfold recordRef. simpl. apply records_collectSchemaRefs.
  - apply records_nil. intros rs.
    etrans; [|apply collectSchemaRefs_extensive]. apply records_recordRef.
Qed.

Lemma componentsDirect_collected model r :
  is_Some (operationRefSet idx model) ->
  r ∈ componentsDirect model -> r ∈ findOperationRefs idx model.
Proof.
  unfold componentsDirect, findOperationRefs, operationRefSet.
  destruct (DPaths model) as [[[items|]]|]; [|by intros [? ?]..]. intros _.
  destruct (DComponents model) as [c|]; [|by intros ?%elem_of_nil].
  intros Hr. apply Sort_elem_of, elem_of_elements. unfold collectComponents, collectMap at 1.
  destruct (Schemas c) as [m|]; [|by apply elem_of_nil in Hr].
  by apply (records_foldl (fun rs kv => collectComponentSchema idx kv.2 rs)
              (fun kv => componentSchemaDirect kv.2) m
              (fun x => records_collectComponentSchema x.2)).
Qed.
End SchemaDirect.

Lemma componentsDirect_keptIn m' m r :
  modelKeptIn m' m -> r ∈ componentsDirect m' -> r ∈ componentsDirect m.
Proof.
  unfold modelKeptIn, componentsDirect, componentsKeptIn.
  destruct (DComponents m) as [c|], (DComponents m') as [c'|]; try done.
  intros [Hs _]. unfold keptIn in Hs.
  destruct (Schemas c) as [om|], (Schemas c') as [om'|]; try done.
  rewrite !list_elem_of_In, !in_flat_map. intros [kv [Hin Hr]]. exists kv. split; [|done].
  apply list_elem_of_In. eapply elem_of_sublist; [|exact Hs]. by apply list_elem_of_In.
Qed.

Lemma pruneIter_add idx j n model :
  pruneIter idx (n + j) model = pruneIter idx n (pruneIter idx j model).
Proof. unfold pruneIter. by rewrite Nat.iter_add. Qed.

Lemma operationRefSet_paths idx m m' :
  DPaths m = DPaths m' -> is_Some (operationRefSet idx m) -> is_Some (operationRefSet idx m').
Proof.
  unfold operationRefSet. intros <-. destruct (DPaths m) as [[[items|]]|]; [|by intros [? ?]..].
  intros _. by eexists.
Qed.

(** X11: pruning leaves no dangling property or items reference: when
    [pruneSchema] returns without error and a component schema that is left
    (inline, not itself a reference) has a property, or array items, whose
    reference names a component of the original document, that component is
    left too. *)
Theorem pruneSchema_keeps_schema_targets (doc doc' : LibDocument) (m0 m' : Document)
    (k : Kind) (key : string) :
  pruneSchema doc = Some (doc', None) ->
  BuildV3Model doc = inr m0 -> BuildV3Model doc' = inr m' ->
  componentRef k key ∈ componentsDirect m' ->
  key ∈ componentKeys k m0 -> key ∈ componentKeys k m'.
Proof.
  unfold pruneSchema. intros H Hb. rewrite Hb in H.
  destruct (pruneLoop _ _ _ _) as [[m1 err]|] eqn:El; [|done].
  injection H as <- ->. cbn [BuildV3Model]. intros [= <-] Hd Hk.
  set (idx := docIndex doc) in *. set (start := dropUngenerated m0) in *.
  apply pruneLoop_ok in El as [n [-> [Hz _]]].
  destruct (decide (key ∈ componentKeys k (pruneIter idx n start))) as [|Hout]; [done|].
  exfalso. rewrite <- (componentKeys_dropUngenerated m0) in Hk. fold start in Hk.
  destruct (pruneIter_deleted idx n start k key Hk Hout) as (j & Hj & Hin & Hnot).
  apply Hnot. apply componentsDirect_collected.
  - apply (operationRefSet_paths idx (pruneIter idx n start)).
    { by rewrite !DPaths_pruneIter. }
    destruct (operationRefSet idx (pruneIter idx n start)) as [rs|] eqn:E; [by eexists|].
    exfalso.
    assert (findOperationRefs idx (pruneIter idx n start) = []) as Hnil
      by (unfold findOperationRefs; by rewrite E).
    unfold componentsDirect in Hd.
    destruct (DComponents (pruneIter idx n start)) as [c|] eqn:Ec; [|by apply elem_of_nil in Hd].
    destruct (Schemas c) as [om|] eqn:Es; [|by apply elem_of_nil in Hd].
    destruct om as [|[name p] om]; [by apply elem_of_nil in Hd|].
    pose proof (removedCount_zero_all idx (pruneIter idx n start) KSchema name Hz) as Hc.
    rewrite Hnil in Hc. eapply elem_of_nil, Hc.
    unfold componentKeys. rewrite Ec, Es. simpl. by left.
  - apply (componentsDirect_keptIn (pruneIter idx n start)); [|done].
    replace n with ((n - j) + j) by lia. rewrite pruneIter_add. apply modelKeptIn_pruneIter.
Qed.

Lemma pruneSchema_keeps_schema_targets_witness :
  "B" ∈ componentKeys KSchema linkPruned.
Proof.
  apply (pruneSchema_keeps_schema_targets linkDoc
           {| docIndex := docIndex linkDoc; BuildV3Model := inr linkPruned |}
           linkModel linkPruned KSchema "B").
  - by vm_compute.
  - reflexivity.
  - reflexivity.
  - vm_compute. set_solver.
  - vm_compute. set_solver.
Defined.

(** ** The cap and the model it leaves *)

Lemma length_headerChain n : forall j, length (headerChain n j) = n.
Proof. induction n as [|n IH]; intros j; simpl; [done|]. by rewrite IH. Qed.

Lemma componentCount_dropUngenerated model :
  componentCount (dropUngenerated model) = componentCount model.
Proof. unfold componentCount. by rewrite !componentKeys_dropUngenerated. Qed.

(** Iterations that each delete something delete at least as many
    components as there are iterations. *)
Lemma componentCount_pruneIter idx n model :
  (forall j, j < n -> 1 <= removedCount idx (pruneIter idx j model)) ->
  componentCount (pruneIter idx n model) + n <= componentCount model.
Proof.
  induction n as [|n IH]; intros Hpos; [simpl; lia|].
  pose proof (Hpos n ltac:(lia)) as Hn.
  pose proof (componentCount_pruneStep idx (pruneIter idx n model)) as Hs.
  assert (componentCount (pruneIter idx n model) + n <= componentCount model) as Hi
    by (apply IH; intros j Hj; apply Hpos; lia).
  change (pruneIter idx (S n) model) with (pruneStep idx (pruneIter idx n model)). lia.
Qed.

(** C7, as the code has it: the pruning loop always ends; it returns
    without error at the first iteration that deletes nothing, with the model
    that iteration found; and when each of the 1000 iterations the cap allows
    has deleted something, [pruneSchema] returns the error whose message
    states the cap.  The error is all it returns, but the cached model has
    been pruned in place: it is left as the 1000 iterations made it, the
    given model with components deleted, at least 1000 of them. *)
Theorem pruneSchema_cap_leaves_pruned (doc : LibDocument) (m0 : Document) :
  BuildV3Model doc = inr m0 ->
  let idx := docIndex doc in
  let start := dropUngenerated m0 in
  let cached m := {| docIndex := idx; BuildV3Model := inr m |} in
  is_Some (pruneSchema doc)
  /\ (forall n, n < maxIterations ->
        (forall j, j < n -> 1 <= removedCount idx (pruneIter idx j start)) ->
        removedCount idx (pruneIter idx n start) = 0 ->
        pruneSchema doc = Some (cached (pruneIter idx n start), None))
  /\ ((forall j, j < maxIterations -> 1 <= removedCount idx (pruneIter idx j start)) ->
        pruneSchema doc
          = Some (cached (pruneIter idx maxIterations start), Some errMaxIterations)
        /\ modelKeptIn (pruneIter idx maxIterations start) m0
        /\ componentCount (pruneIter idx maxIterations start) + maxIterations
           <= componentCount m0)
  /\ maxIterations = 1000
  /\ errMaxIterations = "pruning exceeded maximum iterations (1000), possible infinite loop".
Proof.
  intros Hb idx start cached.
  destruct (pruneSchema_stops_or_caps doc m0 Hb) as (H1 & H2 & H3 & H4 & H5).
  split; [done|]. split; [exact H2|]. split; [|done].
  intros Hpos. split; [by apply H3|]. split.
  - eapply modelKeptIn_trans; [apply modelKeptIn_pruneIter|apply modelKeptIn_dropUngenerated].
  - rewrite <- (componentCount_dropUngenerated m0). by apply componentCount_pruneIter.
Qed.

(** The chain of [maxIterations + 1] headers after [maxIterations]
    iterations: its last header is left. *)
Lemma chain_pruned :
  pruneIter (docIndex chainDoc) maxIterations (dropUngenerated (chainModel (S maxIterations) 0))
  = chainModel 1 maxIterations.
Proof.
  change (dropUngenerated (chainModel (S maxIterations) 0))
    with (chainModel (S maxIterations) 0).
  change (docIndex chainDoc) with (∅ : Index).
  replace (S maxIterations) with (maxIterations + 1) by lia.
  rewrite chain_iter. by rewrite Nat.add_0_r.
Qed.

Lemma pruneSchema_chain :
  pruneSchema chainDoc
  = Some ({| docIndex := ∅; BuildV3Model := inr (chainModel 1 maxIterations) |},
          Some errMaxIterations).
Proof.
  destruct (pruneSchema_stops_or_caps chainDoc (chainModel (S maxIterations) 0) eq_refl)
    as (_ & _ & H & _).
  rewrite H by apply chain_exceeds. rewrite chain_pruned. reflexivity.
Qed.

Lemma pruneSchema_cap_leaves_pruned_witness :
  pruneSchema cycleDoc = Some (cycleDoc, None)
  /\ pruneSchema chainDoc
     = Some ({| docIndex := ∅; BuildV3Model := inr (chainModel 1 maxIterations) |},
             Some "pruning exceeded maximum iterations (1000), possible infinite loop")
  /\ componentCount (chainModel 1 maxIterations) + maxIterations
     <= componentCount (chainModel (S maxIterations) 0).
Proof.
  split.
  - destruct (pruneSchema_cap_leaves_pruned cycleDoc cycleModel eq_refl) as (_ & H & _).
    refine (H 0 _ _ _).
    + unfold maxIterations; lia.
    + intros j Hj; lia.
    + by vm_compute.
  - destruct (pruneSchema_cap_leaves_pruned chainDoc (chainModel (S maxIterations) 0) eq_refl)
      as (_ & _ & H & _ & He).
    destruct (H chain_exceeds) as (Hp & _ & Hc).
    rewrite chain_pruned in Hp, Hc. rewrite <- He. split; [exact Hp|exact Hc].
Defined.

(** C7 as stated fails in its last clause: on the chain of 1001 headers
    [pruneSchema] returns the cap error and leaves a cached model with one
    header, not the 1001 it was given. *)
Lemma noPartialOutput_fails : ~ noPartialOutput chainDoc.
Proof.
  intros H. specialize (H _ _ pruneSchema_chain).
  change (@inr error Document (chainModel 1 maxIterations)
          = inr (chainModel (S maxIterations) 0)) in H.
  apply (f_equal (fun b => match b with
                            | inr m => length (componentKeys KHeader m)
                            | inl _ => 0
                            end)) in H.
  change (length (KeysFromOldest (headerChain 1 maxIterations))
          = length (KeysFromOldest (headerChain (S maxIterations) 0))) in H.
  unfold KeysFromOldest in H. rewrite !length_fmap, !length_headerChain in H.
  assert (maxIterations = 1000) by reflexivity. lia.
Qed.

(** ** What the collector follows for certain *)

Section FollowFacts.
Context (idx : Index).

Lemma follows_unfold s :
  follows s =
    if decide (sReference s = "") then
      match sProperties s with Some m => mapMentions follows m | None => [] end
      ++ dynMentions follows (sItems s)
      ++ (if refBranch (sItems s) then []
          else
            dynMentions follows (sAdditionalProperties s)
            ++ (if refBranch (sAdditionalProperties s) then []
                else
                  listMentions follows (sAllOf s)
                  ++ listMentions follows (sOneOf s)
                  ++ listMentions follows (sAnyOf s)
                  ++ proxyMentions follows (sNot s)))
    else [sReference s].
Proof. by destruct s. Qed.

Lemma listFollows_app (l1 l2 : list SchemaProxy) :
  listMentions follows (l1 ++ l2) = listMentions follows l1 ++ listMentions follows l2.
Proof. induction l1 as [|p l1 IH]; simpl; [done|]. by rewrite IH, app_assoc. Qed.

Lemma listFollows_values (m : OrderedMap SchemaProxy) :
  listMentions follows m.*2 = mapMentions follows m.
Proof.
  induction m as [|[k p] m IH]; [done|].
  rewrite fmap_cons. cbn [listMentions mapMentions snd]. by rewrite IH.
Qed.

Lemma visitProxy_follows rec wp p rs v :
  extensive rec -> follower rec ->
  visitProxy rec idx wp p rs = Some v ->
  forall r, r ∈ proxyMentions follows p -> r ∈ visitSet v rs.
Proof.
  intros Hext Hfol Hv r Hr. destruct p as [|c|r0]; cbn [proxyMentions] in Hr.
  - by apply elem_of_nil in Hr.
  - unfold visitProxy in Hv. cbn [GetReference SchemaOf] in Hv.
    rewrite decide_True in Hv by done.
    destruct (rec (Some c) rs) as [x|] eqn:E; [|done]. cbn in Hv. injection Hv as <-.
    cbn. by eapply Hfol.
  - unfold refOf in Hr. case_decide as Hne; [by apply elem_of_nil in Hr|].
    apply list_elem_of_singleton in Hr as ->. destruct v as [|x].
    + by apply visitProxy_seen in Hv.
    + by apply visitProxy_walked in Hv.
Qed.

Lemma visitProxy_mono rec wp p rs v :
  extensive rec -> visitProxy rec idx wp p rs = Some v -> rs ⊆ visitSet v rs.
Proof.
  intros Hext Hv. destruct v as [|x]; [done|]. by eapply visitProxy_extensive.
Qed.

Lemma walkList_follows rec wp l : forall rs rs',
  extensive rec -> follower rec ->
  walkList (visitProxy rec idx wp) l rs = Some rs' ->
  forall r, r ∈ listMentions follows l -> r ∈ rs'.
Proof.
  induction l as [|p l IH]; intros rs rs' Hext Hfol; [by intros _ r ?%elem_of_nil|].
  intros Hw r. cbn [listMentions]. rewrite elem_of_app.
  assert (forall x y, walkList (visitProxy rec idx wp) l x = Some y -> x ⊆ y) as Hmono.
  { intros x y. apply walkList_extensive. intros p0 a b. by apply visitProxy_extensive. }
  destruct p as [|c|r0].
  - simpl in Hw. intros [Hr|Hr]; [by apply elem_of_nil in Hr|by eapply IH].
  - simpl in Hw. destruct (visitProxy rec idx wp (ProxyInline c) rs) as [v|] eqn:E; [|done].
    pose proof (visitProxy_follows _ _ _ _ _ Hext Hfol E) as Hv.
    intros [Hr|Hr].
    + destruct v as [|x]; (eapply Hmono; [exact Hw|]); by apply Hv.
    + destruct v as [|x]; by eapply IH.
  - simpl in Hw. destruct (visitProxy rec idx wp (ProxyRef r0) rs) as [v|] eqn:E; [|done].
    pose proof (visitProxy_follows _ _ _ _ _ Hext Hfol E) as Hv.
    intros [Hr|Hr].
    + destruct v as [|x]; (eapply Hmono; [exact Hw|]); by apply Hv.
    + destruct v as [|x]; by eapply IH.
Qed.

(** The items and additionalProperties sites: the branch itself is
    recorded, and what the rest of the body records is recorded when the
    branch holds no reference. *)
Lemma walkBranch_follows rec d k rs rs' (T : list string) :
  extensive rec -> follower rec ->
  (forall x y, k x = Some y -> x ⊆ y /\ forall r, r ∈ T -> r ∈ y) ->
  walkBranch (visitProxy rec idx false) d rs k = Some rs' ->
  forall r, r ∈ dynMentions follows d ++ (if refBranch d then [] else T) -> r ∈ rs'.
Proof.
  intros Hext Hfol Hk Hw r. rewrite elem_of_app. unfold walkBranch in Hw.
  destruct d as [[p|b]|]; cbn [dynMentions refBranch].
  2,3: intros [Hr|Hr]; [by apply elem_of_nil in Hr|by apply (proj2 (Hk _ _ Hw))].
  destruct p as [|c|r0]; cbn [proxyMentions].
  - intros [Hr|Hr]; [by apply elem_of_nil in Hr|by apply (proj2 (Hk _ _ Hw))].
  - destruct (visitProxy rec idx false (ProxyInline c) rs) as [v|] eqn:E; [|done].
    pose proof (visitProxy_follows _ _ _ _ _ Hext Hfol E) as Hv.
    destruct v as [|x].
    + unfold visitProxy in E. cbn [GetReference] in E. rewrite decide_True in E by done.
      by destruct (rec _ _).
    + destruct (Hk _ _ Hw) as [Hsub HT].
      intros [Hr|Hr]; [|by apply HT]. apply Hsub. by apply Hv.
  - destruct (visitProxy rec idx false (ProxyRef r0) rs) as [v|] eqn:E; [|done].
    pose proof (visitProxy_follows _ _ _ _ _ Hext Hfol E) as Hv.
    destruct v as [|x].
    + injection Hw as <-. intros [Hr|Hr]; [by apply Hv|].
      case_decide as Hne; [|by apply elem_of_nil in Hr].
      unfold visitProxy in E. cbn [GetReference] in E. rewrite decide_True in E by done.
      by destruct (rec _ _).
    + destruct (Hk _ _ Hw) as [Hsub HT].
      intros [Hr|Hr]; [apply Hsub; by apply Hv|].
      case_decide; [|by apply elem_of_nil in Hr]. by apply HT.
Qed.

Lemma collectBody_follows rec s rs rs' :
  extensive rec -> follower rec ->
  collectBody rec idx s rs = Some rs' ->
  forall r, r ∈ follows s -> r ∈ rs'.
Proof.
  intros Hext Hfol Hb r. rewrite follows_unfold.
  pose proof (fun wp p x y => visitProxy_extensive idx rec wp p x y Hext) as Hv.
  assert (forall l x y, walkList (visitProxy rec idx false) l x = Some y -> x ⊆ y) as Hwl
    by (intros l x y; apply walkList_extensive, Hv).
  revert Hb. unfold collectBody. cbv zeta.
  destruct (decide (sReference s = "")) as [Hown|Hown].
  - rewrite decide_False by (by intros [? _]).
    set (walked := match sProperties s with
                   | Some props => walkList (visitProxy rec idx true) props.*2 rs
                   | None => Some rs
                   end).
    destruct walked as [rs1|] eqn:E1; [|done]. intros Hb.
    assert (rs1 ⊆ rs') as Hsub.
    { eapply walkBranch_extensive; [apply Hv| |exact Hb].
      intros x y Hx. eapply walkBranch_extensive; [apply Hv| |exact Hx]. apply Hwl. }
    rewrite elem_of_app. intros [Hr|Hr].
    { apply Hsub. unfold walked in E1.
      destruct (sProperties s) as [props|]; [|by apply elem_of_nil in Hr].
      eapply (walkList_follows rec true); [done|done|exact E1|].
      by rewrite listFollows_values. }
    revert Hr. eapply walkBranch_follows; [done|done| |exact Hb].
    intros x y Hx. split.
    { eapply walkBranch_extensive; [apply Hv| |exact Hx]. apply Hwl. }
    eapply walkBranch_follows; [done|done| |exact Hx].
    intros x' y' Hx'. split; [by eapply Hwl|].
    intros r' Hr'. eapply (walkList_follows rec false); [done|done|exact Hx'|].
    rewrite !listFollows_app. cbn [listMentions]. by rewrite app_nil_r.
  - intros Hb Hr. apply list_elem_of_singleton in Hr as ->.
    destruct (decide (sReference s ≠ "" ∧ sReference s ∈ rs)) as [Hin|Hin].
    + injection Hb as <-. by destruct Hin.
    + assert (sReference s ∈ addParentSchemaRef (sReference s) ({[sReference s]} ∪ rs)) as H0.
      { apply addParentSchemaRef_extensive. set_solver. }
      revert Hb H0. generalize (addParentSchemaRef (sReference s) ({[sReference s]} ∪ rs)).
      intros rs0 Hb H0.
      set (walked := match sProperties s with
                     | Some props => walkList (visitProxy rec idx true) props.*2 rs0
                     | None => Some rs0
                     end) in Hb.
      destruct walked as [rs1|] eqn:E1; [|done].
      assert (rs0 ⊆ rs1) as H1.
      { unfold walked in E1. destruct (sProperties s); [|by injection E1 as <-].
        eapply walkList_extensive; [|done]. apply Hv. }
      assert (rs1 ⊆ rs') as Hsub.
      { eapply walkBranch_extensive; [apply Hv| |exact Hb].
        intros x y Hx. eapply walkBranch_extensive; [apply Hv| |exact Hx]. apply Hwl. }
      set_solver.
Qed.

Lemma collectSchemaRefs_fuel_follows fuel : follower (collectSchemaRefs_fuel idx fuel).
Proof.
  induction fuel as [|fuel IH]; intros s rs rs'; [done|]. simpl.
  apply collectBody_follows; [apply collectSchemaRefs_fuel_extensive|done].
Qed.

Lemma records_follows s : records (collectSchemaRefs idx (Some s)) (follows s).
Proof.
  intros rs. split; [apply collectSchemaRefs_extensive|]. intros r Hr.
  pose proof (collectSchemaRefs_fuel_enough idx (Some s) rs (fuelBound idx (Some s))
                (Nat.le_refl _)) as E.
  eapply collectSchemaRefs_fuel_follows; [exact E|exact Hr].
Qed.

Lemma records_proxyFollows f p :
  (forall rs, f rs = match p with
                     | ProxyNil => rs
                     | _ => collectSchemaRefs idx (SchemaOf idx p) (recordRef (GetReference p) rs)
                     end) ->
  records f (proxyFollows idx p).
Proof.
  intros Hf rs. rewrite Hf. unfold proxyFollows.
  destruct p as [|c|r0].
  - split; [done|]. by intros r ?%elem_of_nil.
  - cbn [GetReference SchemaOf refOf]. unfold recordRef, refOf.
    rewrite !decide_True by done. cbn [app]. apply records_follows.
  - assert (forall s, records (collectSchemaRefs idx s)
                        (match s with Some t => follows t | None => [] end)) as Hs.
    { intros [t|]; [apply records_follows|].
      apply records_nil. intros x. apply collectSchemaRefs_extensive. }
    apply (records_seq (recordRef (GetReference (ProxyRef r0)))
             (collectSchemaRefs idx (SchemaOf idx (ProxyRef r0)))
             _ _ (records_recordRef _) (Hs _)).
Qed.

Lemma records_collectSchemaProxy_follows p :
  records (collectSchemaProxy idx p) (proxyFollows idx p).
Proof. apply records_proxyFollows. intros rs. by destruct p. Qed.

Lemma records_collectComponentSchema_follows p :
  records (collectComponentSchema idx p) (proxyFollows idx p).
Proof. apply records_proxyFollows. intros rs. by destruct p. Qed.

End FollowFacts.

(** ** From the schemas to the operations and the components *)

Section OverFacts.
Context (idx : Index) (P : SchemaProxy -> list string).
Hypothesis HP : forall p, records (collectSchemaProxy idx p) (P p).
Hypothesis HC : forall p, records (collectComponentSchema idx p) (P p).

Lemma records_content_over c : records (collectContent idx c) (contentOver P c).
Proof.
  unfold collectContent, contentOver. destruct c as [m|]; [|apply records_id].
  apply (records_foldl (fun rs kv => collectSchemaProxy idx (mtSchema kv.2) rs)
           (fun kv => P (mtSchema kv.2))).
  intros x. apply HP.
Qed.

Lemma records_header_over v : records (collectHeader idx v) (headerOver P v).
Proof.
  unfold collectHeader, headerOver.
  apply (records_seq (recordRef (hReference v))
           (fun rs => collectContent idx (hContent v) (collectSchemaProxy idx (hSchema v) rs)));
    [apply records_recordRef|].
  apply (records_seq (collectSchemaProxy idx (hSchema v)) (collectContent idx (hContent v)));
    [apply HP|apply records_content_over].
Qed.

Lemma records_any_over proxy : records (collectRefFromProxy idx proxy) (anyOver P proxy).
Proof.
  destruct proxy as [v|v|v|v]; unfold collectRefFromProxy, anyOver.
  - apply (records_seq (recordRef (pReference v))
             (fun rs => collectContent idx (pContent v) (collectSchemaProxy idx (pSchema v) rs)));
      [apply records_recordRef|].
    apply (records_seq (collectSchemaProxy idx (pSchema v)) (collectContent idx (pContent v)));
      [apply HP|apply records_content_over].
  - apply (records_seq (recordRef (rbReference v)) (collectContent idx (rbContent v)));
      [apply records_recordRef|apply records_content_over].
  - apply (records_seq (recordRef (rReference v))
             (fun rs => match rHeaders v with
                        | Some hs => foldl (fun rs kv => collectHeader idx kv.2 rs)
                                       (collectContent idx (rContent v) rs) hs
                        | None => collectContent idx (rContent v) rs
                        end)); [apply records_recordRef|].
    destruct (rHeaders v) as [hs|].
    + apply (records_seq (collectContent idx (rContent v))
               (fun rs => foldl (fun rs kv => collectHeader idx kv.2 rs) rs hs));
        [apply records_content_over|].
      apply (records_foldl (fun rs kv => collectHeader idx kv.2 rs)
               (fun kv => headerOver P kv.2)).
      intros x. apply records_header_over.
    + eapply records_incl; [apply records_content_over|].
      intros r. by rewrite app_nil_r.
  - apply records_header_over.
Qed.

Lemma records_parameters_over (l : list Param) :
  records (fun rs => foldl (fun rs param => collectRefFromProxy idx (AParameter param) rs) rs l)
    (flat_map (fun param => anyOver P (AParameter param)) l).
Proof.
  apply (records_foldl (fun rs param => collectRefFromProxy idx (AParameter param) rs)
           (fun param => anyOver P (AParameter param))).
  intros x. apply records_any_over.
Qed.

Lemma records_operation_over op : records (collectOperation idx op) (operationOver P op).
Proof.
  unfold collectOperation, operationOver.
  apply (records_seq
           (fun rs => match opRequestBody op with
                      | Some b => collectRefFromProxy idx (ARequestBody b) rs
                      | None => rs end)
           (fun rs => match opResponses op with
                      | Some rsp =>
                          foldl (fun acc kv => collectRefFromProxy idx (AResponse kv.2) acc)
                            match Default rsp with
                            | Some d => collectRefFromProxy idx (AResponse d)
                                (foldl (fun rs param => collectRefFromProxy idx (AParameter param) rs)
                                   rs (opParameters op))
                            | None => foldl (fun rs param => collectRefFromProxy idx (AParameter param) rs)
                                   rs (opParameters op)
                            end (Codes rsp)
                      | None => foldl (fun rs param => collectRefFromProxy idx (AParameter param) rs)
                                   rs (opParameters op)
                      end)).
  { destruct (opRequestBody op); [apply records_any_over|apply records_id]. }
  pose proof (records_parameters_over (opParameters op)) as Hp.
  destruct (opResponses op) as [rsp|].
  - apply (records_seq _ (fun rs =>
             foldl (fun acc kv => collectRefFromProxy idx (AResponse kv.2) acc)
               match Default rsp with
               | Some d => collectRefFromProxy idx (AResponse d) rs
               | None => rs
               end (Codes rsp)) _ _ Hp).
    apply (records_seq
             (fun rs => match Default rsp with
                        | Some d => collectRefFromProxy idx (AResponse d) rs
                        | None => rs end)
             (fun rs => foldl (fun acc kv => collectRefFromProxy idx (AResponse kv.2) acc)
                          rs (Codes rsp))).
    + destruct (Default rsp); [apply records_any_over|apply records_id].
    + apply (records_foldl (fun acc kv => collectRefFromProxy idx (AResponse kv.2) acc)
               (fun kv => anyOver P (AResponse kv.2))).
      intros x. apply records_any_over.
  - eapply records_incl; [apply Hp|]. intros r. by rewrite app_nil_r.
Qed.

Lemma records_pathItem_over item : records (collectPathItem idx item) (pathItemOver P item).
Proof.
  unfold collectPathItem, pathItemOver.
  apply (records_seq
           (fun rs => foldl (fun rs param => collectRefFromProxy idx (AParameter param) rs)
                        rs (piParameters item))
           (fun rs => foldl (fun rs kv => collectOperation idx kv.2 rs) rs (piOperations item))).
  - apply records_parameters_over.
  - apply (records_foldl (fun rs kv => collectOperation idx kv.2 rs)
             (fun kv => operationOver P kv.2)).
    intros x. apply records_operation_over.
Qed.

Lemma records_table_over {V} (f : V -> gset string -> gset string) (D : V -> list string) m :
  (forall v, records (f v) (D v)) -> records (collectMap f m) (tableMentions D m).
Proof.
  intros Hf. unfold collectMap, tableMentions. destruct m as [om|]; [|apply records_id].
  apply (records_foldl (fun rs kv => f kv.2 rs) (fun kv => D kv.2)).
  intros x. apply Hf.
Qed.

Lemma records_components_over c : records (collectComponents idx c) (sweepOver P c).
Proof.
  unfold collectComponents, sweepOver.
  apply (records_seq
           (collectMap (fun v => collectRefFromProxy idx (AParameter v)) (Parameters c))
           (fun rs => collectMap (collectComponentSchema idx) (Schemas c)
              (collectMap (fun v => collectRefFromProxy idx (AHeader v)) (Headers c)
                 (collectMap (fun v => collectRefFromProxy idx (AResponse v)) (CResponses c)
                    (collectMap (fun v => collectRefFromProxy idx (ARequestBody v))
                       (RequestBodies c) rs))))).
  { apply records_table_over. intros v. apply records_any_over. }
  apply (records_seq
           (collectMap (fun v => collectRefFromProxy idx (ARequestBody v)) (RequestBodies c))
           (fun rs => collectMap (collectComponentSchema idx) (Schemas c)
              (collectMap (fun v => collectRefFromProxy idx (AHeader v)) (Headers c)
                 (collectMap (fun v => collectRefFromProxy idx (AResponse v)) (CResponses c)
                    rs)))).
  { apply records_table_over. intros v. apply records_any_over. }
  apply (records_seq
           (collectMap (fun v => collectRefFromProxy idx (AResponse v)) (CResponses c))
           (fun rs => collectMap (collectComponentSchema idx) (Schemas c)
              (collectMap (fun v => collectRefFromProxy idx (AHeader v)) (Headers c) rs))).
  { apply records_table_over. intros v. apply records_any_over. }
  apply (records_seq
           (collectMap (fun v => collectRefFromProxy idx (AHeader v)) (Headers c))
           (collectMap (collectComponentSchema idx) (Schemas c))).
  { apply records_table_over. intros v. apply records_any_over. }
  apply records_table_over. apply HC.
Qed.

Lemma namedMentions_table {V} prefix (f : V -> list string) table r r' :
  r' ∈ namedMentions prefix f table r -> r' ∈ tableMentions f table.
Proof.
  unfold namedMentions, tableMentions. destruct table as [om|]; [|done].
  rewrite !list_elem_of_In, !in_flat_map. intros [kv [Hin Hr]]. exists kv. split; [done|].
  destruct (String.eqb _ r); [done|]. by destruct Hr.
Qed.

Lemma namedOver_sweep model c r r' :
  DComponents model = Some c -> r' ∈ namedOver P model r -> r' ∈ sweepOver P c.
Proof.
  unfold namedOver, sweepOver. intros ->. rewrite !elem_of_app.
  intros [?|[?|[?|[?|?]]]]; eauto 10 using @namedMentions_table.
Qed.

Lemma operationsOver_collected model r :
  r ∈ operationsOver P model -> r ∈ findOperationRefs idx model.
Proof.
  unfold operationsOver, findOperationRefs, operationRefSet.
  destruct (DPaths model) as [[[items|]]|]; [|by intros ?%elem_of_nil..].
  intros Hr. apply Sort_elem_of, elem_of_elements.
  assert (r ∈ foldl (fun rs kv => collectPathItem idx kv.2 rs) ∅ items) as Hin.
  { apply (records_foldl (fun rs kv => collectPathItem idx kv.2 rs)
             (fun kv => pathItemOver P kv.2) items); [|done].
    intros x. apply records_pathItem_over. }
  destruct (DComponents model) as [c|]; [|done].
  by apply collectComponents_extensive.
Qed.

Lemma namedOver_collected model r r' :
  is_Some (operationRefSet idx model) ->
  r' ∈ namedOver P model r -> r' ∈ findOperationRefs idx model.
Proof.
  unfold findOperationRefs, operationRefSet.
  destruct (DPaths model) as [[[items|]]|]; [|by intros [? ?]..]. intros _ Hr.
  apply Sort_elem_of, elem_of_elements.
  destruct (DComponents model) as [c|] eqn:Ec.
  - apply records_components_over. by eapply namedOver_sweep.
  - unfold namedOver in Hr. rewrite Ec in Hr. by apply elem_of_nil in Hr.
Qed.

Lemma namedMentions_keepMap {V} prefix (f : V -> list string) table refs r r' :
  r' ∈ namedMentions prefix f table r -> Contains refs r = true ->
  r' ∈ namedMentions prefix f (keepMap prefix refs table) r.
Proof.
  unfold namedMentions, keepMap. destruct table as [om|]; [|done]. simpl.
  rewrite !list_elem_of_In, !in_flat_map. intros [kv [Hin Hr]] Hc. exists kv.
  destruct (String.eqb_spec (prefix +:+ kv.1) r) as [Heq|Hne]; [|by destruct Hr].
  split; [|done]. apply filter_In. split; [done|]. unfold kept. by rewrite Heq.
Qed.

Lemma namedOver_pruneStep model r r' :
  r ∈ findOperationRefs idx model ->
  r' ∈ namedOver P model r -> r' ∈ namedOver P (pruneStep idx model) r.
Proof.
  intros Hr. apply Contains_elem_of in Hr.
  unfold pruneStep. rewrite removeOrphanedComponents_eq. unfold namedOver.
  destruct (DComponents model) as [c|] eqn:Ec; [|cbn [snd]; by rewrite Ec].
  cbn [snd DComponents Schemas Parameters RequestBodies CResponses Headers].
  rewrite !elem_of_app.
  intros [?|[?|[?|[?|?]]]]; eauto 10 using @namedMentions_keepMap.
Qed.

Lemma namedOver_dropUngenerated model r :
  namedOver P (dropUngenerated model) r = namedOver P model r.
Proof. unfold namedOver, dropUngenerated. simpl. by destruct (DComponents model). Qed.

Lemma operationsOver_paths m m' :
  DPaths m = DPaths m' -> operationsOver P m = operationsOver P m'.
Proof. unfold operationsOver. by intros ->. Qed.
End OverFacts.

(** ** What is followed from an operation is never deleted *)

Section Retained.
Context (idx : Index) (m0 : Document) (S : string -> Prop).
Hypothesis Hpaths : is_Some (operationRefSet idx m0).
Hypothesis HS : supported idx m0 S.
Let P := proxyFollows idx.
Let start := dropUngenerated m0.

Lemma DPaths_iter n : DPaths (pruneIter idx n start) = DPaths m0.
Proof. by rewrite DPaths_pruneIter. Qed.

(** After any number of iterations every reference of the set is
    collected, and the components it names still hold what they held. *)
Lemma supported_iter n :
  (forall r r', S r -> r' ∈ namedOver P m0 r ->
                r' ∈ namedOver P (pruneIter idx n start) r)
  /\ (forall r, S r -> r ∈ findOperationRefs idx (pruneIter idx n start)).
Proof.
  assert (forall n,
            (forall r r', S r -> r' ∈ namedOver P m0 r ->
                          r' ∈ namedOver P (pruneIter idx n start) r) ->
            forall r, S r -> r ∈ findOperationRefs idx (pruneIter idx n start))
    as Hq.
  { intros k Hp r Hr. destruct (HS r Hr) as [Hop|(r0 & Hr0 & Hin)].
    - apply (operationsOver_collected idx P); [apply records_collectSchemaProxy_follows|].
      by rewrite (operationsOver_paths P _ m0) by apply DPaths_iter.
    - apply (namedOver_collected idx P) with (r := r0);
        [apply records_collectSchemaProxy_follows
        |apply records_collectComponentSchema_follows| |by apply Hp].
      apply (operationRefSet_paths idx m0); [by rewrite DPaths_iter|done]. }
  induction n as [|n [IHp IHq]].
  - assert (forall r r', S r -> r' ∈ namedOver P m0 r ->
                         r' ∈ namedOver P (pruneIter idx 0 start) r) as H0.
    { intros r r' _ Hr'. simpl. unfold start. by rewrite namedOver_dropUngenerated. }
    split; [done|]. by apply Hq.
  - assert (forall r r', S r -> r' ∈ namedOver P m0 r ->
                         r' ∈ namedOver P (pruneIter idx (Datatypes.S n) start) r) as HS'.
    { intros r r' Hf Hr'.
      change (pruneIter idx (Datatypes.S n) start)
        with (pruneStep idx (pruneIter idx n start)).
      apply namedOver_pruneStep; [by apply IHq|by apply IHp]. }
    split; [done|]. by apply Hq.
Qed.

Lemma supported_kept n k key :
  key ∈ componentKeys k m0 -> S (componentRef k key) ->
  key ∈ componentKeys k (pruneIter idx n start).
Proof.
  intros Hk Hf. induction n as [|n IH].
  - simpl. unfold start. by rewrite componentKeys_dropUngenerated.
  - change (pruneIter idx (Datatypes.S n) start)
      with (pruneStep idx (pruneIter idx n start)).
    apply componentKeys_pruneStep. split; [done|]. by apply supported_iter.
Qed.
End Retained.

Lemma Followed_paths idx m0 r : Followed idx m0 r -> is_Some (operationRefSet idx m0).
Proof.
  induction 1 as [r Hr|]; [|done]. unfold operationsOver in Hr. unfold operationRefSet.
  destruct (DPaths m0) as [[[items|]]|]; [by eexists|by apply elem_of_nil in Hr..].
Qed.

Lemma Followed_supported idx m0 : supported idx m0 (Followed idx m0).
Proof.
  intros r Hr. destruct Hr as [r Hr|r0 r Hr0 Hr]; [by left|]. right. by exists r0.
Qed.



End PruneLaws.

(** * Further properties of the filter engine *)
Module FilterLaws.
Import Go Filter FilterFacts FilterSupport.
Local Open Scope list_scope.
#[local] Set Warnings "-clear-no-such-hyp".

(** ** When an operation is kept *)

Lemma sliceContains_in s v : sliceContains s v = true <-> inSlice v s.
Proof. destruct s as [l|]; simpl; [apply PruneFacts.Contains_elem_of|done]. Qed.

Lemma existsb_slice s tags :
  existsb (fun tag => sliceContains s tag) tags = true
  <-> exists tag, tag ∈ tags /\ inSlice tag s.
Proof.
  rewrite existsb_exists. split.
  - intros [tag [Hin Hc]]. exists tag. split; [by apply list_elem_of_In|by apply sliceContains_in].
  - intros [tag [Hin Hc]]. exists tag. split; [by apply list_elem_of_In|by apply sliceContains_in].
Qed.

Lemma shouldRemove_eq cfg op :
  shouldRemove cfg op =
    existsb (fun tag => sliceContains (Tags (Exclude cfg)) tag) (opTags op)
    || ((0 <? len (Tags (Include cfg)))%nat
        && negb (existsb (fun tag => sliceContains (Tags (Include cfg)) tag) (opTags op)))
    || sliceContains (OperationIDs (Exclude cfg)) (OperationId op)
    || (negb (isNil (OperationIDs (Include cfg)))
        && negb (sliceContains (OperationIDs (Include cfg)) (OperationId op))).
Proof.
  unfold shouldRemove.
  destruct (OperationIDs (Exclude cfg)) as [xe|]; simpl;
    destruct (existsb _ (opTags op)), (0 <? len (Tags (Include cfg)))%nat,
      (existsb _ (opTags op)), (negb (isNil (OperationIDs (Include cfg)))),
      (sliceContains (OperationIDs (Include cfg)) (OperationId op));
    simpl; try reflexivity; by destruct (Contains xe (OperationId op)).
Qed.

(** X12: the flag [remove] that the loop body of [filterOperations]
    computes for an operation it visits, as a condition: the flag is false
    when the [switch] is reached exactly when none of the operation's tags is
    in [Exclude.Tags], [Include.Tags] is empty or holds one of its tags, its
    id is not in [Exclude.OperationIDs], and [Include.OperationIDs] is nil or
    holds its id.  So in the flag an exclusion wins over every inclusion, and
    the inclusions must all hold. *)
Theorem shouldRemove_kept_iff (cfg : FilterConfig) (op : Operation) :
  shouldRemove cfg op = false <->
    (forall tag, tag ∈ opTags op -> ~ inSlice tag (Tags (Exclude cfg)))
    /\ (len (Tags (Include cfg)) = 0
        \/ exists tag, tag ∈ opTags op /\ inSlice tag (Tags (Include cfg)))
    /\ ~ inSlice (OperationId op) (OperationIDs (Exclude cfg))
    /\ (OperationIDs (Include cfg) = None
        \/ inSlice (OperationId op) (OperationIDs (Include cfg))).
Proof.
  rewrite shouldRemove_eq, !orb_false_iff, !andb_false_iff, !negb_false_iff.
  rewrite <- !not_true_iff_false, !existsb_slice, !sliceContains_in, Nat.ltb_lt.
  assert (isNil (OperationIDs (Include cfg)) = true <-> OperationIDs (Include cfg) = None)
    as -> by (by destruct (OperationIDs (Include cfg))).
  split.
  - intros [[[Hex Hin] Hxe] Hxi]. split; [|split; [|split]]; [|destruct Hin; [left; lia|by right]|done..].
    intros tag Ht Hs. apply Hex. by exists tag.
  - intros (Hex & Hin & Hxe & Hxi). split; [split; [split|]|]; [|destruct Hin; [left; lia|by right]|done..].
    intros [tag [Ht Hs]]. by apply (Hex tag).
Qed.

(** ** The operations of a path *)

Lemma foldl_slot cfg method o item :
  foldl (fun item '(method, op) =>
           if shouldRemove cfg op then clearMethod method item else item)
    item (match o with Some op => [(method, op)] | None => [] end)
  = clearIf cfg method o item.
Proof. by destruct o. Qed.

Lemma filterPathItem_clearIf cfg p :
  filterPathItem cfg p =
    clearIf cfg "trace" (Trace p) (clearIf cfg "patch" (Patch p)
      (clearIf cfg "head" (Head p) (clearIf cfg "options" (Options p)
        (clearIf cfg "delete" (PDelete p) (clearIf cfg "post" (Post p)
          (clearIf cfg "put" (Put p) (clearIf cfg "get" (Get p) p))))))).
Proof.
  unfold filterPathItem, GetOperations. rewrite !foldl_app, !foldl_slot. done.
Qed.

Lemma clearIf_fields cfg m o x :
  clearIf cfg m o x =
    {| Get := if String.eqb m "get" && removes cfg o then None else Get x;
       Put := if String.eqb m "put" && removes cfg o then None else Put x;
       Post := if String.eqb m "post" && removes cfg o then None else Post x;
       PDelete := if String.eqb m "delete" && removes cfg o then None else PDelete x;
       Options := if String.eqb m "options" && removes cfg o then None else Options x;
       Head := if String.eqb m "head" && removes cfg o then None else Head x;
       Patch := if String.eqb m "patch" && removes cfg o then None else Patch x;
       Trace := if String.eqb m "trace" && removes cfg o then None else Trace x |}.
Proof.
  unfold clearIf, removes. destruct o as [op|]; [destruct (shouldRemove cfg op)|].
  - unfold clearMethod. by rewrite !andb_true_r.
  - rewrite !andb_false_r. by destruct x.
  - rewrite !andb_false_r. by destruct x.
Qed.

Lemma keepOperation_removes cfg o :
  (if removes cfg o then None else o) = keepOperation cfg o.
Proof. destruct o as [op|]; simpl; [|done]. by destruct (shouldRemove cfg op). Qed.

Lemma filterPathItem_eq cfg p : filterPathItem cfg p = keptOperations cfg p.
Proof.
  rewrite filterPathItem_clearIf.
  do 8 (rewrite clearIf_fields;
        cbn [Get Put Post PDelete Options Head Patch Trace
             String.eqb Ascii.eqb Bool.eqb andb]).
  by rewrite !keepOperation_removes.
Qed.

Lemma keepOperation_slot cfg (method : string) o :
  match keepOperation cfg o with Some op => [(method, op)] | None => [] end
  = List.filter (fun kv => negb (shouldRemove cfg kv.2))
      (match o with Some op => [(method, op)] | None => [] end).
Proof.
  destruct o as [op|]; simpl; [|done]. by destruct (shouldRemove cfg op).
Qed.

(** X13: the inner loop of [filterOperations], over the operations of
    the path item in hand, decides each method on its own: the slot of an
    operation whose flag is set becomes nil and every other slot is left as
    it was, whatever happens to its siblings; the operations of the path item
    it leaves are those whose flag is not set, unchanged and in their
    order. *)
Theorem filterPathItem_slots (cfg : FilterConfig) (p : PathItem) :
  filterPathItem cfg p = keptOperations cfg p
  /\ GetOperations (filterPathItem cfg p)
     = List.filter (fun kv => negb (shouldRemove cfg kv.2)) (GetOperations p).
Proof.
  rewrite filterPathItem_eq. split; [done|].
  unfold GetOperations, keptOperations. cbn [Get Put Post PDelete Options Head Patch Trace].
  rewrite !List.filter_app. by rewrite !keepOperation_slot.
Qed.

(** ** The loop over the paths *)

Lemma Delete_absent {V} key (m : OrderedMap V) : key ∉ m.*1 -> Delete key m = m.
Proof.
  unfold Delete. induction m as [|[k v] m IH]; [done|].
  rewrite fmap_cons, not_elem_of_cons. intros [Hne Hin]. simpl.
  rewrite (proj2 (String.eqb_neq k key)) by done. simpl. by rewrite IH.
Qed.

Lemma Delete_app {V} key (a b : OrderedMap V) :
  Delete key (a ++ b) = Delete key a ++ Delete key b.
Proof. unfold Delete. apply List.filter_app. Qed.

Lemma setPathItem_absent path item (m : OrderedMap PathItem) :
  path ∉ m.*1 -> setPathItem path item m = m.
Proof.
  unfold setPathItem. induction m as [|[k v] m IH]; [done|].
  rewrite !fmap_cons, not_elem_of_cons. intros [Hne Hin]. cbn [fst].
  rewrite (proj2 (String.eqb_neq k path)) by done. f_equal. by apply IH.
Qed.

Lemma setPathItem_app path item (a b : OrderedMap PathItem) :
  setPathItem path item (a ++ b) = setPathItem path item a ++ setPathItem path item b.
Proof. unfold setPathItem. apply fmap_app. Qed.

Lemma NoDup_keys_middle {V} (a : OrderedMap V) k v (b : OrderedMap V) :
  NoDup (a ++ (k, v) :: b).*1 ->
  (k ∉ KeysFromOldest a) /\ (k ∉ KeysFromOldest b)
  /\ forall w, NoDup ((a ++ [(k, w)]) ++ b).*1.
Proof.
  unfold KeysFromOldest. rewrite fmap_app, fmap_cons. cbn [fst]. intros Hnd.
  apply NoDup_app in Hnd as (Ha & Hab & Hb). apply NoDup_cons in Hb as [Hkb Hb].
  split; [|split; [done|]].
  - intros Hin. apply (Hab k Hin). by left.
  - intros w. rewrite <- app_assoc, fmap_app. cbn. apply NoDup_app. split; [done|].
    split; [|by constructor]. exact Hab.
Qed.

(** The step of the loop at an entry that stays. *)
Lemma pathLoop_keep cfg visited path item rest :
  NoDup (visited ++ (path, item) :: rest).*1 -> pathDeleted cfg path = false ->
  pathLoop cfg ((path, item) :: rest) (visited ++ (path, item) :: rest)
  = pathLoop cfg rest ((visited ++ [filterEntry cfg (path, item)]) ++ rest).
Proof.
  intros Hnd Hk. destruct (NoDup_keys_middle _ _ _ _ Hnd) as (Ha & Hb & _).
  cbn [pathLoop]. rewrite Hk. f_equal.
  rewrite setPathItem_app, (setPathItem_absent _ _ visited) by done.
  rewrite <- app_assoc. f_equal. unfold setPathItem at 1. rewrite fmap_cons. cbn [fst].
  rewrite String.eqb_refl. unfold filterEntry. cbn [fst snd app]. rewrite filterPathItem_eq.
  f_equal. by apply setPathItem_absent.
Qed.

(** A loop that deletes nothing filters every entry. *)
Lemma pathLoop_all cfg entries : forall visited,
  NoDup (visited ++ entries).*1 -> allKept cfg entries ->
  pathLoop cfg entries (visited ++ entries) = visited ++ (filterEntry cfg <$> entries).
Proof.
  induction entries as [|[path item] rest IH]; intros visited Hnd Hall; [done|].
  rewrite pathLoop_keep; [|done|apply (Hall (path, item)); by left].
  rewrite IH.
  - by rewrite <- app_assoc.
  - by apply (NoDup_keys_middle visited path item rest).
  - intros kv Hin. apply Hall. by right.
Qed.

(** The loop ends at the first path it deletes. *)
Lemma pathLoop_first cfg before : forall visited path item after,
  NoDup (visited ++ before ++ (path, item) :: after).*1 ->
  allKept cfg before -> pathDeleted cfg path = true ->
  pathLoop cfg (before ++ (path, item) :: after) (visited ++ before ++ (path, item) :: after)
  = visited ++ (filterEntry cfg <$> before) ++ after.
Proof.
  induction before as [|[p it] before IH]; intros visited path item after Hnd Hall Hd.
  - cbn [app pathLoop fmap list_fmap]. rewrite Hd.
    destruct (NoDup_keys_middle _ _ _ _ Hnd) as (Ha & Hb & _).
    rewrite Delete_app, (Delete_absent _ visited) by done. f_equal.
    unfold Delete at 1. cbn [List.filter fst]. rewrite String.eqb_refl. cbn [negb].
    by apply Delete_absent.
  - rewrite <- !app_comm_cons.
    rewrite pathLoop_keep; [|done|apply (Hall (p, it)); by left].
    rewrite IH; [by rewrite fmap_cons, <- app_assoc| |..|done].
    + by apply (NoDup_keys_middle visited p it (before ++ (path, item) :: after)).
    + intros kv Hin. apply Hall. by right.
Qed.

Lemma filterOperations_paths_all model cfg items :
  PathItems model = Some items -> NoDup (KeysFromOldest items) -> allKept cfg items ->
  exists m1, filterOperations model cfg = Some m1
    /\ PathItems m1 = Some (filterEntry cfg <$> items)
    /\ DComponents m1 = DComponents model.
Proof.
  intros Hp Hnd Hall. unfold filterOperations. rewrite Hp. eexists. split; [done|].
  split; [|done]. cbn [PathItems]. f_equal. by apply (pathLoop_all cfg items []).
Qed.

(** X14: [filterOperations] stops at the first path it deletes.  When
    every path passes the path-level test, each path item has its operations
    filtered, every method slot on its own.  Otherwise the first path that
    fails the test is deleted, the path items before it have their operations
    filtered, and the entries after it are left as they were: they are
    neither deleted nor filtered.  The components are not touched. *)
Theorem filterOperations_paths (model : Document) (cfg : FilterConfig)
    (items : OrderedMap PathItem) :
  PathItems model = Some items ->
  NoDup (KeysFromOldest items) ->
  (allKept cfg items ->
     filterOperations model cfg
     = Some {| PathItems := Some (filterEntry cfg <$> items);
               DComponents := DComponents model |})
  /\ (forall before path item after,
        items = before ++ (path, item) :: after ->
        allKept cfg before -> pathDeleted cfg path = true ->
        filterOperations model cfg
        = Some {| PathItems := Some ((filterEntry cfg <$> before) ++ after);
                  DComponents := DComponents model |}).
Proof.
  intros Hp Hnd. unfold filterOperations. rewrite Hp. split.
  - intros Hall. do 3 f_equal. by apply (pathLoop_all cfg items []).
  - intros before path item after -> Hall Hd. do 3 f_equal.
    by apply (pathLoop_first cfg before []).
Qed.

Lemma filterOperations_paths_witness :
  filterOperations fourPaths excludeAB
  = Some {| PathItems := Some [("/b", onlyGet "getB"); ("/c", onlyPut "putC");
                               ("/d", onlyGet "getD")];
            DComponents := None |}.
Proof.
  destruct (filterOperations_paths fourPaths excludeAB
              [("/a", onlyGet "getA"); ("/b", onlyGet "getB");
               ("/c", onlyPut "putC"); ("/d", onlyGet "getD")] eq_refl) as [_ H].
  - vm_compute. repeat (constructor; [set_solver|]). constructor.
  - apply (H [] "/a" (onlyGet "getA")
             [("/b", onlyGet "getB"); ("/c", onlyPut "putC"); ("/d", onlyGet "getD")]).
    + reflexivity.
    + by intros kv ?%elem_of_nil.
    + reflexivity.
Defined.

(** A second call goes on where the first stopped: with the paths [/b],
    [/c], [/d] and the operation [getB] included, the first call deletes
    [/a] and leaves the operations of [/c] and [/d], which the second call
    detaches. *)
Example filterOperations_twice :
  filterOperations fourPaths includeGetB
  = Some {| PathItems := Some [("/b", onlyGet "getB"); ("/c", onlyPut "putC");
                               ("/d", onlyGet "getD")];
            DComponents := None |}
  /\ filterOperations
       {| PathItems := Some [("/b", onlyGet "getB"); ("/c", onlyPut "putC");
                             ("/d", onlyGet "getD")];
          DComponents := None |} includeGetB
     = Some {| PathItems := Some [("/b", onlyGet "getB"); ("/c", getOnly None);
                                  ("/d", getOnly None)];
               DComponents := None |}.
Proof. split; by vm_compute. Qed.

Lemma keepOperation_idem cfg o : keepOperation cfg (keepOperation cfg o) = keepOperation cfg o.
Proof.
  destruct o as [op|]; simpl; [|done].
  destruct (shouldRemove cfg op) eqn:E; simpl; [done|]. by rewrite E.
Qed.

Lemma keptOperations_idem cfg p :
  keptOperations cfg (keptOperations cfg p) = keptOperations cfg p.
Proof. unfold keptOperations. simpl. by rewrite !keepOperation_idem. Qed.

Lemma filterEntry_keys cfg (l : OrderedMap PathItem) : (filterEntry cfg <$> l).*1 = l.*1.
Proof. rewrite <- list_fmap_compose. by apply list_fmap_ext. Qed.

Lemma filterEntry_idem cfg (l : OrderedMap PathItem) :
  filterEntry cfg <$> (filterEntry cfg <$> l) = filterEntry cfg <$> l.
Proof.
  rewrite <- list_fmap_compose. apply list_fmap_ext. intros i [k v] _.
  unfold filterEntry. simpl. by rewrite keptOperations_idem.
Qed.

Lemma allKept_filterEntry cfg (l : OrderedMap PathItem) :
  allKept cfg l -> allKept cfg (filterEntry cfg <$> l).
Proof.
  intros Hall kv Hin. apply list_elem_of_fmap in Hin as [kv' [-> Hin]].
  exact (Hall kv' Hin).
Qed.

(** ** Property filtering, mode by mode *)

Lemma Delete_filter {V} (f : string * V -> bool) k (m : OrderedMap V) :
  List.filter f (Delete k m)
  = List.filter (fun kv => negb (String.eqb kv.1 k) && f kv) m.
Proof.
  unfold Delete. induction m as [|kv m IH]; simpl; [done|].
  destruct (String.eqb kv.1 k); simpl; [done|]. by rewrite IH.
Qed.

Lemma Delete_Delete {V} k (m : OrderedMap V) : Delete k (Delete k m) = Delete k m.
Proof.
  unfold Delete. induction m as [|kv m IH]; simpl; [done|].
  destruct (String.eqb kv.1 k) eqn:E; simpl; [done|]. by rewrite E, IH.
Qed.

Lemma propertyStep_eq inc exc fp req (props : OrderedMap Prune.SchemaProxy) k :
  (if Contains req k then props
   else
     let props :=
       if inc && negb (Contains fp k) then Delete k props else props in
     if exc && Contains fp k then Delete k props else props)
  = if keepsProperty inc exc fp req k then props else Delete k props.
Proof.
  unfold keepsProperty. destruct (Contains req k); simpl; [done|].
  destruct (inc && negb (Contains fp k)), (exc && Contains fp k); simpl;
    by rewrite ?Delete_Delete.
Qed.

Lemma filterProperties_fold inc exc fp req keys : forall props : OrderedMap Prune.SchemaProxy,
  foldl (fun (props : OrderedMap Prune.SchemaProxy) propName =>
           if Contains req propName then props
           else
             let props :=
               if inc && negb (Contains fp propName)
               then Delete propName props else props in
             if exc && Contains fp propName
             then Delete propName props else props)
    props keys
  = List.filter
      (fun kv => forallb (fun k => keepsProperty inc exc fp req k
                                   || negb (String.eqb kv.1 k)) keys)
      props.
Proof.
  induction keys as [|k keys IH]; intros props.
  - simpl. induction props as [|kv props IHp]; simpl; congruence.
  - cbn [foldl]. rewrite propertyStep_eq, IH. cbn [forallb].
    destruct (keepsProperty inc exc fp req k); [done|].
    rewrite Delete_filter. done.
Qed.

Lemma filterProperties_eq inc exc fp req (props : OrderedMap Prune.SchemaProxy) :
  filterProperties inc exc fp req props
  = List.filter (fun kv => keepsProperty inc exc fp req kv.1) props.
Proof.
  unfold filterProperties. rewrite filterProperties_fold.
  apply List.filter_ext_in. intros kv Hin. unfold KeysFromOldest.
  destruct (keepsProperty inc exc fp req kv.1) eqn:E.
  - apply forallb_forall. intros k _.
    destruct (String.eqb_spec kv.1 k) as [<-|Hne]; [by rewrite E|by rewrite orb_true_r].
  - apply not_true_is_false. intros Hall. rewrite forallb_forall in Hall.
    specialize (Hall kv.1). rewrite E, String.eqb_refl in Hall. simpl in Hall.
    assert (false = true) by (apply Hall, in_map_iff; by exists kv). done.
Qed.

Lemma filterComponentSchemaProperties_at model cfg schemas i schemaName proxy :
  DComponents model = Some {| Schemas := Some schemas |} ->
  schemas !! i = Some (schemaName, proxy) ->
  let includeMode := (0 <? size (SchemaProperties (Include cfg)))%nat in
  let excludeMode := (0 <? size (SchemaProperties (Exclude cfg)))%nat in
  includeMode || excludeMode = true ->
  exists schemas',
    DComponents (filterComponentSchemaProperties model cfg)
      = Some {| Schemas := Some schemas' |}
    /\ schemas' !! i
       = Some (schemaName,
               filterSchemaProxy includeMode excludeMode
                 (if includeMode then SchemaProperties (Include cfg)
                  else SchemaProperties (Exclude cfg)) schemaName proxy).
Proof.
  intros Hc Hi includeMode excludeMode Hmode. unfold filterComponentSchemaProperties.
  rewrite Hc. fold includeMode excludeMode. rewrite Hmode.
  eexists. split; [reflexivity|]. by rewrite list_lookup_fmap, Hi.
Qed.

(** X15: with only [Include.SchemaProperties] configured, a schema it
    names keeps exactly its required properties and the properties listed
    for it, with their values and in their order. *)
Theorem include_mode_keeps_listed (model : Document) (cfg : FilterConfig)
    (schemas : OrderedMap SchemaProxy) (i : nat) (schemaName : string)
    (schema : Schema) (props : OrderedMap Prune.SchemaProxy) (listed : list string) :
  DComponents model = Some {| Schemas := Some schemas |} ->
  schemas !! i = Some (schemaName, {| SchemaOf := Some schema |}) ->
  Properties schema = Some props ->
  0 < size (SchemaProperties (Include cfg)) ->
  size (SchemaProperties (Exclude cfg)) = 0 ->
  SchemaProperties (Include cfg) !! schemaName = Some listed ->
  exists schemas',
    DComponents (filterComponentSchemaProperties model cfg)
      = Some {| Schemas := Some schemas' |}
    /\ schemas' !! i
       = Some (schemaName,
               {| SchemaOf := Some
                    {| Properties := Some
                         (List.filter
                            (fun kv => Contains (Required schema) kv.1 || Contains listed kv.1)
                            props);
                       Required := Required schema |} |}).
Proof.
  intros Hc Hi Hp Hinc Hexc Hl.
  destruct (filterComponentSchemaProperties_at model cfg schemas i schemaName _ Hc Hi)
    as [schemas' [H1 H2]].
  { rewrite (proj2 (Nat.ltb_lt _ _)) by done. done. }
  exists schemas'. split; [done|]. rewrite H2. f_equal. f_equal.
  rewrite (proj2 (Nat.ltb_lt _ _) Hinc), Hexc. unfold filterSchemaProxy. rewrite Hl.
  destruct schema as [ps req]. simpl in *. subst ps.
  rewrite filterProperties_eq. erewrite List.filter_ext; [reflexivity|].
  intros kv. unfold keepsProperty.
  simpl. by rewrite orb_false_r, negb_involutive.
Qed.

Lemma include_mode_keeps_listed_witness :
  exists schemas',
    DComponents (filterComponentSchemaProperties petModel includePetProps)
      = Some {| Schemas := Some schemas' |}
    /\ schemas' !! 0
       = Some ("Pet",
               {| SchemaOf := Some
                    {| Properties := Some
                         (List.filter
                            (fun kv => Contains (Required petSchema) kv.1 || Contains ["y"] kv.1)
                            petProps);
                       Required := Required petSchema |} |}).
Proof.
  apply (include_mode_keeps_listed petModel includePetProps
           [("Pet", {| SchemaOf := Some petSchema |})] 0 "Pet" petSchema petProps ["y"]);
    try reflexivity.
  vm_compute. lia.
Defined.

(** X16: with only [Exclude.SchemaProperties] configured, a schema it
    names keeps exactly its required properties and the properties not
    listed for it. *)
Theorem exclude_mode_drops_listed (model : Document) (cfg : FilterConfig)
    (schemas : OrderedMap SchemaProxy) (i : nat) (schemaName : string)
    (schema : Schema) (props : OrderedMap Prune.SchemaProxy) (listed : list string) :
  DComponents model = Some {| Schemas := Some schemas |} ->
  schemas !! i = Some (schemaName, {| SchemaOf := Some schema |}) ->
  Properties schema = Some props ->
  size (SchemaProperties (Include cfg)) = 0 ->
  0 < size (SchemaProperties (Exclude cfg)) ->
  SchemaProperties (Exclude cfg) !! schemaName = Some listed ->
  exists schemas',
    DComponents (filterComponentSchemaProperties model cfg)
      = Some {| Schemas := Some schemas' |}
    /\ schemas' !! i
       = Some (schemaName,
               {| SchemaOf := Some
                    {| Properties := Some
                         (List.filter
                            (fun kv => Contains (Required schema) kv.1
                                       || negb (Contains listed kv.1))
                            props);
                       Required := Required schema |} |}).
Proof.
  intros Hc Hi Hp Hinc Hexc Hl.
  destruct (filterComponentSchemaProperties_at model cfg schemas i schemaName _ Hc Hi)
    as [schemas' [H1 H2]].
  { rewrite (proj2 (Nat.ltb_lt _ _) Hexc). by rewrite orb_true_r. }
  exists schemas'. split; [done|]. rewrite H2. f_equal. f_equal.
  rewrite (proj2 (Nat.ltb_lt _ _) Hexc), Hinc. unfold filterSchemaProxy.
  change (0 <? 0)%nat with false. cbv iota. rewrite Hl.
  destruct schema as [ps req]. simpl in *. subst ps.
  rewrite filterProperties_eq. erewrite List.filter_ext; [reflexivity|].
  intros kv. unfold keepsProperty.
  done.
Qed.

Lemma exclude_mode_drops_listed_witness :
  exists schemas',
    DComponents (filterComponentSchemaProperties petModel excludePetProps)
      = Some {| Schemas := Some schemas' |}
    /\ schemas' !! 0
       = Some ("Pet",
               {| SchemaOf := Some
                    {| Properties := Some
                         (List.filter
                            (fun kv => Contains (Required petSchema) kv.1
                                       || negb (Contains ["x"; "y"] kv.1))
                            petProps);
                       Required := Required petSchema |} |}).
Proof.
  apply (exclude_mode_drops_listed petModel excludePetProps
           [("Pet", {| SchemaOf := Some petSchema |})] 0 "Pet" petSchema petProps ["x"; "y"]);
    try reflexivity.
  vm_compute. lia.
Defined.

(** X17: with both [Include.SchemaProperties] and
    [Exclude.SchemaProperties] configured, the list is taken from the include
    map and both deletions of the loop body run against it: a schema the
    include map names keeps its required properties only. *)
Theorem both_modes_keep_required_only (model : Document) (cfg : FilterConfig)
    (schemas : OrderedMap SchemaProxy) (i : nat) (schemaName : string)
    (schema : Schema) (props : OrderedMap Prune.SchemaProxy) (listed : list string) :
  DComponents model = Some {| Schemas := Some schemas |} ->
  schemas !! i = Some (schemaName, {| SchemaOf := Some schema |}) ->
  Properties schema = Some props ->
  0 < size (SchemaProperties (Include cfg)) ->
  0 < size (SchemaProperties (Exclude cfg)) ->
  SchemaProperties (Include cfg) !! schemaName = Some listed ->
  exists schemas',
    DComponents (filterComponentSchemaProperties model cfg)
      = Some {| Schemas := Some schemas' |}
    /\ schemas' !! i
       = Some (schemaName,
               {| SchemaOf := Some
                    {| Properties := Some
                         (List.filter (fun kv => Contains (Required schema) kv.1) props);
                       Required := Required schema |} |}).
Proof.
  intros Hc Hi Hp Hinc Hexc Hl.
  destruct (filterComponentSchemaProperties_at model cfg schemas i schemaName _ Hc Hi)
    as [schemas' [H1 H2]].
  { rewrite (proj2 (Nat.ltb_lt _ _) Hinc). done. }
  exists schemas'. split; [done|]. rewrite H2. f_equal. f_equal.
  rewrite (proj2 (Nat.ltb_lt _ _) Hinc), (proj2 (Nat.ltb_lt _ _) Hexc).
  unfold filterSchemaProxy. rewrite Hl.
  destruct schema as [ps req]. simpl in *. subst ps.
  rewrite filterProperties_eq. erewrite List.filter_ext; [reflexivity|].
  intros kv. unfold keepsProperty.
  simpl. destruct (Contains listed kv.1); simpl; by rewrite ?orb_false_r.
Qed.

Lemma both_modes_keep_required_only_witness :
  exists schemas',
    DComponents (filterComponentSchemaProperties petModel bothPetProps)
      = Some {| Schemas := Some schemas' |}
    /\ schemas' !! 0
       = Some ("Pet",
               {| SchemaOf := Some
                    {| Properties := Some
                         (List.filter (fun kv => Contains (Required petSchema) kv.1) petProps);
                       Required := Required petSchema |} |}).
Proof.
  apply (both_modes_keep_required_only petModel bothPetProps
           [("Pet", {| SchemaOf := Some petSchema |})] 0 "Pet" petSchema petProps ["y"]);
    try reflexivity; vm_compute; lia.
Defined.

(** X18: a schema the map in force does not name is left as it is, as is a
    proxy without a schema and a schema without properties; the map in force
    is the include map whenever it is not empty, so a schema named by the
    exclude map alone is then left as it is. *)
Theorem unnamed_schema_untouched (model : Document) (cfg : FilterConfig)
    (schemas : OrderedMap SchemaProxy) (i : nat) (schemaName : string) (proxy : SchemaProxy) :
  DComponents model = Some {| Schemas := Some schemas |} ->
  schemas !! i = Some (schemaName, proxy) ->
  (if (0 <? size (SchemaProperties (Include cfg)))%nat
   then SchemaProperties (Include cfg) else SchemaProperties (Exclude cfg)) !! schemaName = None
  \/ SchemaOf proxy = None
  \/ (exists schema, SchemaOf proxy = Some schema /\ Properties schema = None) ->
  exists schemas',
    DComponents (filterComponentSchemaProperties model cfg)
      = Some {| Schemas := Some schemas' |}
    /\ schemas' !! i = Some (schemaName, proxy).
Proof.
  intros Hc Hi Hcase.
  destruct ((0 <? size (SchemaProperties (Include cfg)))%nat
            || (0 <? size (SchemaProperties (Exclude cfg)))%nat) eqn:Emode.
  - destruct (filterComponentSchemaProperties_at model cfg schemas i schemaName _ Hc Hi Emode)
      as [schemas' [H1 H2]].
    exists schemas'. split; [done|]. rewrite H2. do 2 f_equal.
    unfold filterSchemaProxy. destruct Hcase as [->|[Hn|[schema [Hs Hp]]]]; [done| |].
    + rewrite Hn. by destruct (_ !! schemaName).
    + rewrite Hs. destruct schema as [ps req]. simpl in Hp. subst ps.
      by destruct (_ !! schemaName).
  - exists schemas. unfold filterComponentSchemaProperties. rewrite Hc, Emode. by rewrite Hc.
Qed.

Lemma unnamed_schema_untouched_witness :
  exists schemas',
    DComponents (filterComponentSchemaProperties petModel includeOtherProps)
      = Some {| Schemas := Some schemas' |}
    /\ schemas' !! 0 = Some ("Pet", {| SchemaOf := Some petSchema |}).
Proof.
  apply (unnamed_schema_untouched petModel includeOtherProps
           [("Pet", {| SchemaOf := Some petSchema |})] 0 "Pet" {| SchemaOf := Some petSchema |});
    [reflexivity|reflexivity|].
  left. by vm_compute.
Defined.

(** ** Filtering twice *)

Lemma filter_filter_same {A} (f : A -> bool) (l : list A) :
  List.filter f (List.filter f l) = List.filter f l.
Proof.
  induction l as [|x l IH]; simpl; [done|].
  destruct (f x) eqn:E; simpl; [|done]. by rewrite E, IH.
Qed.

Lemma filterSchemaProxy_idem inc exc pf name proxy :
  filterSchemaProxy inc exc pf name (filterSchemaProxy inc exc pf name proxy)
  = filterSchemaProxy inc exc pf name proxy.
Proof.
  unfold filterSchemaProxy. destruct (pf !! name) as [fp|] eqn:E; [|done].
  destruct proxy as [[[[props|] req]|]]; simpl; try done.
  by rewrite !filterProperties_eq, filter_filter_same.
Qed.

Lemma filterComponentSchemaProperties_paths model cfg :
  PathItems (filterComponentSchemaProperties model cfg) = PathItems model.
Proof.
  unfold filterComponentSchemaProperties.
  destruct (DComponents model) as [[[schemas|]]|]; try done.
  by destruct (_ || _).
Qed.

Lemma filterComponentSchemaProperties_components model cfg :
  DComponents (filterComponentSchemaProperties model cfg)
  = filterComponents cfg (DComponents model).
Proof.
  unfold filterComponentSchemaProperties, filterComponents, propertyModes.
  destruct (DComponents model) as [[[schemas|]]|] eqn:E; try done.
  by destruct (_ || _).
Qed.

Lemma filterSchemas_idem cfg schemas :
  filterSchemas cfg (filterSchemas cfg schemas) = filterSchemas cfg schemas.
Proof.
  unfold filterSchemas. rewrite <- list_fmap_compose. apply list_fmap_ext.
  intros j [k v] _. simpl. by rewrite filterSchemaProxy_idem.
Qed.

Lemma filterComponents_idem cfg c :
  filterComponents cfg (filterComponents cfg c) = filterComponents cfg c.
Proof.
  unfold filterComponents. destruct c as [[[schemas|]]|]; try done.
  destruct (propertyModes cfg) eqn:E; [|done].
  by rewrite filterSchemas_idem.
Qed.

Lemma document_ext (a b : Document) :
  PathItems a = PathItems b -> DComponents a = DComponents b -> a = b.
Proof. destruct a, b. simpl. by intros -> ->. Qed.

(** What [filterOutDocument] returns when no path is deleted. *)
Lemma filterOutDocument_all model cfg items :
  PathItems model = Some items -> NoDup (KeysFromOldest items) -> allKept cfg items ->
  isEmpty (Include cfg) && isEmpty (Exclude cfg) = false ->
  filterOutDocument model cfg
  = Some {| PathItems := Some (filterEntry cfg <$> items);
            DComponents := filterComponents cfg (DComponents model) |}.
Proof.
  intros Hp Hnd Hall He. unfold filterOutDocument. rewrite He.
  destruct (filterOperations_paths_all model cfg items Hp Hnd Hall) as [m1 [-> [H1 H2]]].
  f_equal. apply document_ext.
  - by rewrite filterComponentSchemaProperties_paths.
  - rewrite filterComponentSchemaProperties_components. simpl. by rewrite H2.
Qed.

(** X19: on a document none of whose paths fails the path-level test,
    [filterOutDocument] is idempotent: it returns a document, and filtering
    that document again with the same configuration returns it unchanged.
    (When a path is deleted the loop over the paths ends there, and a second
    call goes on with the paths after it: see [filterOperations_twice].) *)
Theorem filterOutDocument_idempotent (model : Document) (cfg : FilterConfig)
    (items : OrderedMap PathItem) :
  PathItems model = Some items ->
  NoDup (KeysFromOldest items) ->
  allKept cfg items ->
  exists filtered,
    filterOutDocument model cfg = Some filtered
    /\ filterOutDocument filtered cfg = Some filtered.
Proof.
  intros Hp Hnd Hall.
  destruct (isEmpty (Include cfg) && isEmpty (Exclude cfg)) eqn:He.
  { exists model. unfold filterOutDocument. by rewrite He. }
  eexists. split; [by apply filterOutDocument_all|].
  rewrite (filterOutDocument_all _ cfg (filterEntry cfg <$> items)).
  - cbn [DComponents]. by rewrite filterEntry_idem, filterComponents_idem.
  - reflexivity.
  - unfold KeysFromOldest. by rewrite filterEntry_keys.
  - by apply allKept_filterEntry.
  - done.
Qed.

Lemma filterOutDocument_idempotent_witness :
  exists filtered,
    filterOutDocument fourPaths onlyGetB = Some filtered
    /\ filterOutDocument filtered onlyGetB = Some filtered.
Proof.
  apply (filterOutDocument_idempotent fourPaths onlyGetB
           [("/a", onlyGet "getA"); ("/b", onlyGet "getB");
            ("/c", onlyPut "putC"); ("/d", onlyGet "getD")]).
  - reflexivity.
  - vm_compute. repeat (constructor; [set_solver|]). constructor.
  - by intros kv _.
Defined.

End FilterLaws.

(** * Further properties of the union synthesizer *)
Module UnionLaws.
Import Go Union UnionFacts UnionSupport.
Local Open Scope list_scope.
#[local] Set Warnings "-clear-no-such-hyp".

(** ** Deduplication of the member names *)

Lemma Contains_not_in s v : Contains s v = false <-> v ∉ s.
Proof. rewrite <- PruneFacts.Contains_elem_of. by destruct (Contains s v). Qed.

Lemma dedupFrom_elem_of elements : forall seen x,
  x ∈ dedupFrom seen elements <-> x ∈ elements /\ x ∉ seen.
Proof.
  induction elements as [|e l IH]; intros seen x; simpl.
  - split; [by intros ?%elem_of_nil|by intros [?%elem_of_nil _]].
  - destruct (Contains seen e) eqn:E.
    + apply PruneFacts.Contains_elem_of in E. rewrite IH, elem_of_cons. naive_solver.
    + apply Contains_not_in in E. rewrite !elem_of_cons, IH, elem_of_cons.
      destruct (decide (x = e)) as [->|Hne]; naive_solver.
Qed.

Lemma dedupFrom_NoDup elements : forall seen, NoDup (dedupFrom seen elements).
Proof.
  induction elements as [|e l IH]; intros seen; simpl; [constructor|].
  destruct (Contains seen e); [apply IH|]. constructor; [|apply IH].
  rewrite dedupFrom_elem_of, elem_of_cons. naive_solver.
Qed.

Lemma dedupFrom_length elements : forall seen,
  length (dedupFrom seen elements) <= length elements.
Proof.
  induction elements as [|e l IH]; intros seen; simpl; [done|].
  destruct (Contains seen e); simpl; [specialize (IH seen)|specialize (IH (e :: seen))]; lia.
Qed.

(** X20: [deduplicateUnionElements] returns a list without duplicates, with
    the same members as its argument, and no longer than it. *)
Theorem deduplicateUnionElements_distinct (elements : list string) :
  NoDup (deduplicateUnionElements elements)
  /\ (forall x, x ∈ deduplicateUnionElements elements <-> x ∈ elements)
  /\ length (deduplicateUnionElements elements) <= length elements.
Proof.
  unfold deduplicateUnionElements. split; [apply dedupFrom_NoDup|].
  split; [|apply dedupFrom_length].
  intros x. rewrite dedupFrom_elem_of. split; [by intros [? _]|].
  intros ?. split; [done|]. by intros ?%elem_of_nil.
Qed.

Lemma dedupFrom_ext elements : forall seen seen',
  (forall v, Contains seen v = Contains seen' v) ->
  dedupFrom seen elements = dedupFrom seen' elements.
Proof.
  induction elements as [|e l IH]; intros seen seen' H; simpl; [done|].
  rewrite <- H. destruct (Contains seen e); [by apply IH|]. f_equal. apply IH.
  intros v. simpl. by rewrite H.
Qed.

Lemma dedupFrom_seen x elements : forall seen,
  dedupFrom (x :: seen) elements
  = dedupFrom seen (List.filter (fun y => negb (String.eqb y x)) elements).
Proof.
  induction elements as [|e l IH]; intros seen; [done|].
  cbn [dedupFrom List.filter Contains]. rewrite String.eqb_sym.
  destruct (String.eqb_spec e x) as [->|Hne]; cbn [negb]; [apply IH|].
  cbn [dedupFrom]. destruct (Contains seen e); [apply IH|]. f_equal.
  rewrite <- IH. apply dedupFrom_ext. intros v. simpl.
  destruct (String.eqb e v), (String.eqb x v); done.
Qed.

Lemma dedupFrom_fixed elements : forall seen,
  NoDup elements -> (forall x, x ∈ elements -> x ∉ seen) ->
  dedupFrom seen elements = elements.
Proof.
  induction elements as [|e l IH]; intros seen Hnd Hs; [done|].
  apply NoDup_cons in Hnd as [He Hnd]. simpl.
  rewrite (proj2 (Contains_not_in seen e)) by (apply Hs; by left).
  f_equal. apply IH; [done|]. intros x Hx. rewrite not_elem_of_cons. split.
  - intros ->. done.
  - apply Hs. by right.
Qed.

(** X21: [deduplicateUnionElements] keeps the first occurrence of each
    name: the head stays in place and its later copies go; a list without
    duplicates is returned as it is, and so is the result of a first
    call. *)
Theorem deduplicateUnionElements_first (x : string) (elements : list string) :
  deduplicateUnionElements (x :: elements)
    = x :: deduplicateUnionElements (List.filter (fun y => negb (String.eqb y x)) elements)
  /\ (NoDup elements -> deduplicateUnionElements elements = elements)
  /\ deduplicateUnionElements (deduplicateUnionElements elements)
     = deduplicateUnionElements elements.
Proof.
  assert (forall l, NoDup l -> deduplicateUnionElements l = l) as H.
  { intros l Hl. apply dedupFrom_fixed; [done|]. intros y _. by intros ?%elem_of_nil. }
  split; [|split; [apply H|apply H, dedupFrom_NoDup]].
  unfold deduplicateUnionElements. simpl. by rewrite dedupFrom_seen.
Qed.

(** ** Errors, null members and empty unions *)

Lemma filterNull_kept elements :
  filterNull (Some <$> fst (filterNull elements)) = (fst (filterNull elements), false).
Proof.
  induction elements as [|x l IH]; [done|]. cbn [filterNull].
  destruct (filterNull l) as [nn hn] eqn:El. cbn [fst] in IH.
  destruct x as [e|]; [|exact IH].
  destruct (SchemaOf e) as [schema|] eqn:Es; [|exact IH].
  destruct (_ && _) eqn:En; [exact IH|].
  cbn [fst]. rewrite fmap_cons. cbn [filterNull]. rewrite IH, Es, En. done.
Qed.

(** X22: unless there is exactly one element (whose synthesis is passed
    on as it is), an error of [generateUnion] comes with the empty schema
    [GoSchema{}]. *)
Theorem generateUnion_error_is_empty `{G : Generator} (elements : list (option SchemaProxy))
    (discriminator : option BaseDiscriminator) (options : ParseOptions)
    (reg reg' : Registry) (schema : GoSchema) (err : error) :
  length elements ≠ 1 ->
  generateUnion elements discriminator options reg = Some (reg', (schema, Some err)) ->
  schema = zeroGoSchema.
Proof.
  intros Hl. rewrite generateUnion_many by done.
  destruct (filterNull elements) as [nn hn].
  assert (forall l,
    match unionLoop discriminator options
            {| lsRegistry := reg; lsOut := initialOut discriminator |} 0 l with
    | inl (reg, err) => Some (reg, (zeroGoSchema, Some err))
    | inr st =>
        let outSchema :=
          setUnionElements (lsOut st) (deduplicateUnionElements (UnionElements (lsOut st))) in
        match mappingSize outSchema with
        | Some n =>
            if negb (n =? length l)%nat
            then Some (lsRegistry st, (zeroGoSchema, Some ErrDiscriminatorNotAllMapped))
            else Some (lsRegistry st, (outSchema, None))
        | None => Some (lsRegistry st, (outSchema, None))
        end
    end = Some (reg', (schema, Some err)) -> schema = zeroGoSchema) as Hloop.
  { intros l. destruct (unionLoop _ _ _ _ _) as [[r x]|st]; [by intros [= _ <- _]|].
    cbv zeta. destruct (mappingSize _) as [n|]; [|done].
    destruct (negb _); [by intros [= _ <- _]|done]. }
  destruct nn as [|e [|e' nn]]; [apply Hloop| |apply Hloop].
  destruct (GenerateGoSchema e _ reg) as [r [s [x|]]]; [by intros [= _ <- _]|done].
Qed.

Lemma generateUnion_error_is_empty_witness :
  zeroGoSchema = zeroGoSchema.
Proof.
  apply (generateUnion_error_is_empty (G := demoGenerator) threePets (Some foxForDog)
           ["Pet"] [] [] zeroGoSchema "discriminator: not all schemas were mapped").
  - simpl. lia.
  - by vm_compute.
Defined.

(** X23: when the members left are not exactly one, the elements dropped
    by the first loop (nil, without schema, or of the null type) leave no
    trace: the result is that of the union of the members left, and members
    are numbered by their place among those. *)
Theorem generateUnion_ignores_null `{G : Generator} (elements : list (option SchemaProxy))
    (discriminator : option BaseDiscriminator) (options : ParseOptions) (reg : Registry) :
  length elements ≠ 1 -> length (fst (filterNull elements)) ≠ 1 ->
  generateUnion elements discriminator options reg
  = generateUnion (Some <$> fst (filterNull elements)) discriminator options reg.
Proof.
  intros Hl Hn. rewrite !generateUnion_many by (by rewrite ?length_fmap).
  rewrite filterNull_kept. destruct (filterNull elements) as [nn hn]. cbn [fst] in *.
  by destruct nn as [|e [|e' nn]].
Qed.

Lemma generateUnion_ignores_null_witness :
  generateUnion (G := demoGenerator)
    (Some (inlineProxy "null") :: None :: threePets) (Some allThree) ["Pet"] []
  = generateUnion (G := demoGenerator)
      (Some <$> fst (filterNull (Some (inlineProxy "null") :: None :: threePets)))
      (Some allThree) ["Pet"] [].
Proof.
  apply (generateUnion_ignores_null (G := demoGenerator)
           (Some (inlineProxy "null") :: None :: threePets) (Some allThree) ["Pet"] []).
  - simpl. lia.
  - simpl. lia.
Defined.

(** X24: a union with no member left (no element at all, or two or more
    that are all nil or null) is returned without error as the schema with no
    union element, with the discriminator's property and an empty mapping
    when a discriminator is declared. *)
Theorem generateUnion_no_members `{G : Generator} (elements : list (option SchemaProxy))
    (discriminator : option BaseDiscriminator) (options : ParseOptions) (reg : Registry) :
  length elements ≠ 1 -> fst (filterNull elements) = [] ->
  generateUnion elements discriminator options reg
  = Some (reg, (initialOut discriminator, None)).
Proof.
  intros Hl Hn. rewrite generateUnion_many by done.
  destruct (filterNull elements) as [nn hn]. cbn [fst] in Hn. subst nn.
  cbn. by destruct discriminator.
Qed.

Lemma generateUnion_no_members_witness :
  generateUnion (G := demoGenerator) [Some (inlineProxy "null"); Some (inlineProxy "null")]
    (Some implicitPet) ["Pet"] []
  = Some ([], (initialOut (Some implicitPet), None)).
Proof.
  apply (generateUnion_no_members (G := demoGenerator)
           [Some (inlineProxy "null"); Some (inlineProxy "null")] (Some implicitPet) ["Pet"] []).
  - simpl. lia.
  - reflexivity.
Defined.

(** ** Referenced members and distinct branches *)

Section Referenced.
Context `{G : Generator}.

Lemma nameMember_referenced elementPath ref reg out es :
  ref <> "" -> nameMember elementPath ref reg out es = (reg, out, es).
Proof.
  intros Hr. unfold nameMember. by rewrite (proj2 (String.eqb_neq ref "")).
Qed.

Lemma mapMember_types d e reg out es st :
  mapMember d e reg out es = inr st ->
  lsRegistry st = reg /\ AdditionalTypes (lsOut st) = AdditionalTypes out
  /\ UnionElements (lsOut st) = UnionElements out ++ [GoType es].
Proof.
  unfold mapMember. destruct d as [d|]; [destruct (_ && _); [done|]|]; by intros [= <-].
Qed.

Lemma unionStep_referenced d options st i e st' :
  GoLowReference e <> "" -> unionStep d options st i e = inr st' ->
  lsRegistry st' = fst (GenerateGoSchema e (memberOptions options i e) (lsRegistry st))
  /\ AdditionalTypes (lsOut st') = AdditionalTypes (lsOut st).
Proof.
  intros Hr. unfold unionStep.
  destruct (GenerateGoSchema e _ _) as [reg [es [err|]]]; [done|].
  rewrite nameMember_referenced by done. intros H.
  apply mapMember_types in H as (H1 & H2 & _). by rewrite H1, H2.
Qed.

Lemma unionLoop_referenced d options elements : forall st i st',
  (forall e, e ∈ elements -> GoLowReference e <> "") ->
  unionLoop d options st i elements = inr st' ->
  lsRegistry st' = synthesizeMembers options (lsRegistry st) i elements
  /\ AdditionalTypes (lsOut st') = AdditionalTypes (lsOut st).
Proof.
  induction elements as [|e l IH]; intros st i st' Hr; simpl.
  - by intros [= <-].
  - destruct (unionStep d options st i e) as [?|st1] eqn:E; [done|]. intros H.
    apply unionStep_referenced in E as [E1 E2]; [|apply Hr; by left].
    apply IH in H as [H1 H2]; [|intros x Hx; apply Hr; by right].
    by rewrite H1, H2, E1, E2.
Qed.

Lemma unionStep_elements d options st i e st' :
  unionStep d options st i e = inr st' ->
  length (UnionElements (lsOut st')) = S (length (UnionElements (lsOut st))).
Proof.
  unfold unionStep.
  destruct (GenerateGoSchema e _ _) as [reg [es [err|]]]; [done|].
  destruct (nameMember _ _ _ _ _) as [[reg1 out1] es1] eqn:En. intros H.
  apply mapMember_types in H as (_ & _ & H). rewrite H, length_app. simpl.
  assert (UnionElements out1 = UnionElements (lsOut st)) as ->; [|lia].
  revert En. unfold nameMember. destruct (_ && _); [|by intros [= _ <- _]].
  destruct (negb _); by intros [= _ <- _].
Qed.

Lemma unionLoop_elements d options elements : forall st i st',
  unionLoop d options st i elements = inr st' ->
  length (UnionElements (lsOut st')) = length (UnionElements (lsOut st)) + length elements.
Proof.
  induction elements as [|e l IH]; intros st i st'; simpl.
  - intros [= <-]. lia.
  - destruct (unionStep d options st i e) as [?|st1] eqn:E; [done|]. intros H.
    apply IH in H. apply unionStep_elements in E. lia.
Qed.
End Referenced.

Lemma generateUnion_success `{G : Generator} elements discriminator options reg reg' schema :
  length elements ≠ 1 -> length (fst (filterNull elements)) ≠ 1 ->
  generateUnion elements discriminator options reg = Some (reg', (schema, None)) ->
  exists st,
    unionLoop discriminator options {| lsRegistry := reg; lsOut := initialOut discriminator |}
      0 (fst (filterNull elements)) = inr st
    /\ reg' = lsRegistry st
    /\ schema = setUnionElements (lsOut st)
                  (deduplicateUnionElements (UnionElements (lsOut st))).
Proof.
  intros Hl Hn. rewrite generateUnion_many by done.
  destruct (filterNull elements) as [nn hn]. cbn [fst] in *.
  destruct nn as [|e [|e' nn]]; [|done|].
  all: destruct (unionLoop _ _ _ _ _) as [[r x]|st]; [done|]; cbv zeta.
  all: destruct (mappingSize _) as [n|]; [destruct (negb _); [done|]|].
  all: intros [= <- <-]; by exists st.
Qed.

(** X25: a union whose members all carry a reference defines no type of
    its own: the schema returned has no additional type, and the tracker is
    the one the synthesis of the members leaves, [AddType] not being
    called. *)
Theorem generateUnion_referenced_members `{G : Generator}
    (elements : list (option SchemaProxy)) (discriminator : option BaseDiscriminator)
    (options : ParseOptions) (reg reg' : Registry) (schema : GoSchema) :
  length elements ≠ 1 -> length (fst (filterNull elements)) ≠ 1 ->
  (forall e, e ∈ fst (filterNull elements) -> GoLowReference e <> "") ->
  generateUnion elements discriminator options reg = Some (reg', (schema, None)) ->
  AdditionalTypes schema = []
  /\ reg' = synthesizeMembers options reg 0 (fst (filterNull elements)).
Proof.
  intros Hl Hn Hr H.
  apply generateUnion_success in H as (st & Hloop & -> & ->); [|done..].
  apply unionLoop_referenced in Hloop as [H1 H2]; [|done].
  split; [|done]. cbn. rewrite H2. by destruct discriminator.
Qed.

Lemma generateUnion_referenced_members_witness :
  AdditionalTypes (setUnionElements (lsOut (loopStateOf threePets allThree))
                     ["Cat"; "Dog"; "Fox"]) = []
  /\ [] = synthesizeMembers (G := demoGenerator) ["Pet"] [] 0 (fst (filterNull threePets)).
Proof.
  apply (generateUnion_referenced_members (G := demoGenerator) threePets (Some allThree)
           ["Pet"] [] []).
  - simpl. lia.
  - simpl. lia.
  - intros e He. vm_compute in He.
    repeat (apply elem_of_cons in He as [->|He]; [done|]). by apply elem_of_nil in He.
  - by vm_compute.
Defined.

(** X26: the union returned offers no branch twice: its union elements
    are without duplicates, and no more than the members. *)
Theorem generateUnion_distinct_elements `{G : Generator}
    (elements : list (option SchemaProxy)) (discriminator : option BaseDiscriminator)
    (options : ParseOptions) (reg reg' : Registry) (schema : GoSchema) :
  length elements ≠ 1 -> length (fst (filterNull elements)) ≠ 1 ->
  generateUnion elements discriminator options reg = Some (reg', (schema, None)) ->
  NoDup (UnionElements schema)
  /\ length (UnionElements schema) <= length (fst (filterNull elements)).
Proof.
  intros Hl Hn H.
  apply generateUnion_success in H as (st & Hloop & -> & ->); [|done..].
  cbn. split; [apply dedupFrom_NoDup|].
  apply unionLoop_elements in Hloop. cbn [lsOut] in Hloop.
  assert (UnionElements (initialOut discriminator) = []) as Hi by (by destruct discriminator).
  rewrite Hi in Hloop. cbn [length] in Hloop.
  etrans; [apply dedupFrom_length|]. lia.
Qed.

Lemma generateUnion_distinct_elements_witness :
  NoDup ["Cat"] /\ length ["Cat"] <= length (fst (filterNull twoCats)).
Proof.
  apply (generateUnion_distinct_elements (G := demoGenerator) twoCats None ["Pet"] [] []
           {| GoType := ""; GDiscriminator := None; UnionElements := ["Cat"];
              AdditionalTypes := []; Nullable := None |}).
  - simpl. lia.
  - simpl. lia.
  - by vm_compute.
Defined.

(** ** The discriminator mapping points into the union *)

Section Targets.
Context `{G : Generator}.

Lemma nameMember_branches elementPath ref reg out es reg' out' es' :
  nameMember elementPath ref reg out es = (reg', out', es') ->
  GDiscriminator out' = GDiscriminator out /\ UnionElements out' = UnionElements out.
Proof.
  unfold nameMember. destruct (_ && _); [|by intros [= _ <- _]].
  destruct (negb _); by intros [= _ <- _].
Qed.

Lemma mapMember_targets d e reg out es st :
  mappingTargets out -> mapMember d e reg out es = inr st -> mappingTargets (lsOut st).
Proof.
  intros Hout. unfold mapMember. destruct d as [d|].
  - destruct (_ && _); [done|]. intros [= <-]. intros d' k v. cbn.
    destruct (GDiscriminator out) as [d0|] eqn:Ed; [|done]. intros [= <-]. cbn.
    rewrite elem_of_app, list_elem_of_singleton.
    match goal with |- <[?key := _]> _ !! _ = _ -> _ =>
      destruct (decide (key = k)) as [->|Hne] end.
    + rewrite lookup_insert_eq. intros [= <-]. by right.
    + rewrite lookup_insert_ne by done. intros Hv. left. by eapply Hout.
  - intros [= <-]. intros d' k v. cbn. intros Hd Hv.
    rewrite elem_of_app. left. by eapply Hout.
Qed.

Lemma unionStep_targets d options st i e st' :
  mappingTargets (lsOut st) -> unionStep d options st i e = inr st' ->
  mappingTargets (lsOut st').
Proof.
  intros Hst. unfold unionStep.
  destruct (GenerateGoSchema e _ _) as [reg [es [err|]]]; [done|].
  destruct (nameMember _ _ _ _ _) as [[reg1 out1] es1] eqn:En.
  apply nameMember_branches in En as [Hd Hu].
  apply mapMember_targets. intros d' k v. rewrite Hd, Hu. apply Hst.
Qed.

Lemma unionLoop_targets d options elements : forall st i st',
  mappingTargets (lsOut st) -> unionLoop d options st i elements = inr st' ->
  mappingTargets (lsOut st').
Proof.
  induction elements as [|e l IH]; intros st i st' Hst; simpl.
  - by intros [= <-].
  - destruct (unionStep d options st i e) as [?|st1] eqn:E; [done|].
    apply IH. by eapply unionStep_targets.
Qed.
End Targets.

(** X27: in the union returned, every value of the discriminator mapping
    is one of the union elements: the mapping never points to a branch the
    union does not offer. *)
Theorem generateUnion_mapping_targets `{G : Generator}
    (elements : list (option SchemaProxy)) (discriminator : option BaseDiscriminator)
    (options : ParseOptions) (reg reg' : Registry) (schema : GoSchema) :
  length elements ≠ 1 -> length (fst (filterNull elements)) ≠ 1 ->
  generateUnion elements discriminator options reg = Some (reg', (schema, None)) ->
  forall d k v,
    GDiscriminator schema = Some d -> Mapping d !! k = Some v -> v ∈ UnionElements schema.
Proof.
  intros Hl Hn H.
  apply generateUnion_success in H as (st & Hloop & -> & ->); [|done..].
  apply unionLoop_targets in Hloop.
  - intros d k v Hd Hv. cbn in *.
    apply dedupFrom_elem_of. split; [by eapply Hloop|]. by intros ?%elem_of_nil.
  - intros d k v. cbn. destruct discriminator; [|done]. intros [= <-]. cbn.
    by rewrite lookup_empty.
Qed.

Lemma generateUnion_mapping_targets_witness :
  "Cat" ∈ UnionElements (setUnionElements (lsOut (loopStateOf threePets allThree))
                           ["Cat"; "Dog"; "Fox"]).
Proof.
  refine (generateUnion_mapping_targets (G := demoGenerator) threePets (Some allThree)
            ["Pet"] [] [] _ _ _ _ _ "cat" "Cat" _ _).
  - simpl. lia.
  - simpl. lia.
  - by vm_compute.
  - reflexivity.
  - by vm_compute.
Defined.

(** ** The mapping built and the members' keys *)

Section KeyFacts.
Context `{G : Generator}.

Lemma unionStep_key d options st i e st' m :
  GDiscriminator (lsOut st) = Some {| Property := PropertyName d; Mapping := m |} ->
  unionStep (Some d) options st i e = inr st' ->
  exists t, GDiscriminator (lsOut st')
    = Some {| Property := PropertyName d; Mapping := <[memberKey d e := t]> m |}.
Proof.
  intros Hm. unfold unionStep.
  destruct (GenerateGoSchema e _ _) as [reg [es [err|]]]; [done|].
  destruct (nameMember _ _ _ _ _) as [[reg1 out1] es1] eqn:En.
  apply nameMember_discriminator in En. unfold mapMember.
  destruct (_ && _); [done|]. intros [= <-]. cbn. rewrite En, Hm. cbn.
  by eexists.
Qed.

Lemma unionLoop_keys d options elements : forall st i st' m,
  GDiscriminator (lsOut st) = Some {| Property := PropertyName d; Mapping := m |} ->
  unionLoop (Some d) options st i elements = inr st' ->
  exists m', GDiscriminator (lsOut st')
      = Some {| Property := PropertyName d; Mapping := m' |}
    /\ dom m' = dom m ∪ list_to_set (memberKey d <$> elements).
Proof.
  induction elements as [|e elements IH]; simpl; intros st i st' m Hm.
  - intros [= <-]. exists m. split; [done|]. set_solver.
  - destruct (unionStep _ _ _ _ _) as [?|st1] eqn:E; [done|]. intros Hl.
    destruct (unionStep_key d options st i e st1 m Hm E) as [t Ht].
    destruct (IH st1 (S i) st' _ Ht Hl) as (m' & Hm' & Hd).
    exists m'. split; [done|]. rewrite Hd, dom_insert_L. set_solver.
Qed.

Lemma size_keys_le (l : list string) :
  size (list_to_set l : gset string) <= length l
  /\ (size (list_to_set l : gset string) = length l <-> NoDup l).
Proof.
  induction l as [|x l [IH1 IH2]].
  - rewrite list_to_set_nil, size_empty. split; [done|]. split; [constructor|done].
  - rewrite list_to_set_cons. cbn [length]. destruct (decide (x ∈ l)) as [Hin|Hout].
    + replace ({[x]} ∪ list_to_set l : gset string) with (list_to_set l : gset string)
        by (apply set_eq; intros y; rewrite elem_of_union, elem_of_singleton, elem_of_list_to_set;
            naive_solver).
      split; [lia|]. split; [lia|]. by intros [? _]%NoDup_cons.
    + rewrite size_union by (rewrite disjoint_singleton_l, elem_of_list_to_set; done).
      rewrite size_singleton. split; [lia|]. rewrite NoDup_cons. split.
      * intros Hs. split; [done|]. apply IH2. lia.
      * intros [_ Hnd]. apply IH2 in Hnd. lia.
Qed.

End KeyFacts.

(** C5, as the code has it: under a declared discriminator, once the
    member loop has processed all the two or more non-null members, the
    mapping built has one entry for every discriminator key of a member (the
    explicit key of the member's reference, else its implicit key).
    [generateUnion] returns the union, without error, when the keys of the
    members are pairwise distinct, the mapping then having as many entries as
    there are members; it returns the incomplete-mapping error with the empty
    schema when two members have the same key, the mapping then having
    fewer. *)
Theorem union_mapping_keys `{G : Generator} (elements : list (option SchemaProxy))
    (d : BaseDiscriminator) (options : ParseOptions) (reg : Registry)
    (nonNullElements : list SchemaProxy) (hasNull : bool) (st : LoopState) :
  filterNull elements = (nonNullElements, hasNull) ->
  2 <= length nonNullElements ->
  unionLoop (Some d) options {| lsRegistry := reg; lsOut := initialOut (Some d) |}
    0 nonNullElements = inr st ->
  exists m,
    GDiscriminator (lsOut st) = Some {| Property := PropertyName d; Mapping := m |}
    /\ dom m = list_to_set (memberKey d <$> nonNullElements)
    /\ (NoDup (memberKey d <$> nonNullElements) ->
        size m = length nonNullElements
        /\ generateUnion elements (Some d) options reg
           = Some (lsRegistry st,
                   (setUnionElements (lsOut st)
                      (deduplicateUnionElements (UnionElements (lsOut st))), None)))
    /\ (~ NoDup (memberKey d <$> nonNullElements) ->
        size m < length nonNullElements
        /\ generateUnion elements (Some d) options reg
           = Some (lsRegistry st, (zeroGoSchema, Some ErrDiscriminatorNotAllMapped))).
Proof.
  intros Hf Hlen Hloop.
  destruct (unionLoop_keys d options nonNullElements
              {| lsRegistry := reg; lsOut := initialOut (Some d) |} 0 st ∅) as (m & Hm & Hd);
    [done|done|].
  exists m. split; [done|].
  assert (dom m = list_to_set (memberKey d <$> nonNullElements)) as Hd'
    by (rewrite Hd, dom_empty_L; set_solver).
  clear Hd. rename Hd' into Hd. split; [done|].
  assert (size m = size (list_to_set (memberKey d <$> nonNullElements) : gset string)) as Hsz
    by (by rewrite <- Hd, size_dom).
  destruct (size_keys_le (memberKey d <$> nonNullElements)) as [Hle Hiff].
  rewrite length_fmap in Hle, Hiff.
  pose proof (filterNull_length elements) as Hle'. rewrite Hf in Hle'. simpl in Hle'.
  assert (generateUnion elements (Some d) options reg
          = if negb (size m =? length nonNullElements)%nat
            then Some (lsRegistry st, (zeroGoSchema, Some ErrDiscriminatorNotAllMapped))
            else Some (lsRegistry st,
                   (setUnionElements (lsOut st)
                      (deduplicateUnionElements (UnionElements (lsOut st))), None))) as Hg.
  { rewrite generateUnion_many by lia. rewrite Hf.
    destruct nonNullElements as [|x [|y l]]; [simpl in Hlen; lia..|].
    rewrite Hloop. unfold mappingSize. cbn [GDiscriminator setUnionElements]. by rewrite Hm. }
  split.
  - intros Hnd. apply Hiff in Hnd. split; [lia|]. rewrite Hg.
    by rewrite (proj2 (Nat.eqb_eq _ _)) by lia.
  - intros Hnd. assert (size m <> length nonNullElements) as Hne.
    { intros Heq. apply Hnd, Hiff. lia. }
    split; [lia|]. rewrite Hg. by rewrite (proj2 (Nat.eqb_neq _ _)).
Qed.

Lemma union_mapping_keys_witness :
  generateUnion (G := demoGenerator) threePets (Some allThree) ["Pet"] []
    = Some ([], ({| GoType := "";
                    GDiscriminator := Some {| Property := "petType";
                      Mapping := {[ "cat" := "Cat"; "dog" := "Dog"; "fox" := "Fox" ]} |};
                    UnionElements := ["Cat"; "Dog"; "Fox"];
                    AdditionalTypes := []; Nullable := None |}, None))
  /\ generateUnion (G := demoGenerator) twoCats (Some explicitPet) ["Pet"] []
    = Some ([], (zeroGoSchema, Some "discriminator: not all schemas were mapped")).
Proof.
  split.
  - destruct (union_mapping_keys (G := demoGenerator) threePets allThree ["Pet"] []
                (proxiesOf threePets) false (loopStateOf threePets allThree))
      as (m & Hm & _ & Hok & _); [reflexivity|simpl; lia|by vm_compute|].
    destruct Hok as [_ ->]; [|by vm_compute].
    vm_compute. repeat (constructor; [set_solver|]). constructor.
  - destruct (union_mapping_keys (G := demoGenerator) twoCats explicitPet ["Pet"] []
                (proxiesOf twoCats) false (loopStateOf twoCats explicitPet))
      as (m & Hm & _ & _ & Hbad); [reflexivity|simpl; lia|by vm_compute|].
    destruct Hbad as [_ ->]; [|done].
    vm_compute. intros Hnd. apply NoDup_cons in Hnd as [Hin _]. set_solver.
Defined.

(** C5 as stated fails in its second half: the declared mapping names the
    reference of both members of [twoCats], and the union is refused as
    incompletely mapped, both members being mapped under the one key. *)
Lemma coveredSucceeds_fails :
  ~ coveredSucceeds (G := demoGenerator) twoCats explicitPet ["Pet"] [].
Proof.
  intros H. destruct H as (reg' & out & E).
  - simpl. lia.
  - intros e He. exists "cat". vm_compute in He.
    apply elem_of_cons in He as [->|He]; [vm_compute; left|].
    apply elem_of_cons in He as [->|He]; [vm_compute; left|].
    by apply elem_of_nil in He.
  - vm_compute in E. discriminate E.
Qed.

(** ** The first member without a reference *)

Section First.
Context `{G : Generator}.

Lemma unionLoop_app d options l1 : forall l2 st i,
  unionLoop d options st i (l1 ++ l2)
  = match unionLoop d options st i l1 with
    | inl e => inl e
    | inr st' => unionLoop d options st' (i + length l1) l2
    end.
Proof.
  induction l1 as [|x l1 IH]; intros l2 st i; simpl.
  - by rewrite Nat.add_0_r.
  - destruct (unionStep d options st i x) as [?|st1]; [done|].
    rewrite IH. by replace (S i + length l1) with (i + S (length l1)) by lia.
Qed.

(** A step that fails on a member with a reference fails with the error of
    the member's own synthesis. *)
Lemma unionStep_own d options st i x r err :
  Reference x <> "" ->
  unionStep (Some d) options st i x = inl (r, err) ->
  exists es, GenerateGoSchema x (memberOptions options i x) (lsRegistry st)
             = (r, (es, Some err)).
Proof.
  intros Hr. unfold unionStep.
  destruct (GenerateGoSchema x _ _) as [reg0 [es [err0|]]].
  - intros [= <- <-]. by exists es.
  - destruct (nameMember _ _ _ _ _) as [[reg1 out1] es1]. unfold mapMember.
    rewrite (proj2 (String.eqb_neq _ _) Hr), andb_false_r. done.
Qed.

Lemma unionLoop_own d options members : forall st i r err,
  (forall x, x ∈ members -> Reference x <> "") ->
  unionLoop (Some d) options st i members = inl (r, err) ->
  exists before x after st1 es,
    members = before ++ x :: after
    /\ unionLoop (Some d) options st i before = inr st1
    /\ GenerateGoSchema x (memberOptions options (i + length before) x) (lsRegistry st1)
       = (r, (es, Some err)).
Proof.
  induction members as [|y members IH]; intros st i r err Hall; [done|]. simpl.
  destruct (unionStep (Some d) options st i y) as [[r0 e0]|st1] eqn:E.
  - intros [= -> ->]. apply unionStep_own in E as [es Hes]; [|apply Hall; by left].
    exists [], y, members, st, es. simpl. by rewrite Nat.add_0_r.
  - intros Hl. apply IH in Hl as (b & x & a & st2 & es & -> & Hb & Hx).
    + exists (y :: b), x, a, st2, es. simpl. rewrite E.
      by replace (i + S (length b)) with (S i + length b) by lia.
    + intros x Hx. apply Hall. by right.
Qed.

(** The first member without a reference. *)
Lemma first_unreferenced (members : list SchemaProxy) e0 :
  e0 ∈ members -> Reference e0 = "" ->
  exists before e after,
    members = before ++ e :: after
    /\ (forall x, x ∈ before -> Reference x <> "") /\ Reference e = "".
Proof.
  induction members as [|y members IH]; [by intros ?%elem_of_nil|].
  intros Hin Hr. destruct (decide (Reference y = "")) as [Hy|Hy].
  - exists [], y, members. split; [done|]. split; [by intros x ?%elem_of_nil|done].
  - apply elem_of_cons in Hin as [->|Hin]; [done|].
    destruct (IH Hin Hr) as (b & e & a & -> & Hb & He).
    exists (y :: b), e, a. split; [done|]. split; [|done].
    intros x [->|Hx]%elem_of_cons; [done|by apply Hb].
Qed.

(** The step at a member without a reference, under an explicit
    mapping. *)
Lemma unionStep_unreferenced d options st i e :
  BMapping d <> [] -> Reference e = "" ->
  match GenerateGoSchema e (memberOptions options i e) (lsRegistry st) with
  | (r, (_, Some own)) => unionStep (Some d) options st i e = inl (r, own)
  | (_, (_, None)) =>
      exists r, unionStep (Some d) options st i e = inl (r, ErrAmbiguousDiscriminatorMapping)
  end.
Proof.
  intros Hm Hr. unfold unionStep.
  destruct (GenerateGoSchema e _ _) as [reg [es [err|]]]; [done|].
  destruct (nameMember _ _ _ _ _) as [[reg1 out1] es1]. unfold mapMember.
  rewrite Hr. destruct (BMapping d); [done|]. cbn. by eexists.
Qed.
End First.

(** C4, as the code has it: under a discriminator whose explicit mapping
    is not empty, a union of two or more non-null members with a member that
    has no reference is refused, with the empty schema.  The member loop
    stops at the first such member or before it: when the own synthesis of a
    member before it fails, that member's error is returned; when its own
    synthesis fails, its error is returned; otherwise the ambiguous-mapping
    error is returned, whatever the members after it are. *)
Theorem union_first_unreferenced `{G : Generator} (elements : list (option SchemaProxy))
    (d : BaseDiscriminator) (options : ParseOptions) (reg : Registry)
    (nonNullElements : list SchemaProxy) (hasNull : bool) (e0 : SchemaProxy) :
  filterNull elements = (nonNullElements, hasNull) ->
  2 <= length nonNullElements ->
  BMapping d <> [] ->
  e0 ∈ nonNullElements -> Reference e0 = "" ->
  let st0 := {| lsRegistry := reg; lsOut := initialOut (Some d) |} in
  exists before e after,
    nonNullElements = before ++ e :: after
    /\ (forall x, x ∈ before -> Reference x <> "") /\ Reference e = ""
    /\ match unionLoop (Some d) options st0 0 before with
       | inl (r, err) =>
           generateUnion elements (Some d) options reg = Some (r, (zeroGoSchema, Some err))
           /\ ownError (Some d) options st0 before r err
       | inr st =>
           match GenerateGoSchema e (memberOptions options (length before) e) (lsRegistry st) with
           | (r, (_, Some own)) =>
               generateUnion elements (Some d) options reg
               = Some (r, (zeroGoSchema, Some own))
           | (_, (_, None)) =>
               exists r,
                 generateUnion elements (Some d) options reg
                 = Some (r, (zeroGoSchema, Some ErrAmbiguousDiscriminatorMapping))
           end
       end.
Proof.
  intros Hf Hlen Hm He0 Hr0 st0.
  destruct (first_unreferenced nonNullElements e0 He0 Hr0) as (before & e & after & -> & Hb & He).
  exists before, e, after. split; [done|]. split; [done|]. split; [done|].
  pose proof (filterNull_length elements) as Hle. rewrite Hf in Hle. simpl in Hle.
  assert (forall r err,
            unionLoop (Some d) options st0 0 (before ++ e :: after) = inl (r, err) ->
            generateUnion elements (Some d) options reg = Some (r, (zeroGoSchema, Some err)))
    as Hg.
  { intros r err Hl. rewrite generateUnion_many by lia. rewrite Hf.
    remember (before ++ e :: after) as nn eqn:Enn. clear Enn.
    destruct nn as [|x [|y l]]; [simpl in Hlen; lia..|].
    unfold st0 in Hl. by rewrite Hl. }
  pose proof (unionLoop_app (Some d) options before (e :: after) st0 0) as Happ.
  destruct (unionLoop (Some d) options st0 0 before) as [[r err]|st] eqn:El.
  - split; [by apply Hg|].
    destruct (unionLoop_own d options before st0 0 r err Hb El)
      as (b & x & a & st1 & es & -> & Hb1 & Hx).
    by exists b, x, a, st1, es.
  - cbn [unionLoop] in Happ. cbn [Nat.add] in Happ.
    pose proof (unionStep_unreferenced d options st (length before) e Hm He) as Hs.
    destruct (GenerateGoSchema e _ _) as [r [es [own|]]].
    + rewrite Hs in Happ. by apply Hg.
    + destruct Hs as [r' Hs]. rewrite Hs in Happ. exists r'. by apply Hg.
Qed.

Lemma union_first_unreferenced_witness :
  exists reg',
    generateUnion (G := demoGenerator) catOrInline (Some explicitPet) ["Pet"] []
      = Some (reg', (zeroGoSchema,
                     Some "ambiguous discriminator.mapping: please replace inlined object with $ref")).
Proof.
  destruct (union_first_unreferenced (G := demoGenerator) catOrInline explicitPet ["Pet"] []
              (proxiesOf catOrInline) false (inlineProxy "object"))
    as (before & e & after & Hsplit & Hb & He & H).
  - reflexivity.
  - simpl. lia.
  - discriminate.
  - right. left.
  - reflexivity.
  - destruct before as [|x [|y before]].
    + injection Hsplit as <- _. discriminate He.
    + injection Hsplit as <- <- _. exact H.
    + injection Hsplit as _ _ Hs. by destruct before.
Defined.

(** With a stand-in whose synthesis fails on the type [bad]: a member
    without a reference that comes before a failing member gives the
    ambiguous-mapping error, and a failing member that comes first, with a
    reference or without, gives its own error. *)
Example first_unreferenced_decides :
  snd <$> generateUnion (G := strictGenerator)
            [Some (inlineProxy "object"); Some (inlineProxy "bad")]
            (Some explicitPet) ["Pet"] []
    = Some (zeroGoSchema,
            Some "ambiguous discriminator.mapping: please replace inlined object with $ref")
  /\ snd <$> generateUnion (G := strictGenerator)
               [Some (inlineProxy "bad"); Some (inlineProxy "object")]
               (Some explicitPet) ["Pet"] []
     = Some (zeroGoSchema, Some "unsupported type: bad")
  /\ snd <$> generateUnion (G := strictGenerator)
               [Some badRef; Some (inlineProxy "object")]
               (Some explicitPet) ["Pet"] []
     = Some (zeroGoSchema, Some "unsupported type: bad").
Proof. repeat split; by vm_compute. Qed.

End UnionLaws.

(** * Pointer helpers and union method names *)
Module PointerLaws.
Import Go Pointers.
Local Open Scope list_scope.
#[local] Set Warnings "-clear-no-such-hyp".



(** Where [==] is not reflexive, neither is [ptrEqual]: a pointer is equal
    to itself exactly when it is nil or its value is equal to itself. *)
Lemma ptrEqual_self {T : Type} `{Comparable T} (p : option T) :
  ptrEqual p p = match p with Some x => goEq x x | None => true end.
Proof. by destruct p. Qed.

(** ** Method names of union elements *)

Lemma string_app_assoc (a b c : string) : (a +:+ b) +:+ c = a +:+ (b +:+ c).
Proof.
  induction a as [|x a IH]; [done|].
  change (String x ((a +:+ b) +:+ c) = String x (a +:+ (b +:+ c))). by rewrite IH.
Qed.

Lemma string_app_nil_r (a : string) : a +:+ "" = a.
Proof.
  induction a as [|x a IH]; [done|].
  change (String x (a +:+ "") = String x a). by rewrite IH.
Qed.

Section MethodFacts.
Variable upper : string -> string.

Lemma splitDots_app a : forall b acc,
  splitDots (a +:+ "." +:+ b) acc = splitDots a acc ++ splitDots b "".
Proof.
  induction a as [|c a IH]; intros b acc.
  - done.
  - change (String c a +:+ "." +:+ b) with (String c (a +:+ "." +:+ b)).
    cbn [splitDots]. destruct (Ascii.eqb c (Ascii.ascii_of_nat 46)).
    + by rewrite IH.
    + apply IH.
Qed.

Lemma join_from parts : forall m,
  foldl (fun method part => method +:+ upper part) m parts
  = m +:+ foldl (fun method part => method +:+ upper part) "" parts.
Proof.
  induction parts as [|p parts IH]; intros m; simpl.
  - by rewrite string_app_nil_r.
  - rewrite IH. rewrite (IH ("" +:+ upper p)). by rewrite string_app_assoc.
Qed.

Lemma splitDots_plain u : forall acc,
  (forall i, String.get i u <> Some (Ascii.ascii_of_nat 46)) ->
  splitDots u acc = [acc +:+ u].
Proof.
  induction u as [|c u IH]; intros acc Hu.
  - simpl. by rewrite string_app_nil_r.
  - cbn [splitDots]. destruct (Ascii.eqb_spec c (Ascii.ascii_of_nat 46)) as [->|Hne].
    + by destruct (Hu 0).
    + rewrite IH; [by rewrite string_app_assoc|]. intros i. apply (Hu (S i)).
Qed.

(** X29: [Method] is the concatenation of the capitalised parts between
    the dots: for a name without a dot it is [UppercaseFirstCharacter] of the
    name, and the method of [a.b] is the method of [a] followed by the method
    of [b]. *)
Theorem Method_parts (a b : string) :
  Method upper (a +:+ "." +:+ b) = Method upper a +:+ Method upper b
  /\ ((forall i, String.get i a <> Some (Ascii.ascii_of_nat 46)) ->
      Method upper a = upper a).
Proof.
  unfold Method. split.
  - rewrite splitDots_app, foldl_app. by rewrite join_from.
  - intros Ha. by rewrite splitDots_plain.
Qed.
End MethodFacts.

End PointerLaws.
